(** * Architecture analyzer of aides-simplifiees-mcp

    A shallow embedding of the architecture analyzer
    (coupling, duplication, complexity, circular dependencies, health score)
    and of the [similarity] utility it relies on, followed by the properties
    proved about them.

    Conventions of the embedding.
    - A JavaScript string is a [string]; a character is one code unit, taken
      in the range of [ascii].
    - Counts and lengths are [nat]; numbers that may become negative are [Z].
    - A ratio of two integers is an exact rational [Q]. Every ratio the
      analyzer compares with a constant (0.5, 0.7, 0.85) has a denominator
      bounded by a string or array length, for which the double-precision
      comparison and the exact one agree.
    - Module-level mutable state (the two caches) is threaded explicitly.
    - [async] functions are sequenced in program order: they only read an
      immutable file system and fill a read-through cache. *)

From Stdlib Require Import ZArith QArith Lia List String Ascii Permutation.
From stdpp Require Import gmap strings list.

Open Scope string_scope.
Open Scope list_scope.

(** ** JavaScript primitives *)

Module JS.

(** [s.includes(sub)] *)
Fixpoint includes (s sub : string) : bool :=
  String.prefix sub s ||
  match s with
  | EmptyString => false
  | String _ s' => includes s' sub
  end.

(** [s.startsWith(p)] *)
Definition startsWith (s p : string) : bool := String.prefix p s.

(** [s.endsWith(suf)] *)
Definition endsWith (s suf : string) : bool :=
  (String.length suf <=? String.length s)%nat &&
  String.eqb
    (substring (String.length s - String.length suf) (String.length suf) s)
    suf.

(** [s.charAt(i)]; [None] stands for the empty string returned out of
    range. *)
Definition charAt (s : string) (i : nat) : option ascii := String.get i s.

(** [s.split(sep)] for a one-character separator. *)
Fixpoint split (sep : ascii) (s : string) : list string :=
  match s with
  | EmptyString => [EmptyString]
  | String c s' =>
      if Ascii.eqb c sep then EmptyString :: split sep s'
      else match split sep s' with
           | h :: t => String c h :: t
           | [] => [String c EmptyString]
           end
  end.

(** [a.join(sep)] *)
Definition join (sep : string) (a : list string) : string :=
  String.concat sep a.

(** [a.sort()] with the default comparator (code-unit order). *)
Fixpoint sort_insert (x : string) (l : list string) : list string :=
  match l with
  | [] => [x]
  | y :: l' => if String.leb x y then x :: y :: l' else y :: sort_insert x l'
  end.

Definition sort (a : list string) : list string :=
  fold_right sort_insert [] a.

(** [a.indexOf(x)] when [x] occurs in [a]; [length a] otherwise (the
    callers only use it after [a.includes(x)]). *)
Fixpoint indexOf (a : list string) (x : string) : nat :=
  match a with
  | [] => 0
  | y :: a' => if String.eqb y x then 0 else S (indexOf a' x)
  end.

(** [s.replace(/^\.\.?\//, "")] *)
Definition stripRelativePrefix (s : string) : string :=
  match s with
  | String "." (String "." (String "/" r)) => r
  | String "." (String "/" r) => r
  | _ => s
  end.

(** ToInt32 *)
Definition toInt32 (z : Z) : Z := ((z + 2 ^ 31) mod 2 ^ 32 - 2 ^ 31)%Z.

(** A number array with holes is a [list (option nat)]: [None] is an empty
    slot. [a[i] = v] replaces in range and extends (leaving holes) out of
    range. *)
Definition array_set (a : list (option nat)) (i v : nat) : list (option nat) :=
  if (i <? length a)%nat then <[i := Some v]> a
  else a ++ replicate (i - length a) None ++ [Some v].

(** [a[i]]; [None] is [undefined]. *)
Definition array_get (a : list (option nat)) (i : nat) : option nat :=
  mjoin (a !! i).

(** Regular-expression character classes. *)
Definition isWordChar (c : ascii) : bool :=
  let n := nat_of_ascii c in
  ((48 <=? n) && (n <=? 57) || (65 <=? n) && (n <=? 90) ||
   (97 <=? n) && (n <=? 122) || (n =? 95))%nat.

Definition isSpaceChar (c : ascii) : bool :=
  let n := nat_of_ascii c in
  ((9 <=? n) && (n <=? 13) || (n =? 32) || (n =? 160))%nat.

Definition boundaryBefore (prev : option ascii) : bool :=
  match prev with
  | None => true
  | Some c => negb (isWordChar c)
  end.

Definition boundaryAfter (rest : string) : bool :=
  match rest with
  | EmptyString => true
  | String c _ => negb (isWordChar c)
  end.

Fixpoint dropString (n : nat) (s : string) : string :=
  match n, s with
  | S n', String _ s' => dropString n' s'
  | _, _ => s
  end.

(** A pattern is given by its matcher at one position: the character before
    the position (if any) and the text from the position on, to the length
    of the match found there. *)
Definition Matcher := option ascii -> string -> option nat.

(** [/\bkw\b/] for a keyword made of word characters. *)
Definition wordMatcher (kw : string) : Matcher := fun prev s =>
  if boundaryBefore prev && String.prefix kw s &&
     boundaryAfter (dropString (String.length kw) s)
  then Some (String.length kw) else None.

(** A literal. *)
Definition literalMatcher (lit : string) : Matcher := fun _ s =>
  if String.prefix lit s then Some (String.length lit) else None.

Fixpoint skipSpaces (s : string) : nat * string :=
  match s with
  | String c s' =>
      if isSpaceChar c then let '(n, r) := skipSpaces s' in (S n, r)
      else (0%nat, s)
  | EmptyString => (0%nat, s)
  end.

(** [/\belse\s+if\b/] *)
Definition elseIfMatcher : Matcher := fun prev s =>
  if boundaryBefore prev && String.prefix "else" s then
    let '(n, r) := skipSpaces (dropString 4 s) in
    if (0 <? n)%nat && String.prefix "if" r && boundaryAfter (dropString 2 r)
    then Some (4 + n + 2)%nat else None
  else None.

(** First alternative that matches. *)
Fixpoint altMatcher (ms : list Matcher) : Matcher := fun prev s =>
  match ms with
  | [] => None
  | m :: ms' =>
      match m prev s with
      | Some n => Some n
      | None => altMatcher ms' prev s
      end
  end.

(** Number of matches of a global pattern: leftmost match, then on from
    its end. [skip] counts the characters of the last match still to be
    passed over. *)
Fixpoint countFrom (m : Matcher) (prev : option ascii) (skip : nat)
    (s : string) : nat :=
  match s with
  | EmptyString => 0
  | String c s' =>
      match skip with
      | S k => countFrom m (Some c) k s'
      | O =>
          match m prev s with
          | Some (S n) => S (countFrom m (Some c) n s')
          | _ => countFrom m (Some c) 0 s'
          end
      end
  end.

(** [(s.match(re) || []).length] for a global pattern. *)
Definition countMatches (m : Matcher) (s : string) : nat :=
  countFrom m None 0 s.

(** [re.test(s)] *)
Definition test (m : Matcher) (s : string) : bool :=
  (0 <? countMatches m s)%nat.

End JS.

(** ** Data model (types/index.ts) *)

Inductive ComponentType := page | component | layout | api | utility.

Record ComponentInfo := {
  name : string;
  path : string;
  type : ComponentType;
  imports : list string;
  exports : list string;
  dependencies : list string;
  linesOfCode : Z
}.

Inductive CouplingScore := good | moderate | high.

Record CouplingMetric := {
  cm_component : string;
  afferentCoupling : nat;
  efferentCoupling : nat;
  instability : Q;
  cm_score : CouplingScore
}.

Record DuplicationInstance := {
  files : list string;
  lines : nat;
  similarityOf : Q;
  snippet : string;
  suggestion : string
}.

Inductive ComplexityScore := simple | moderateComplexity | complex | veryComplex.

Record ComplexityMetric := {
  file : string;
  functionName : string;
  cyclomaticComplexity : nat;
  cognitiveComplexity : nat;
  fm_linesOfCode : nat;
  fm_score : ComplexityScore
}.

Inductive Severity := warning | error.

Record CircularDependency := {
  cycle : list string;
  severity : Severity
}.

Record ArchitectureAnalysis := {
  analyzedAt : string;
  coupling : list CouplingMetric;
  duplication : list DuplicationInstance;
  complexity : list ComplexityMetric;
  circularDependencies : list CircularDependency;
  healthScore : Z
}.

(** ** Coupling analyzer *)

Definition dependsOnName (nm : string) (c : ComponentInfo) : bool :=
  existsb (fun dep => JS.includes dep nm) (dependencies c).

Definition isRelative (dep : string) : bool := JS.startsWith dep ".".

Definition couplingScoreOf (inst : Q) (efferent : nat) : CouplingScore :=
  if negb (Qle_bool inst (7 # 10)) || (10 <? efferent)%nat then high
  else if negb (Qle_bool inst (5 # 10)) || (5 <? efferent)%nat then moderate
  else good.

Definition couplingOf (components : list ComponentInfo) (c : ComponentInfo)
    : CouplingMetric :=
  let afferent := length (List.filter (dependsOnName (name c)) components) in
  let efferent := length (List.filter isRelative (dependencies c)) in
  let total := (afferent + efferent)%nat in
  let inst :=
    if (0 <? total)%nat
    then (inject_Z (Z.of_nat efferent) / inject_Z (Z.of_nat total))%Q
    else 0%Q in
  {| cm_component := path c;
     afferentCoupling := afferent;
     efferentCoupling := efferent;
     instability := inst;
     cm_score := couplingScoreOf inst efferent |}.

Definition calculateCoupling (components : list ComponentInfo)
    : list CouplingMetric :=
  List.map (couplingOf components) components.

(** ** Similarity (utils/index.ts) *)

(** One step of the inner loop of [levenshtein], at row [i] and column [j],
    on the state [(costs, lastValue)]. The result is [None] when the step
    reads an empty slot of [costs] (the JavaScript arithmetic would go on
    with [undefined]). *)
Definition levenshteinStep (s1 s2 : string) (i : nat)
    (st : option (list (option nat) * nat)) (j : nat)
    : option (list (option nat) * nat) :=
  '(costs, lastValue) ← st;
  if (i =? 0)%nat then Some (JS.array_set costs j j, lastValue)
  else if (0 <? j)%nat then
    newValue ← JS.array_get costs (j - 1);
    newValue' ←
      (if bool_decide (JS.charAt s1 (i - 1) ≠ JS.charAt s2 (j - 1)) then
         cj ← JS.array_get costs j;
         Some (Nat.min (Nat.min newValue lastValue) cj + 1)%nat
       else Some newValue);
    Some (JS.array_set costs (j - 1) lastValue, newValue')
  else Some (costs, lastValue).

(** The body of the outer loop: row [i]. *)
Definition levenshteinRow (s1 s2 : string)
    (costs : option (list (option nat))) (i : nat)
    : option (list (option nat)) :=
  costs ← costs;
  '(costs, lastValue) ←
    fold_left (levenshteinStep s1 s2 i) (seq 0 (S (String.length s2)))
      (Some (costs, i));
  if (0 <? i)%nat then Some (JS.array_set costs (String.length s2) lastValue)
  else Some costs.

Definition levenshtein (s1 s2 : string) : option nat :=
  costs ← fold_left (levenshteinRow s1 s2) (seq 0 (S (String.length s1)))
             (Some []);
  JS.array_get costs (String.length s2).

(** [None]: the result is not a number. *)
Definition similarity (s1 s2 : string) : option Q :=
  let longer :=
    if (String.length s2 <? String.length s1)%nat then s1 else s2 in
  let shorter :=
    if (String.length s2 <? String.length s1)%nat then s2 else s1 in
  if (String.length longer =? 0)%nat then Some 1%Q
  else
    editDistance ← levenshtein longer shorter;
    Some (inject_Z (Z.of_nat (String.length longer) - Z.of_nat editDistance)
          / inject_Z (Z.of_nat (String.length longer)))%Q.

(** The Levenshtein distance between the first [i] characters of [a] and the
    first [j] characters of [b], by its defining recurrence. *)
Fixpoint lev (a b : string) (i : nat) : nat -> nat :=
  match i with
  | O => fun j => j
  | S i' =>
      fix row (j : nat) : nat :=
        match j with
        | O => S i'
        | S j' =>
            Nat.min
              (Nat.min (lev a b i' (S j') + 1) (row j' + 1))
              (lev a b i' j' +
               (if bool_decide (String.get i' a = String.get j' b)
                then 0 else 1))
        end
  end.

Arguments lev a b i j : simpl never.

Definition editDistance (a b : string) : nat :=
  lev a b (String.length a) (String.length b).

(** Edit scripts from one text to another, with their number of
    single-character insertions, deletions and substitutions. *)
Inductive EditScript : list ascii -> list ascii -> nat -> Prop :=
  | Edit_done : EditScript [] [] 0
  | Edit_keep x s t n :
      EditScript s t n -> EditScript (x :: s) (x :: t) n
  | Edit_substitute x y s t n :
      EditScript s t n -> EditScript (x :: s) (y :: t) (S n)
  | Edit_delete x s t n :
      EditScript s t n -> EditScript (x :: s) t (S n)
  | Edit_insert y s t n :
      EditScript s t n -> EditScript s (y :: t) (S n).

(** The recurrence on whole lists, from the front. *)
Fixpoint levList (s : list ascii) : list ascii -> nat :=
  match s with
  | [] => fun t => length t
  | x :: s' =>
      fix inner (t : list ascii) : nat :=
        match t with
        | [] => S (length s')
        | y :: t' =>
            Nat.min
              (Nat.min (levList s' (y :: t') + 1) (inner t' + 1))
              (levList s' t' + (if bool_decide (x = y) then 0 else 1))
        end
  end.

Arguments levList s t : simpl never.

(** The formula of the specification, on exact rationals. *)
Definition similarityFormula (a b : string) : Q :=
  let m := Nat.max (String.length a) (String.length b) in
  (inject_Z (Z.of_nat m - Z.of_nat (editDistance a b)) / inject_Z (Z.of_nat m))%Q.

(** ** Content cache and file access *)

(** What the analyzer takes from its host: [path.join], the
    typescript-estree parser and the syntax trees it produces. The walk of
    [extractFunctions] goes over every property of the untyped tree and
    writes [parent] back-references into its nodes; it is kept as an
    operation on the host's trees, giving the functions collected (or [None]
    when the walk throws) and the tree as the walk leaves it. *)
Record FunctionInfo := {
  fn_name : string;
  fn_body : string;
  fn_lines : nat
}.

Class Host := {
  AST : Type;
  path_join : string -> string -> string;
  parse : string -> bool -> option AST;
  extractFunctions : AST -> string -> option (list FunctionInfo) * AST
}.

(** The file system seen by [readFile(p, "utf8")]: [None] when the read
    fails. *)
Definition FileSystem := string -> option string.

(** The module-level caches. *)
Record Cache `{Host} := {
  fileCache : gmap string string;
  astCache : gmap string AST
}.

Definition emptyCache `{Host} : Cache :=
  {| fileCache := ∅; astCache := ∅ |}.

(** [clearAnalysisCache()] *)
Definition clearAnalysisCache `{Host} (c : Cache) : Cache := emptyCache.

(** Computations on the cache. *)
Definition M `{Host} (A : Type) : Type := Cache -> A * Cache.

Definition ret `{Host} {A} (a : A) : M A := fun c => (a, c).

Definition bind `{Host} {A B} (m : M A) (k : A -> M B) : M B :=
  fun c => let '(a, c') := m c in k a c'.

#[global] Instance M_ret `{Host} : MRet M := @ret _.
#[global] Instance M_bind `{Host} : MBind M := fun A B k m => bind m k.

Fixpoint mapM `{Host} {A B} (f : A -> M B) (l : list A) : M (list B) :=
  match l with
  | [] => mret []
  | a :: l' => b ← f a; bs ← mapM f l'; mret (b :: bs)
  end.

(** [getCachedFileContent]: an empty cached text is falsy and read again. *)
Definition getCachedFileContent `{Host} (fs : FileSystem) (filePath : string)
    : M string := fun c =>
  match fileCache c !! filePath with
  | Some (String a s) => (String a s, c)
  | _ =>
      match fs filePath with
      | Some content =>
          (content,
           {| fileCache := <[filePath := content]> (fileCache c);
              astCache := astCache c |})
      | None => (EmptyString, c)
      end
  end.

(** ** Duplication detector *)

Definition newline : string := String "010" EmptyString.

Definition hashStep (hash : Z) (c : ascii) : Z :=
  let char := Z.of_nat (nat_of_ascii c) in
  let hash := (JS.toInt32 (hash * 32) - hash + char)%Z in
  JS.toInt32 hash.

Definition hashCode (str : string) : Z :=
  fold_left hashStep (list_ascii_of_string str) 0%Z.

Definition minLines : nat := 10.
Definition minSimilarity : Q := 85 # 100.
Definition maxComparisons : Z := 100000.
Definition sizeTolerance : Q := 5 # 10.

Record ContentEntry := {
  ce_component : ComponentInfo;
  ce_content : string;
  ce_lines : list string;
  ce_hash : Z
}.

Definition isLargeComponent (c : ComponentInfo) : bool :=
  (Z.of_nat minLines <=? linesOfCode c)%Z &&
  negb (JS.includes (path c) ".test.") &&
  negb (JS.includes (path c) ".spec.").

Definition readEntry `{Host} (fs : FileSystem) (repoPath : string)
    (c : ComponentInfo) : M ContentEntry :=
  let fullPath := path_join repoPath (path c) in
  content ← getCachedFileContent fs fullPath;
  mret {| ce_component := c;
         ce_content := content;
         ce_lines := JS.split "010" content;
         ce_hash := hashCode content |}.

Definition duplicationSuggestion : string :=
  "Envisager d'extraire le code commun dans un composant ou utilitaire partagé".

(** A loop body either goes on with a new state or returns from the
    function. *)
Inductive Flow (S R : Type) :=
  | Continue (s : S)
  | Return (r : R).
Arguments Continue {S R} s.
Arguments Return {S R} r.

Definition DupState : Type := Z * list DuplicationInstance.

(** The body of the inner loop for the pair [(a, b)]. *)
Definition comparePair (a b : ContentEntry) (st : DupState)
    : Flow DupState (list DuplicationInstance) :=
  let '(comparisons, instances) := st in
  let comparisons := (comparisons + 1)%Z in
  if (maxComparisons <=? comparisons)%Z then Return instances
  else if (length (ce_lines a) <? minLines)%nat ||
          (length (ce_lines b) <? minLines)%nat
  then Continue (comparisons, instances)
  else
    let sizeRatio :=
      (inject_Z (Z.of_nat (Nat.min (length (ce_lines a)) (length (ce_lines b))))
       / inject_Z (Z.of_nat (Nat.max (length (ce_lines a)) (length (ce_lines b)))))%Q in
    if negb (Qle_bool sizeTolerance sizeRatio)
    then Continue (comparisons, instances)
    else if (100000 <? Z.abs (ce_hash a - ce_hash b))%Z
    then Continue (comparisons, instances)
    else
      match similarity (ce_content a) (ce_content b) with
      | Some sim =>
          if Qle_bool minSimilarity sim then
            let snippet :=
              JS.join newline (take 5 (ce_lines a)) +:+ newline +:+ "..." in
            Continue
              (comparisons,
               instances ++
               [{| files := [path (ce_component a); path (ce_component b)];
                   lines := Nat.min (length (ce_lines a)) (length (ce_lines b));
                   similarityOf := sim;
                   snippet := snippet;
                   suggestion := duplicationSuggestion |}])
          else Continue (comparisons, instances)
      | None => Continue (comparisons, instances)
      end.

(** [for (j = i + 1; ...)]: [a] against every later entry. *)
Fixpoint compareWithRest (a : ContentEntry) (rest : list ContentEntry)
    (st : DupState) : Flow DupState (list DuplicationInstance) :=
  match rest with
  | [] => Continue st
  | b :: rest' =>
      match comparePair a b st with
      | Continue st' => compareWithRest a rest' st'
      | Return r => Return r
      end
  end.

(** [for (i = 0; ...)] *)
Fixpoint compareAll (entries : list ContentEntry) (st : DupState)
    : Flow DupState (list DuplicationInstance) :=
  match entries with
  | [] => Continue st
  | a :: rest =>
      match compareWithRest a rest st with
      | Continue st' => compareAll rest st'
      | Return r => Return r
      end
  end.

Definition detectDuplication `{Host} (fs : FileSystem)
    (components : list ComponentInfo) (repoPath : string)
    : M (list DuplicationInstance) :=
  let largeComponents := List.filter isLargeComponent components in
  componentContents ← mapM (readEntry fs repoPath) largeComponents;
  mret (match compareAll componentContents (0%Z, []) with
       | Continue (_, instances) => instances
       | Return instances => instances
       end).

(** ** Complexity analyzer *)

Definition cyclomaticPatterns : list JS.Matcher :=
  [ JS.wordMatcher "if";
    JS.elseIfMatcher;
    JS.wordMatcher "for";
    JS.wordMatcher "while";
    JS.wordMatcher "case";
    JS.wordMatcher "catch";
    JS.literalMatcher "&&";
    JS.literalMatcher "||";
    JS.literalMatcher "?" ].

Definition calculateCyclomaticComplexity (code : string) : nat :=
  fold_left (fun complexity pattern => (complexity + JS.countMatches pattern code)%nat)
    cyclomaticPatterns 1%nat.

(** [/\b(if|for|while|switch|catch)\b/] *)
Definition controlKeyword : JS.Matcher :=
  JS.altMatcher
    [ JS.wordMatcher "if"; JS.wordMatcher "for"; JS.wordMatcher "while";
      JS.wordMatcher "switch"; JS.wordMatcher "catch" ].

(** [/(\&\&|\|\|)/g] *)
Definition logicalOperator : JS.Matcher :=
  JS.altMatcher [ JS.literalMatcher "&&"; JS.literalMatcher "||" ].

(** The loop body of [calculateCognitiveComplexity] on the state
    [(complexity, nestingLevel)]. *)
Definition cognitiveStep (st : nat * nat) (line : string) : nat * nat :=
  let '(complexity, nestingLevel) := st in
  let nestingLevel :=
    if JS.includes line "{" then S nestingLevel else nestingLevel in
  let nestingLevel :=
    if JS.includes line "}" then Nat.max 0 (nestingLevel - 1) else nestingLevel in
  let complexity :=
    if JS.test controlKeyword line then (complexity + (1 + nestingLevel))%nat
    else complexity in
  let logicalOps := JS.countMatches logicalOperator line in
  ((complexity + logicalOps)%nat, nestingLevel).

Definition calculateCognitiveComplexity (code : string) : nat :=
  let lines := JS.split "010" code in
  fst (fold_left cognitiveStep lines (0%nat, 0%nat)).

Definition complexityScoreOf (cyclomatic cognitive : nat) : ComplexityScore :=
  if (20 <? cyclomatic)%nat || (15 <? cognitive)%nat then veryComplex
  else if (10 <? cyclomatic)%nat || (7 <? cognitive)%nat then complex
  else if (5 <? cyclomatic)%nat || (3 <? cognitive)%nat then moderateComplexity
  else simple.

Definition metricOfFunction (c : ComponentInfo) (func : FunctionInfo)
    : ComplexityMetric :=
  let cyclomatic := calculateCyclomaticComplexity (fn_body func) in
  let cognitive := calculateCognitiveComplexity (fn_body func) in
  {| file := path c;
     functionName := fn_name func;
     cyclomaticComplexity := cyclomatic;
     cognitiveComplexity := cognitive;
     fm_linesOfCode := fn_lines func;
     fm_score := complexityScoreOf cyclomatic cognitive |}.

(** The cached tree is the object the walk writes to: what the walk leaves
    is what the cache holds afterwards. *)
Definition setAst `{Host} (fullPath : string) (ast : AST) (c : Cache) : Cache :=
  {| fileCache := fileCache c; astCache := <[fullPath := ast]> (astCache c) |}.

Definition analyzeComponentComplexity `{Host} (fs : FileSystem)
    (c : ComponentInfo) (repoPath : string) : M (list ComplexityMetric) :=
  let fullPath := path_join repoPath (path c) in
  content ← getCachedFileContent fs fullPath;
  match content with
  | EmptyString => mret []
  | _ =>
      fun cache =>
        let parsed :=
          match astCache cache !! fullPath with
          | Some ast => Some ast
          | None => parse content (JS.endsWith (path c) "x")
          end in
        match parsed with
        | None => ([], cache)
        | Some ast =>
            let '(functions, ast') := extractFunctions ast content in
            let cache' := setAst fullPath ast' cache in
            match functions with
            | None => ([], cache')
            | Some functions => (List.map (metricOfFunction c) functions, cache')
            end
        end
  end.

Definition batchSize : nat := 20.

(** The batches of [calculateComplexity]: [n] bounds their number. *)
Fixpoint batches (n : nat) (components : list ComponentInfo)
    : list (list ComponentInfo) :=
  match n, components with
  | S n', _ :: _ => take batchSize components :: batches n' (drop batchSize components)
  | _, _ => []
  end.

Definition calculateComplexity `{Host} (fs : FileSystem)
    (components : list ComponentInfo) (repoPath : string)
    : M (list ComplexityMetric) :=
  batchMetrics ←
    mapM (fun batch =>
            ms ← mapM (fun c => analyzeComponentComplexity fs c repoPath) batch;
            mret (concat ms))
         (batches (length components) components);
  mret (concat batchMetrics).

(** ** Cycle detector *)

Definition resolveDependency (components : list ComponentInfo) (dep : string)
    : option string :=
  path <$> List.find (fun c => JS.includes (path c) (JS.stripRelativePrefix dep))
             components.

Definition buildDependencyGraph (components : list ComponentInfo)
    : gmap string (list string) :=
  fold_left
    (fun graph c =>
       <[path c := omap (resolveDependency components) (dependencies c)]> graph)
    components ∅.

Definition sortCycle (c : CircularDependency) : CircularDependency :=
  {| cycle := JS.sort (cycle c); severity := severity c |}.

(** [cycles.some((c) => c.cycle.sort().join("->") === cycleKey)]: the
    callback sorts in place the stored cycle of every entry it visits. *)
Fixpoint someSameKey (cycleKey : string) (cycles : list CircularDependency)
    : bool * list CircularDependency :=
  match cycles with
  | [] => (false, [])
  | c :: rest =>
      let c' := sortCycle c in
      if String.eqb (JS.join "->" (cycle c')) cycleKey then (true, c' :: rest)
      else let '(found, rest') := someSameKey cycleKey rest in (found, c' :: rest')
  end.

Definition CycleState : Type := gset string * list CircularDependency.

(** The branch of [findCycles] taken when [node] is on [path]. The array
    [cycle] is sorted in place for the key, and it is that array which is
    pushed. *)
Definition recordCycle (node : string) (path : list string)
    (cycles : list CircularDependency) : list CircularDependency :=
  let cycleStart := JS.indexOf path node in
  let cycle := drop cycleStart path ++ [node] in
  let cycle := JS.sort cycle in
  let cycleKey := JS.join "->" cycle in
  let '(found, cycles) := someSameKey cycleKey cycles in
  if found then cycles
  else cycles ++
       [{| cycle := cycle;
           severity := if (length cycle <=? 3)%nat then error else warning |}].

(** [findCycles]; [fuel] bounds the depth of the recursion and [None] is
    returned when it runs out. *)
Fixpoint findCycles (fuel : nat) (graph : gmap string (list string))
    (node : string) (path : list string) (st : CycleState)
    : option CycleState :=
  match fuel with
  | O => None
  | S fuel' =>
      let '(visited, cycles) := st in
      if bool_decide (node ∈ path) then Some (visited, recordCycle node path cycles)
      else if bool_decide (node ∈ visited) then Some st
      else
        let visited := {[node]} ∪ visited in
        let neighbors := default [] (graph !! node) in
        fold_left
          (fun st neighbor =>
             st ← st; findCycles fuel' graph neighbor (path ++ [node]) st)
          neighbors (Some (visited, cycles))
  end.

Definition detectCircularDependencies (components : list ComponentInfo)
    : option (list CircularDependency) :=
  let graph := buildDependencyGraph components in
  fold_left
    (fun cycles c =>
       cycles ← cycles;
       snd <$> findCycles (S (length components)) graph (path c) [] (∅, cycles))
    components (Some []).

(** ** Health scorer *)

Record HealthInput := {
  hi_coupling : list CouplingMetric;
  hi_duplication : list DuplicationInstance;
  hi_complexity : list ComplexityMetric;
  hi_circularDependencies : list CircularDependency
}.

Definition isHigh (c : CouplingMetric) : bool :=
  match cm_score c with high => true | _ => false end.

Definition isVeryComplex (c : ComplexityMetric) : bool :=
  match fm_score c with veryComplex => true | _ => false end.

Definition isComplex (c : ComplexityMetric) : bool :=
  match fm_score c with complex => true | _ => false end.

Definition calculateHealthScore (metrics : HealthInput) : Z :=
  let score := 100%Z in
  let highCoupling := length (List.filter isHigh (hi_coupling metrics)) in
  let score := (score - Z.of_nat highCoupling * 3)%Z in
  let score := (score - Z.of_nat (length (hi_duplication metrics)) * 5)%Z in
  let veryComplex := length (List.filter isVeryComplex (hi_complexity metrics)) in
  let complex := length (List.filter isComplex (hi_complexity metrics)) in
  let score := (score - Z.of_nat veryComplex * 4)%Z in
  let score := (score - Z.of_nat complex * 2)%Z in
  let score :=
    (score - Z.of_nat (length (hi_circularDependencies metrics)) * 10)%Z in
  Z.max 0 (Z.min 100 score).

(** ** The analyzer *)

(** [analyzeArchitecture]; [now] is the timestamp [formatTimestamp()] gives.
    The result is [None] only if the cycle search ran out of fuel. *)
Definition analyzeArchitecture `{Host} (now : string) (fs : FileSystem)
    (components : list ComponentInfo) (repoPath : string)
    : M (option ArchitectureAnalysis) :=
  let coupling := calculateCoupling components in
  duplication ← detectDuplication fs components repoPath;
  complexity ← calculateComplexity fs components repoPath;
  mret (circularDependencies ← detectCircularDependencies components;
        let healthScore :=
          calculateHealthScore
            {| hi_coupling := coupling;
               hi_duplication := duplication;
               hi_complexity := complexity;
               hi_circularDependencies := circularDependencies |} in
        Some {| analyzedAt := now;
                coupling := coupling;
                duplication := duplication;
                complexity := complexity;
                circularDependencies := circularDependencies;
                healthScore := healthScore |}).

(** ** Reference definitions for the stated properties *)

(** Number of elements of [l] that satisfy [p]. *)
Fixpoint countIf {A : Type} (p : A -> bool) (l : list A) : nat :=
  match l with
  | [] => 0
  | x :: l' => if p x then S (countIf p l') else countIf p l'
  end.

Definition clamp (lo hi x : Z) : Z := Z.max lo (Z.min hi x).

(** The penalties of the health score, finding by finding. *)
Definition penalties (m : HealthInput) : Z :=
  (3 * Z.of_nat (countIf isHigh (hi_coupling m))
   + 5 * Z.of_nat (length (hi_duplication m))
   + 4 * Z.of_nat (countIf isVeryComplex (hi_complexity m))
   + 2 * Z.of_nat (countIf isComplex (hi_complexity m))
   + 10 * Z.of_nat (length (hi_circularDependencies m)))%Z.


(** One more finding appended to an input. *)
Definition addCoupling (x : CouplingMetric) (m : HealthInput) : HealthInput :=
  {| hi_coupling := hi_coupling m ++ [x];
     hi_duplication := hi_duplication m;
     hi_complexity := hi_complexity m;
     hi_circularDependencies := hi_circularDependencies m |}.

Definition addDuplication (x : DuplicationInstance) (m : HealthInput)
    : HealthInput :=
  {| hi_coupling := hi_coupling m;
     hi_duplication := hi_duplication m ++ [x];
     hi_complexity := hi_complexity m;
     hi_circularDependencies := hi_circularDependencies m |}.

Definition addComplexity (x : ComplexityMetric) (m : HealthInput)
    : HealthInput :=
  {| hi_coupling := hi_coupling m;
     hi_duplication := hi_duplication m;
     hi_complexity := hi_complexity m ++ [x];
     hi_circularDependencies := hi_circularDependencies m |}.

Definition addCircular (x : CircularDependency) (m : HealthInput)
    : HealthInput :=
  {| hi_coupling := hi_coupling m;
     hi_duplication := hi_duplication m;
     hi_complexity := hi_complexity m;
     hi_circularDependencies := hi_circularDependencies m ++ [x] |}.

(** [sub] occurs in [s]. *)
Definition occursIn (sub s : string) : Prop :=
  exists pre post, s = pre +:+ sub +:+ post.

(** A component one of whose dependency specifiers contains [nm]. *)
Definition refersTo (nm : string) (c : ComponentInfo) : Prop :=
  exists dep, In dep (dependencies c) /\ occursIn nm dep.

(** A specifier that starts with the relative marker. *)
Definition relativeSpecifier (dep : string) : Prop :=
  exists r, dep = String "." r.

(** [Counts P l n]: exactly [n] elements of [l] satisfy [P]. *)
Inductive Counts {A : Type} (P : A -> Prop) : list A -> nat -> Prop :=
  | Counts_nil : Counts P [] 0
  | Counts_yes x l n : P x -> Counts P l n -> Counts P (x :: l) (S n)
  | Counts_no x l n : ~ P x -> Counts P l n -> Counts P (x :: l) n.

(** The components of a catalog with their positions. *)
Definition indexed {A : Type} (l : list A) : list (nat * A) :=
  combine (seq 0 (length l)) l.

(** The coupling property as stated: afferent coupling counts the
    components other than the one measured. *)
Definition couplingClaim (components : list ComponentInfo) : Prop :=
  forall k c m,
    components !! k = Some c ->
    calculateCoupling components !! k = Some m ->
    Counts (fun jc => fst jc <> k /\ refersTo (name c) (snd jc))
      (indexed components) (afferentCoupling m)
    /\ Counts relativeSpecifier (dependencies c) (efferentCoupling m).

(** The text before a word boundary: empty, or ending with a character that
    is not a word character. *)
Definition endsAtBoundary (pre : string) : Prop :=
  pre = EmptyString \/
  exists p c, pre = p +:+ String c EmptyString /\ JS.isWordChar c = false.

(** The text after a word boundary. *)
Definition startsAtBoundary (post : string) : Prop :=
  post = EmptyString \/
  exists c r, post = String c r /\ JS.isWordChar c = false.

(** [kw] stands in [line] as a whole word. *)
Definition keywordAt (kw line : string) : Prop :=
  exists pre post,
    line = pre +:+ kw +:+ post /\ endsAtBoundary pre /\ startsAtBoundary post.

Definition controlKeywords : list string :=
  ["if"; "for"; "while"; "switch"; "catch"].

Definition hasControlKeyword (line : string) : Prop :=
  exists kw, In kw controlKeywords /\ keywordAt kw line.

(** The nesting depth after a line, from the depth before it: one up when
    the line contains an opening brace, then one down (not below 0) when it
    contains a closing brace. *)
Inductive NestingAfter (d : nat) (line : string) : nat -> Prop :=
  | Nesting_both :
      occursIn "{" line -> occursIn "}" line -> NestingAfter d line d
  | Nesting_open :
      occursIn "{" line -> ~ occursIn "}" line -> NestingAfter d line (S d)
  | Nesting_close :
      ~ occursIn "{" line -> occursIn "}" line -> NestingAfter d line (d - 1)
  | Nesting_none :
      ~ occursIn "{" line -> ~ occursIn "}" line -> NestingAfter d line d.

(** What a control keyword adds on a line whose nesting depth is [d]. *)
Inductive KeywordCost (d : nat) (line : string) : nat -> Prop :=
  | Keyword_yes : hasControlKeyword line -> KeywordCost d line (1 + d)
  | Keyword_no : ~ hasControlKeyword line -> KeywordCost d line 0.

(** The logical operators of a line, read from the left: two ampersands or
    two bars make one operator, and the next one starts after them. *)
Fixpoint logicalOccurrences (s : string) : nat :=
  match s with
  | String a ((String b r) as s') =>
      if (Ascii.eqb a "&" && Ascii.eqb b "&") || (Ascii.eqb a "|" && Ascii.eqb b "|")
      then S (logicalOccurrences r)
      else logicalOccurrences s'
  | _ => 0
  end.

(** [CognitiveScan d ls n]: scanning the lines [ls] from nesting depth [d]
    adds up to [n]. *)
Inductive CognitiveScan : nat -> list string -> nat -> Prop :=
  | Scan_done d : CognitiveScan d [] 0
  | Scan_line d d' line ls k n :
      NestingAfter d line d' ->
      KeywordCost d' line k ->
      CognitiveScan d' ls n ->
      CognitiveScan d (line :: ls) (k + logicalOccurrences line + n).

(** The scan as stated: the depth moves once for every brace. *)
Fixpoint braceDepth (d : nat) (s : string) : nat :=
  match s with
  | EmptyString => d
  | String c s' =>
      if Ascii.eqb c "{" then braceDepth (S d) s'
      else if Ascii.eqb c "}" then braceDepth (Nat.max 0 (d - 1)) s'
      else braceDepth d s'
  end.

Definition statedCognitiveStep (st : nat * nat) (line : string) : nat * nat :=
  let '(complexity, depth) := st in
  let depth := braceDepth depth line in
  let complexity :=
    if JS.test controlKeyword line then (complexity + (1 + depth))%nat
    else complexity in
  ((complexity + JS.countMatches logicalOperator line)%nat, depth).

Definition statedCognitiveComplexity (code : string) : nat :=
  fst (fold_left statedCognitiveStep (JS.split "010" code) (0%nat, 0%nat)).

Definition cognitiveClaim (code : string) : Prop :=
  calculateCognitiveComplexity code = statedCognitiveComplexity code.

(** The character before the position reached after [pre], [prev] being the
    character before [pre]. *)
Fixpoint lastOr (prev : option ascii) (pre : string) : option ascii :=
  match pre with
  | EmptyString => prev
  | String c p => lastOr (Some c) p
  end.

(** Loop invariants of [levenshtein]. Inside row [S i'], before column [j]:
    the slots below [pred j] hold the new row, the others the previous row,
    and [lastValue] is the new row at [pred j]. *)
Definition stepInvariant (s1 s2 : string) (i' j : nat)
    (st : option (list (option nat) * nat)) : Prop :=
  exists costs last,
    st = Some (costs, last)
    /\ length costs = S (String.length s2)
    /\ last = lev s1 s2 (S i') (pred j)
    /\ forall k, (k <= String.length s2)%nat ->
         costs !! k =
           Some (Some (if (k <? pred j)%nat then lev s1 s2 (S i') k
                       else lev s1 s2 i' k)).

(** Before row [i]: [costs] is empty at first, then holds row [i - 1]. *)
Definition rowInvariant (s1 s2 : string) (i : nat)
    (st : option (list (option nat))) : Prop :=
  match i with
  | O => st = Some []
  | S i' =>
      exists costs,
        st = Some costs
        /\ length costs = S (String.length s2)
        /\ forall k, (k <= String.length s2)%nat ->
             costs !! k = Some (Some (lev s1 s2 i' k))
  end.

(** The cache agrees with the file system: every non-empty cached text is
    the text of its file. *)
Definition coherent `{Host} (fs : FileSystem) (c : Cache) : Prop :=
  forall p a s,
    fileCache c !! p = Some (String a s) -> fs p = Some (String a s).

(** What a read of [p] gives when the cache agrees with the file system. *)
Definition contentOf (fs : FileSystem) (p : string) : string :=
  default EmptyString (fs p).

Definition entryOf `{Host} (fs : FileSystem) (repoPath : string)
    (c : ComponentInfo) : ContentEntry :=
  let content := contentOf fs (path_join repoPath (path c)) in
  {| ce_component := c;
     ce_content := content;
     ce_lines := JS.split "010" content;
     ce_hash := hashCode content |}.

Definition entryKey (e : ContentEntry) : string := path (ce_component e).

(** The instances the inner loop body pushes for a pair: none or one. *)
Definition pairInstances (a b : ContentEntry) : list DuplicationInstance :=
  match comparePair a b (0%Z, []) with
  | Continue (_, instances) => instances
  | Return _ => []
  end.

(** The pairs of a list in the order the two loops visit them. *)
Fixpoint allPairs {A : Type} (l : list A) : list (A * A) :=
  match l with
  | [] => []
  | a :: rest => List.map (pair a) rest ++ allPairs rest
  end.

(** The pairs whose first element is in [l1], [l1] being followed by
    [rest]. *)
Fixpoint pairsFrom {A : Type} (l1 rest : list A) : list (A * A) :=
  match l1 with
  | [] => []
  | a :: l1' => List.map (pair a) (l1' ++ rest) ++ pairsFrom l1' rest
  end.

(** The two loops as one scan of the list of pairs. *)
Fixpoint scanPairs (ps : list (ContentEntry * ContentEntry)) (st : DupState)
    : Flow DupState (list DuplicationInstance) :=
  match ps with
  | [] => Continue st
  | (a, b) :: ps' =>
      match comparePair a b st with
      | Continue st' => scanPairs ps' st'
      | Return r => Return r
      end
  end.

Definition flowInstances (r : Flow DupState (list DuplicationInstance))
    : list DuplicationInstance :=
  match r with
  | Continue (_, instances) => instances
  | Return instances => instances
  end.

(** Number of comparisons made before the pair [(a, b)] is reached, in a
    list of candidates [l1 ++ a :: l2 ++ b :: l3]. *)
Definition comparisonsBefore {A : Type} (l1 l2 l3 : list A) (a b : A) : nat :=
  length (pairsFrom l1 (a :: l2 ++ b :: l3)) + length l2.

(** An instance reported for the unordered pair of paths. *)
Definition forPair (pa pb : string) (d : DuplicationInstance) : Prop :=
  files d = [pa; pb] \/ files d = [pb; pa].

(** Two components of the catalog with character-identical files of at
    least ten lines, both candidates of the detector. *)
Definition identicalPair `{Host} (fs : FileSystem) (repoPath : string)
    (a b : ComponentInfo) (x : string) : Prop :=
  isLargeComponent a = true
  /\ isLargeComponent b = true
  /\ fs (path_join repoPath (path a)) = Some x
  /\ fs (path_join repoPath (path b)) = Some x
  /\ (minLines <= length (JS.split "010" x))%nat.

(** Exactly one instance is reported for the pair, with similarity 1. *)
Definition reportsPairOnce (pa pb : string) (out : list DuplicationInstance)
    : Prop :=
  Counts (forPair pa pb) out 1
  /\ forall d, In d out -> forPair pa pb d -> (similarityOf d == 1)%Q.

(** The duplication property as stated, for the catalog [components]
    analysed from [cache]. *)
Definition duplicationClaim `{Host} (fs : FileSystem) (repoPath : string)
    (cache : Cache) (components : list ComponentInfo) : Prop :=
  forall c1 a c2 b c3 x,
    components = c1 ++ a :: c2 ++ b :: c3 ->
    identicalPair fs repoPath a b x ->
    reportsPairOnce (path a) (path b)
      (fst (detectDuplication fs components repoPath cache)).

(** [u -> v] is an edge of the dependency graph. *)
Definition isEdge (graph : gmap string (list string)) (u v : string) : Prop :=
  exists l, graph !! u = Some l /\ In v l.

(** Consecutive entries are edges. *)
Fixpoint consecutiveEdges (graph : gmap string (list string))
    (l : list string) : Prop :=
  match l with
  | u :: ((v :: _) as rest) => isEdge graph u v /\ consecutiveEdges graph rest
  | _ => True
  end.

(** A closed walk: consecutive entries are edges and the first entry
    reappears as the last one. *)
Definition closedWalk (graph : gmap string (list string)) (l : list string)
    : Prop :=
  consecutiveEdges graph l
  /\ (2 <= length l)%nat
  /\ exists x, head l = Some x /\ last l = Some x.

(** An entry that lists the nodes of a closed walk, in some order. *)
Definition walkEntry (graph : gmap string (list string))
    (cd : CircularDependency) : Prop :=
  exists walk, closedWalk graph walk /\ Permutation (cycle cd) walk.

(** The closed-walk property as stated. *)
Definition cycleWalkClaim (components : list ComponentInfo) : Prop :=
  forall out cd,
    detectCircularDependencies components = Some out ->
    In cd out ->
    closedWalk (buildDependencyGraph components) (cycle cd).

(** The graph holds the cycle [A -> B -> C -> A] on three distinct nodes. *)
Definition hasThreeCycle (graph : gmap string (list string)) (A B C : string)
    : Prop :=
  A <> B /\ B <> C /\ C <> A
  /\ isEdge graph A B /\ isEdge graph B C /\ isEdge graph C A.

(** An entry whose members are exactly [A], [B] and [C]. *)
Definition cycleOf (A B C : string) (cd : CircularDependency) : Prop :=
  forall x, In x (cycle cd) <-> In x [A; B; C].

(** The three-node property as stated: reported once, as an error. *)
Definition threeCycleClaim (components : list ComponentInfo) (A B C : string)
    : Prop :=
  hasThreeCycle (buildDependencyGraph components) A B C ->
  exists out,
    detectCircularDependencies components = Some out
    /\ Counts (cycleOf A B C) out 1
    /\ forall cd, In cd out -> cycleOf A B C cd -> severity cd = error.

(** The severity rule of the detector. *)
Definition severityByLength (cd : CircularDependency) : Prop :=
  severity cd = if (length (cycle cd) <=? 3)%nat then error else warning.

(** An entry for the three-node cycle as the detector reports it. *)
Definition triangleEntry (A B C : string) (cd : CircularDependency) : Prop :=
  cycleOf A B C cd /\ length (cycle cd) = 4%nat /\ severity cd = warning.

(** Every non-empty cached text and every cached tree slot of [c] is still
    in [c']. *)
Definition persists `{Host} (c c' : Cache) : Prop :=
  (forall p a s,
     fileCache c !! p = Some (String a s) ->
     fileCache c' !! p = Some (String a s))
  /\ (forall p, is_Some (astCache c !! p) -> is_Some (astCache c' !! p)).

(** The cache property as stated: a run leaves nothing in the cache, and the
    next run reports what it would report from an empty cache. *)
Definition cacheLifecycleClaim `{Host} : Prop :=
  forall (now : string) (fs1 fs2 : FileSystem)
         (components : list ComponentInfo) (repoPath : string),
    let after := snd (analyzeArchitecture now fs1 components repoPath emptyCache) in
    after = emptyCache
    /\ fst (analyzeArchitecture now fs2 components repoPath after)
       = fst (analyzeArchitecture now fs2 components repoPath emptyCache).

(** The read of [p] is attempted and fails: no non-empty text is cached for
    [p] and the file cannot be read. *)
Definition readFails `{Host} (fs : FileSystem) (c : Cache) (p : string) : Prop :=
  fs p = None /\ forall a s, fileCache c !! p <> Some (String a s).

(** The entries read for [p] are empty. *)
Definition emptyAt `{Host} (repoPath p : string) (e : ContentEntry) : Prop :=
  ce_lines e = JS.split "010" (ce_content e)
  /\ (path_join repoPath (path (ce_component e)) = p ->
      ce_content e = EmptyString).

(** Membership in explicit lists and sets of distinct names. *)
Ltac membership :=
  rewrite ?elem_of_app, ?elem_of_cons, ?elem_of_nil,
          ?elem_of_union, ?elem_of_singleton, ?elem_of_empty;
  intuition congruence.

(** ** Sample inputs *)

Definition mkComponent (n p : string) (deps : list string) (loc : Z)
    : ComponentInfo :=
  {| name := n; path := p; type := component; imports := deps;
     exports := []; dependencies := deps; linesOfCode := loc |}.


Definition selfCatalog : list ComponentInfo :=
  [ mkComponent "Button" "components/Button/index.tsx" ["./Button.styles"] 40 ].

Definition smallCatalog : list ComponentInfo :=
  [ mkComponent "P" "pages/P.tsx" ["./Q"; "./R"; "react"] 30;
    mkComponent "Q" "pages/Q.tsx" [] 12;
    mkComponent "R" "pages/R.tsx" ["./Q"] 15 ].

Definition twoBraces : string := "{{" +:+ newline +:+ "if".

Definition nestedBody : string :=
  "function f(a, b) {" +:+ newline +:+
  "  if (a && b) {" +:+ newline +:+
  "    for (;;) { while (a || b) {} }" +:+ newline +:+
  "  }" +:+ newline +:+
  "}".

#[global] Instance sampleHost : Host :=
  {| AST := unit;
     path_join := fun root p => root +:+ "/" +:+ p;
     parse := fun _ _ => Some tt;
     extractFunctions := fun ast _ => (Some [], ast) |}.

Definition tenLines : string :=
  "// shared" +:+ String.concat "" (replicate 9 newline).

(** A catalog of [n] components [f0.ts] ... followed by [a.ts] and [b.ts]. *)
Definition fillerComponent (k : nat) : ComponentInfo :=
  mkComponent ("f" +:+ pretty.pretty k) ("f" +:+ pretty.pretty k +:+ ".ts") [] 10.

Definition largeCatalog (n : nat) : list ComponentInfo :=
  List.map fillerComponent (seq 0 n) ++
  [ mkComponent "a" "a.ts" [] 10; mkComponent "b" "b.ts" [] 10 ].

(** Every file of the catalog holds the same ten lines, except that the
    filler files start with their own name. *)
Definition largeFs (n : nat) : FileSystem := fun p =>
  if String.eqb p "repo/a.ts" || String.eqb p "repo/b.ts" then Some tenLines
  else
    List.find (fun _ => true)
      (List.map (fun k => "// f" +:+ pretty.pretty k +:+ tenLines)
         (List.filter
            (fun k => String.eqb p ("repo/f" +:+ pretty.pretty k +:+ ".ts"))
            (seq 0 n))).

Definition threeCycleCatalog : list ComponentInfo :=
  [ mkComponent "a" "a.ts" ["./b"] 20;
    mkComponent "b" "b.ts" ["./c"] 20;
    mkComponent "c" "c.ts" ["./a"] 20 ].

Definition twoCycleCatalog : list ComponentInfo :=
  [ mkComponent "a" "a.ts" ["./b"] 20;
    mkComponent "b" "b.ts" ["./a"] 20 ].

(** A file system without any readable file. *)
Definition noFiles : FileSystem := fun _ => None.

Definition pairCatalog : list ComponentInfo := largeCatalog 0.

Definition ghostComponent : ComponentInfo :=
  mkComponent "ghost" "ghost.ts" [] 25.

(** ** Reference definitions for further properties *)

(** The polynomial string hash in base 31, on unbounded integers. *)
Definition polynomialHash (str : string) : Z :=
  fold_left (fun h c => (31 * h + Z.of_nat (nat_of_ascii c))%Z)
    (list_ascii_of_string str) 0%Z.

(** A list of names in the order of the default comparator of [sort]: each
    entry is at most the next one. *)
Fixpoint inOrder (l : list string) : Prop :=
  match l with
  | a :: ((b :: _) as rest) => String.leb a b = true /\ inOrder rest
  | _ => True
  end.

(** The complexity metrics of the components taken one at a time, in catalog
    order. *)
Fixpoint complexityOneByOne `{Host} (fs : FileSystem) (repoPath : string)
    (components : list ComponentInfo) : M (list ComplexityMetric) :=
  match components with
  | [] => mret []
  | x :: rest =>
      ms ← analyzeComponentComplexity fs x repoPath;
      more ← complexityOneByOne fs repoPath rest;
      mret (ms ++ more)
  end.

(** ** Naming utilities (utils/index.ts) *)

Definition isLowerChar (c : ascii) : bool :=
  let n := nat_of_ascii c in ((97 <=? n) && (n <=? 122))%nat.

Definition isUpperChar (c : ascii) : bool :=
  let n := nat_of_ascii c in ((65 <=? n) && (n <=? 90))%nat.

Definition isDigitChar (c : ascii) : bool :=
  let n := nat_of_ascii c in ((48 <=? n) && (n <=? 57))%nat.

(** [/^[a-z][a-z0-9_]*$/.test(str)] *)
Definition isSnakeCase (str : string) : bool :=
  match str with
  | EmptyString => false
  | String c rest =>
      isLowerChar c &&
      forallb (fun c => isLowerChar c || isDigitChar c || Ascii.eqb c "_")
        (list_ascii_of_string rest)
  end.

(** The class [[À-ÖØ-öø-ÿ]]: code units 192 to 255 except 215 and 247. *)
Definition isAccentedChar (c : ascii) : bool :=
  let n := nat_of_ascii c in
  ((192 <=? n) && (n <=? 214) || (216 <=? n) && (n <=? 246) ||
   (248 <=? n) && (n <=? 255))%nat.

(** [/[À-ÖØ-öø-ÿ]/u.test(str)] *)
Definition hasAccents (str : string) : bool :=
  existsb isAccentedChar (list_ascii_of_string str).

(** Unicode normalisation is the host's:
    [str.normalize("NFD").replace(/\p{Diacritic}/gu, "")]. *)
Class Unicode := {
  withoutAccents : string -> string
}.

(** [s.replace(/-/g, "_")] *)
Fixpoint replaceHyphens (s : string) : string :=
  match s with
  | EmptyString => EmptyString
  | String c s' =>
      String (if Ascii.eqb c "-" then "_"%char else c) (replaceHyphens s')
  end.

(** [s.replace(/\s+/g, "_")]: every maximal run of white space becomes one
    underscore. [inRun] tells that the character before was white space. *)
Fixpoint replaceSpaceRuns (inRun : bool) (s : string) : string :=
  match s with
  | EmptyString => EmptyString
  | String c s' =>
      if JS.isSpaceChar c then
        if inRun then replaceSpaceRuns true s'
        else String "_" (replaceSpaceRuns true s')
      else String c (replaceSpaceRuns false s')
  end.

(** [s.replace(/([a-z])([A-Z])/g, "$1_$2")]: the scan goes on after the two
    characters of a match. *)
Fixpoint splitCamelCase (s : string) : string :=
  match s with
  | String a ((String b r) as s') =>
      if isLowerChar a && isUpperChar b
      then String a (String "_" (String b (splitCamelCase r)))
      else String a (splitCamelCase s')
  | _ => s
  end.

(** [toLowerCase] on one code unit: the letters A-Z and the Latin-1 capitals
    (192 to 222 except the multiplication sign 215) move up by 32. *)
Definition toLowerChar (c : ascii) : ascii :=
  let n := nat_of_ascii c in
  if ((65 <=? n) && (n <=? 90) ||
      (192 <=? n) && (n <=? 222) && negb (n =? 215))%nat
  then ascii_of_nat (n + 32) else c.

Fixpoint toLowerCase (s : string) : string :=
  match s with
  | EmptyString => EmptyString
  | String c s' => String (toLowerChar c) (toLowerCase s')
  end.

Definition toSnakeCase `{Unicode} (str : string) : string :=
  let withoutAccents := withoutAccents str in
  toLowerCase
    (splitCamelCase (replaceSpaceRuns false (replaceHyphens withoutAccents))).

(** ** Walks over parsed JSON (utils/index.ts) *)

(** A value [JSON.parse] returns. An object is the list of its entries in
    the order of [Object.entries]. *)
#[local] Unset Elimination Schemes.
Inductive Json :=
  | JNull
  | JBool (b : bool)
  | JNumber (n : Q)
  | JString (s : string)
  | JArray (items : list Json)
  | JObject (entries : list (string * Json)).
#[local] Set Elimination Schemes.

(** [`${basePath}[${i}]`] and [`${basePath}.${k}`] *)
Definition indexPath (basePath : string) (i : nat) : string :=
  basePath +:+ "[" +:+ pretty.pretty i +:+ "]".

Definition keyPath (basePath k : string) : string :=
  basePath +:+ "." +:+ k.

(** [a.forEach((v, i) => ...)] acting on a state, from index [i] on. *)
Definition forEachIndexed {A S : Type} (f : A -> nat -> S -> S)
    : list A -> nat -> S -> S :=
  fix go (vs : list A) (i : nat) (st : S) : S :=
    match vs with
    | [] => st
    | v :: vs' => go vs' (Datatypes.S i) (f v i st)
    end.

(** [for (let i = ...; i < a.length; i++) yield* ...]: what is yielded, in
    order. *)
Definition yieldIndexed {A B : Type} (f : A -> nat -> list B)
    : list A -> nat -> list B :=
  fix go (vs : list A) (i : nat) : list B :=
    match vs with
    | [] => []
    | v :: vs' => f v i ++ go vs' (Datatypes.S i)
    end.

(** [findByKey]: the accumulator [acc] is the array the calls push to. *)
Fixpoint findByKey (obj : Json) (targetKey basePath : string)
    (acc : list (string * Json)) : list (string * Json) :=
  match obj with
  | JArray items =>
      forEachIndexed
        (fun v i acc => findByKey v targetKey (indexPath basePath i) acc)
        items 0%nat acc
  | JObject entries =>
      fold_left
        (fun acc '(k, v) =>
           let p := keyPath basePath k in
           let acc := if String.eqb k targetKey then acc ++ [(p, v)] else acc in
           findByKey v targetKey p acc)
        entries acc
  | _ => acc
  end.

(** [walkNumbers]: the values the generator yields, in order. *)
Fixpoint walkNumbers (obj : Json) (basePath : string) : list (string * Q) :=
  match obj with
  | JArray items =>
      yieldIndexed (fun v i => walkNumbers v (indexPath basePath i)) items 0%nat
  | JObject entries =>
      flat_map
        (fun '(k, v) =>
           let p := keyPath basePath k in
           (match v with JNumber n => [(p, n)] | _ => [] end)
           ++ walkNumbers v p)
        entries
  | _ => []
  end.

(** [PropertyAt obj base p k v]: inside [obj], reached from [base] by the
    path [p], there is an object property named [k] whose value is [v]. *)
Inductive PropertyAt : Json -> string -> string -> string -> Json -> Prop :=
  | Property_here entries base k v :
      In (k, v) entries ->
      PropertyAt (JObject entries) base (keyPath base k) k v
  | Property_below entries base k v p k' v' :
      In (k, v) entries ->
      PropertyAt v (keyPath base k) p k' v' ->
      PropertyAt (JObject entries) base p k' v'
  | Property_item items base i v p k' v' :
      items !! i = Some v ->
      PropertyAt v (indexPath base i) p k' v' ->
      PropertyAt (JArray items) base p k' v'.

(** A host for texts that hold neither accented letters nor diacritic signs:
    normalisation leaves them as they are. *)
Definition plainUnicode : Unicode := {| withoutAccents := fun s => s |}.

(** ** The analyzer before its optimisation

    The earlier version of the duplication detector: every component is a
    candidate, files are read without the cache, there is no filter on
    sizes or hashes and no cap, and the threshold is 0.8. The earlier
    version of the complexity analyzer: one component after the other, each
    file read and parsed anew. *)

Module Baseline.

Record ContentEntry := {
  be_component : ComponentInfo;
  be_content : string;
  be_lines : list string
}.

Definition minSimilarity : Q := 8 # 10.

Definition readEntry `{Host} (fs : FileSystem) (repoPath : string)
    (c : ComponentInfo) : ContentEntry :=
  let fullPath := path_join repoPath (path c) in
  match fs fullPath with
  | Some content =>
      {| be_component := c;
         be_content := content;
         be_lines := JS.split "010" content |}
  | None => {| be_component := c; be_content := EmptyString; be_lines := [] |}
  end.

(** The body of the inner loop for the pair [(a, b)]. *)
Definition comparePair (a b : ContentEntry)
    (instances : list DuplicationInstance) : list DuplicationInstance :=
  if (length (be_lines a) <? minLines)%nat ||
     (length (be_lines b) <? minLines)%nat
  then instances
  else
    match similarity (be_content a) (be_content b) with
    | Some sim =>
        if Qle_bool minSimilarity sim then
          let snippet :=
            JS.join newline (take 5 (be_lines a)) +:+ newline +:+ "..." in
          instances ++
          [{| files := [path (be_component a); path (be_component b)];
              lines := Nat.min (length (be_lines a)) (length (be_lines b));
              similarityOf := sim;
              snippet := snippet;
              suggestion := duplicationSuggestion |}]
        else instances
    | None => instances
    end.

Fixpoint compareWithRest (a : ContentEntry) (rest : list ContentEntry)
    (instances : list DuplicationInstance) : list DuplicationInstance :=
  match rest with
  | [] => instances
  | b :: rest' => compareWithRest a rest' (comparePair a b instances)
  end.

Fixpoint compareAll (entries : list ContentEntry)
    (instances : list DuplicationInstance) : list DuplicationInstance :=
  match entries with
  | [] => instances
  | a :: rest => compareAll rest (compareWithRest a rest instances)
  end.

Definition detectDuplication `{Host} (fs : FileSystem)
    (components : list ComponentInfo) (repoPath : string)
    : list DuplicationInstance :=
  let componentContents := List.map (readEntry fs repoPath) components in
  compareAll componentContents [].

(** The body of the loop of [calculateComplexity] for one component: what
    it pushes to [metrics]. A failed read, a failed parse and a failed walk
    all end in the [catch]. *)
Definition analyzeComponent `{Host} (fs : FileSystem) (repoPath : string)
    (c : ComponentInfo) : list ComplexityMetric :=
  let fullPath := path_join repoPath (path c) in
  match fs fullPath with
  | None => []
  | Some content =>
      match parse content (JS.endsWith (path c) "x") with
      | None => []
      | Some ast =>
          match fst (extractFunctions ast content) with
          | None => []
          | Some functions => List.map (metricOfFunction c) functions
          end
      end
  end.

Definition calculateComplexity `{Host} (fs : FileSystem)
    (components : list ComponentInfo) (repoPath : string)
    : list ComplexityMetric :=
  fold_left
    (fun metrics c => metrics ++ analyzeComponent fs repoPath c)
    components [].

End Baseline.

(** A host whose parser keeps the text and whose walk finds one function,
    the whole file. *)
Definition wholeFileHost : Host :=
  {| AST := string;
     path_join := fun root p => root +:+ "/" +:+ p;
     parse := fun content _ => Some content;
     extractFunctions := fun ast content =>
       (Some [{| fn_name := "anonymous"; fn_body := content;
                 fn_lines := length (JS.split "010" content) |}], ast) |}.

(** The unreadable-file property as stated, whatever the cache holds: a
    component whose file cannot be read has its content taken as the empty
    string, gets no complexity metric, and is named by no duplication
    instance. *)
Definition unreadableFileClaim `{Host} : Prop :=
  forall (fs : FileSystem) (repoPath : string) (x : ComponentInfo)
         (c : Cache) (components : list ComponentInfo),
    fs (path_join repoPath (path x)) = None ->
    fst (getCachedFileContent fs (path_join repoPath (path x)) c) = EmptyString
    /\ fst (analyzeComponentComplexity fs x repoPath c) = []
    /\ forall d,
         In d (fst (detectDuplication fs components repoPath c)) ->
         ~ In (path x) (files d).


(** * Properties *)

(** ** Health scorer *)

Section HealthScore.

Lemma filter_length_countIf {A : Type} (p : A -> bool) (l : list A) :
  length (List.filter p l) = countIf p l.
Proof.
  induction l as [|x l IH]; simpl; [reflexivity|].
  destruct (p x); simpl; congruence.
Qed.

Lemma countIf_app {A : Type} (p : A -> bool) (l1 l2 : list A) :
  countIf p (l1 ++ l2) = (countIf p l1 + countIf p l2)%nat.
Proof.
  induction l1 as [|x l1 IH]; simpl; [reflexivity|].
  destruct (p x); simpl; lia.
Qed.

(** The score is the clamped difference of 100 and the penalties. *)
Lemma calculateHealthScore_penalties (m : HealthInput) :
  calculateHealthScore m = clamp 0 100 (100 - penalties m).
Proof.
  unfold calculateHealthScore, penalties, clamp.
  rewrite !filter_length_countIf. f_equal. f_equal. lia.
Qed.


(** C10. Appending one more coupling metric, duplication instance,
    complexity metric or circular-dependency entry (whatever its score)
    never increases the health score. *)
Theorem health_score_monotone (m : HealthInput) :
  (forall x, calculateHealthScore (addCoupling x m) <= calculateHealthScore m)%Z
  /\ (forall x, calculateHealthScore (addDuplication x m) <= calculateHealthScore m)%Z
  /\ (forall x, calculateHealthScore (addComplexity x m) <= calculateHealthScore m)%Z
  /\ (forall x, calculateHealthScore (addCircular x m) <= calculateHealthScore m)%Z.
Proof.
  repeat split; intros x; rewrite !calculateHealthScore_penalties;
    unfold clamp, penalties; simpl;
    rewrite ?countIf_app, ?length_app; simpl;
    try (destruct (isHigh x)); try (destruct (isVeryComplex x));
    try (destruct (isComplex x)); lia.
Qed.

End HealthScore.



(** ** String primitives *)

Section StringPrimitives.

Lemma append_cons (a : ascii) (s t : string) :
  String a s +:+ t = String a (s +:+ t).
Proof. reflexivity. Qed.

Lemma append_nil (t : string) : EmptyString +:+ t = t.
Proof. reflexivity. Qed.

Lemma prefix_spec (p s : string) :
  String.prefix p s = true <-> exists r, s = p +:+ r.
Proof.
  revert s. induction p as [|a p IH]; intros s.
  - split; [intros _; exists s; reflexivity | intros _; destruct s; reflexivity].
  - destruct s as [|b s]; simpl.
    + split; [discriminate | intros [r Hr]; discriminate].
    + destruct (ascii_dec a b) as [->|Hab].
      * rewrite IH. split; intros [r Hr]; exists r.
        -- rewrite append_cons, Hr. reflexivity.
        -- rewrite append_cons in Hr. injection Hr as Hr. exact Hr.
      * split; [discriminate|]. intros [r Hr].
        rewrite append_cons in Hr. injection Hr as Hb _. congruence.
Qed.

Lemma includes_nil (sub : string) :
  JS.includes EmptyString sub = String.prefix sub EmptyString.
Proof. unfold JS.includes. apply orb_false_r. Qed.

Lemma includes_cons (a : ascii) (s sub : string) :
  JS.includes (String a s) sub =
  String.prefix sub (String a s) || JS.includes s sub.
Proof. reflexivity. Qed.

(** [includes] finds exactly the occurrences of a substring. *)
Lemma includes_spec (s sub : string) :
  JS.includes s sub = true <-> occursIn sub s.
Proof.
  unfold occursIn. induction s as [|a s IH].
  - rewrite includes_nil, prefix_spec. split.
    + intros [r Hr]. exists EmptyString, r. exact Hr.
    + intros ([|x pre] & post & H); [exists post; exact H | discriminate].
  - rewrite includes_cons, orb_true_iff, prefix_spec, IH. split.
    + intros [[r Hr] | (pre & post & H)].
      * exists EmptyString, r. exact Hr.
      * exists (String a pre), post. rewrite append_cons, H. reflexivity.
    + intros ([|x pre] & post & H).
      * left. exists post. exact H.
      * right. rewrite append_cons in H. injection H as _ H.
        exists pre, post. exact H.
Qed.

Lemma startsWith_dot (dep : string) :
  isRelative dep = true <-> relativeSpecifier dep.
Proof.
  unfold isRelative, JS.startsWith, relativeSpecifier.
  rewrite prefix_spec. reflexivity.
Qed.

End StringPrimitives.

(** ** Coupling analyzer *)

Section Coupling.

Lemma dependsOnName_spec (nm : string) (c : ComponentInfo) :
  dependsOnName nm c = true <-> refersTo nm c.
Proof.
  unfold dependsOnName, refersTo. rewrite existsb_exists.
  split; intros (dep & Hin & H); exists dep; (split; [exact Hin|]);
    apply includes_spec; exact H.
Qed.

(** A boolean filter counts the elements that satisfy the reflected
    property. *)
Lemma Counts_filter {A : Type} (P : A -> Prop) (p : A -> bool) (l : list A) :
  (forall x, p x = true <-> P x) ->
  Counts P l (length (List.filter p l)).
Proof.
  intros Hp. induction l as [|x l IH]; simpl; [constructor|].
  destruct (p x) eqn:Hx; simpl.
  - apply Counts_yes; [apply Hp; exact Hx | exact IH].
  - apply Counts_no; [rewrite <- Hp; congruence | exact IH].
Qed.

Lemma calculateCoupling_lookup (components : list ComponentInfo) (k : nat) :
  calculateCoupling components !! k = couplingOf components <$> components !! k.
Proof. unfold calculateCoupling. apply list_lookup_fmap. Qed.

End Coupling.

(** C6, as amended. For every component C of the catalog, the metric
    reported at C's position carries C's path; its afferent coupling is the
    number of components of the catalog, C itself included, one of whose
    dependency specifiers has C's name as a substring; its efferent coupling
    is the number of C's dependency specifiers that start with the relative
    marker. *)
Theorem coupling_counts (components : list ComponentInfo) (k : nat)
    (c : ComponentInfo) :
  components !! k = Some c ->
  exists m,
    calculateCoupling components !! k = Some m
    /\ cm_component m = path c
    /\ Counts (refersTo (name c)) components (afferentCoupling m)
    /\ Counts relativeSpecifier (dependencies c) (efferentCoupling m).
Proof.
  intros Hk. exists (couplingOf components c).
  rewrite calculateCoupling_lookup, Hk. simpl.
  repeat split.
  - apply Counts_filter. intros x. apply dependsOnName_spec.
  - apply Counts_filter. intros x. apply startsWith_dot.
Qed.

Lemma coupling_counts_witness :
  exists m,
    calculateCoupling smallCatalog !! 1%nat = Some m
    /\ cm_component m = "pages/Q.tsx"
    /\ Counts (refersTo "Q") smallCatalog (afferentCoupling m)
    /\ Counts relativeSpecifier [] (efferentCoupling m).
Proof.
  exact (coupling_counts smallCatalog 1
           (mkComponent "Q" "pages/Q.tsx" [] 12) eq_refl).
Defined.

(** C6 as stated fails: a component one of whose own specifiers contains its
    name is counted in its own afferent coupling. *)
Lemma coupling_counts_self : ~ couplingClaim selfCatalog.
Proof.
  intros H.
  destruct (H 0%nat _ _ eq_refl eq_refl) as [Haff _].
  simpl in Haff. vm_compute in Haff.
  inversion Haff as [|x l n [Hne _] _|x l n _ Hrest]; subst.
  - apply Hne. reflexivity.
  - inversion Hrest.
Qed.


(** ** Pattern matching *)

Section Patterns.

Lemma lastOr_append (prev : option ascii) (p q : string) :
  lastOr prev (p +:+ q) = lastOr (lastOr prev p) q.
Proof.
  revert prev. induction p as [|c p IH]; intros prev; [reflexivity|].
  rewrite append_cons. simpl. apply IH.
Qed.

Lemma string_snoc_cases (s : string) :
  s = EmptyString \/ exists p c, s = p +:+ String c EmptyString.
Proof.
  induction s as [|a s IH]; [left; reflexivity|]. right.
  destruct IH as [->|(p & c & ->)].
  - exists EmptyString, a. reflexivity.
  - exists (String a p), c. reflexivity.
Qed.

Lemma boundaryBefore_spec (pre : string) :
  JS.boundaryBefore (lastOr None pre) = true <-> endsAtBoundary pre.
Proof.
  unfold endsAtBoundary.
  destruct (string_snoc_cases pre) as [->|(p & c & ->)].
  - simpl. split; [left; reflexivity | reflexivity].
  - rewrite lastOr_append. simpl. rewrite negb_true_iff. split.
    + intros H. right. exists p, c. split; [reflexivity | exact H].
    + intros [H|(p' & c' & H & Hc)].
      * destruct p; discriminate.
      * apply (f_equal (lastOr None)) in H.
        rewrite !lastOr_append in H. simpl in H. congruence.
Qed.

Lemma boundaryAfter_spec (post : string) :
  JS.boundaryAfter post = true <-> startsAtBoundary post.
Proof.
  unfold startsAtBoundary. destruct post as [|c r]; simpl.
  - split; [left; reflexivity | reflexivity].
  - rewrite negb_true_iff. split.
    + intros H. right. exists c, r. split; [reflexivity | exact H].
    + intros [H|(c' & r' & H & Hc)]; [discriminate | congruence].
Qed.

Lemma dropString_append (kw post : string) :
  JS.dropString (String.length kw) (kw +:+ post) = post.
Proof.
  induction kw as [|a kw IH]; simpl.
  - destruct post; reflexivity.
  - exact IH.
Qed.

(** A keyword pattern matches at a position exactly when the keyword stands
    there between two word boundaries. *)
Lemma wordMatcher_spec (kw : string) (prev : option ascii) (s : string) (n : nat) :
  JS.wordMatcher kw prev s = Some n <->
  n = String.length kw /\ JS.boundaryBefore prev = true /\
  exists post, s = kw +:+ post /\ JS.boundaryAfter post = true.
Proof.
  unfold JS.wordMatcher. split.
  - destruct (JS.boundaryBefore prev) eqn:Hb; simpl; [|discriminate].
    destruct (String.prefix kw s) eqn:Hp; simpl; [|discriminate].
    apply prefix_spec in Hp. destruct Hp as [post ->].
    rewrite dropString_append.
    destruct (JS.boundaryAfter post) eqn:Ha; [|discriminate].
    intros [= <-]. repeat split. exists post. split; [reflexivity | exact Ha].
  - intros (-> & -> & post & -> & Ha).
    rewrite (proj2 (prefix_spec kw (kw +:+ post))) by (exists post; reflexivity).
    rewrite dropString_append, Ha. reflexivity.
Qed.

Lemma altMatcher_spec (ms : list JS.Matcher) (prev : option ascii) (s : string) :
  Forall (fun m => m prev s <> Some 0%nat) ms ->
  (exists n, JS.altMatcher ms prev s = Some (S n)) <->
  (exists m, In m ms /\ exists n, m prev s = Some (S n)).
Proof.
  induction 1 as [|m ms Hm _ IH]; simpl.
  - split; [intros [n Hn]; discriminate | intros (m & [] & _)].
  - destruct (m prev s) as [[|k]|] eqn:Hk.
    + congruence.
    + split; [intros _; exists m; split; [left; reflexivity | exists k; exact Hk]|].
      intros _. exists k. reflexivity.
    + rewrite IH. split.
      * intros (m' & Hin & Hn). exists m'. split; [right; exact Hin | exact Hn].
      * intros (m' & [<-|Hin] & n & Hn); [congruence|].
        exists m'. split; [exact Hin | exists n; exact Hn].
Qed.

(** A pattern that cannot match the empty text is found by the scan exactly
    when it matches at some position. *)
Lemma countFrom_pos (m : JS.Matcher) :
  (forall prev, m prev EmptyString = None) ->
  forall (s : string) (prev : option ascii),
    (0 < JS.countFrom m prev 0 s)%nat <->
    exists pre rest n, s = pre +:+ rest /\ m (lastOr prev pre) rest = Some (S n).
Proof.
  intros Hnil. induction s as [|a s IH]; intros prev.
  - simpl. split; [lia|]. intros (pre & rest & n & Hs & Hm).
    destruct pre; [|discriminate]. rewrite append_nil in Hs. subst rest.
    simpl in Hm. rewrite Hnil in Hm. discriminate.
  - assert (Hskip :
      (0 < JS.countFrom m (Some a) 0 s)%nat <->
      exists pre rest n,
        String a s = String a pre +:+ rest /\
        m (lastOr prev (String a pre)) rest = Some (S n)).
    { rewrite IH. split; intros (pre & rest & n & Hs & Hm); exists pre, rest, n.
      - rewrite append_cons, Hs. split; [reflexivity | exact Hm].
      - rewrite append_cons in Hs. injection Hs as Hs. split; [exact Hs | exact Hm]. }
    assert (Hsplit : forall P : string -> string -> nat -> Prop,
      (exists pre rest n, String a s = pre +:+ rest /\ P pre rest n) <->
      (exists n, P EmptyString (String a s) n) \/
      (exists pre rest n, String a s = String a pre +:+ rest /\ P (String a pre) rest n)).
    { intros P. split.
      - intros ([|c pre] & rest & n & Hs & HP).
        + rewrite append_nil in Hs. subst rest. left. exists n. exact HP.
        + right. rewrite append_cons in Hs. injection Hs as <- Hs.
          exists pre, rest, n. rewrite append_cons, Hs. split; [reflexivity | exact HP].
      - intros [[n HP]|(pre & rest & n & Hs & HP)].
        + exists EmptyString, (String a s), n. split; [reflexivity | exact HP].
        + exists (String a pre), rest, n. split; [exact Hs | exact HP]. }
    rewrite (Hsplit (fun pre rest n => m (lastOr prev pre) rest = Some (S n))).
    rewrite <- Hskip. simpl.
    destruct (m prev (String a s)) as [[|k]|] eqn:Hk.
    + split; [intros H; right; exact H | intros [[n Hn]|H]; [discriminate | exact H]].
    + split; [intros _; left; exists k; reflexivity | intros _; lia].
    + split; [intros H; right; exact H | intros [[n Hn]|H]; [discriminate | exact H]].
Qed.

Lemma wordMatcher_nonzero (kw : string) (prev : option ascii) (s : string) :
  kw <> EmptyString -> JS.wordMatcher kw prev s <> Some 0%nat.
Proof.
  intros Hkw H. apply wordMatcher_spec in H. destruct H as [H _].
  destruct kw; [congruence | discriminate].
Qed.

Lemma controlKeyword_alt :
  controlKeyword = JS.altMatcher (List.map JS.wordMatcher controlKeywords).
Proof. reflexivity. Qed.

Lemma controlKeywords_nonempty (kw : string) :
  In kw controlKeywords -> kw <> EmptyString.
Proof. simpl. intros [<-|[<-|[<-|[<-|[<-|[]]]]]]; discriminate. Qed.

(** The control-structure test holds of a line exactly when one of the five
    keywords stands in it as a whole word. *)
Lemma test_controlKeyword (line : string) :
  JS.test controlKeyword line = true <-> hasControlKeyword line.
Proof.
  unfold JS.test, JS.countMatches. rewrite Nat.ltb_lt.
  rewrite countFrom_pos.
  2:{ intros prev. unfold controlKeyword, JS.altMatcher, JS.wordMatcher.
      destruct (JS.boundaryBefore prev); reflexivity. }
  unfold hasControlKeyword, keywordAt. split.
  - intros (pre & rest & n & Hs & Hm).
    assert (Hex : exists n, controlKeyword (lastOr None pre) rest = Some (S n))
      by (exists n; exact Hm).
    rewrite controlKeyword_alt in Hex. apply altMatcher_spec in Hex.
    2:{ apply List.Forall_forall. intros m' Hin. apply in_map_iff in Hin.
        destruct Hin as (kw & <- & Hkw).
        apply wordMatcher_nonzero, controlKeywords_nonempty, Hkw. }
    destruct Hex as (m' & Hin & k & Hk). apply in_map_iff in Hin.
    destruct Hin as (kw & <- & Hkw). apply wordMatcher_spec in Hk.
    destruct Hk as (_ & Hb & post & -> & Ha).
    exists kw. split; [exact Hkw|]. exists pre, post. split; [exact Hs|].
    split; [apply boundaryBefore_spec, Hb | apply boundaryAfter_spec, Ha].
  - intros (kw & Hkw & pre & post & -> & Hb & Ha).
    assert (Hex : exists n,
      controlKeyword (lastOr None pre) (kw +:+ post) = Some (S n)).
    { rewrite controlKeyword_alt. apply altMatcher_spec.
      - apply List.Forall_forall. intros m' Hin. apply in_map_iff in Hin.
        destruct Hin as (kw' & <- & Hkw').
        apply wordMatcher_nonzero, controlKeywords_nonempty, Hkw'.
      - exists (JS.wordMatcher kw). split; [apply in_map, Hkw|].
        pose proof (controlKeywords_nonempty kw Hkw) as Hne.
        destruct kw as [|a kw]; [congruence|].
        exists (String.length kw). apply wordMatcher_spec.
        split; [reflexivity|]. split; [apply boundaryBefore_spec, Hb|].
        exists post. split; [reflexivity | apply boundaryAfter_spec, Ha]. }
    destruct Hex as [n Hn]. exists pre, (kw +:+ post), n.
    split; [reflexivity | exact Hn].
Qed.

Lemma prefix_two (x y a b : ascii) (r : string) :
  String.prefix (String x (String y EmptyString)) (String a (String b r)) =
  Ascii.eqb a x && Ascii.eqb b y.
Proof.
  apply eq_true_iff_eq. rewrite prefix_spec, andb_true_iff, !Ascii.eqb_eq.
  split.
  - intros [r' Hr]. rewrite !append_cons in Hr. injection Hr as -> -> _.
    split; reflexivity.
  - intros [-> ->]. exists r. reflexivity.
Qed.

Lemma prefix_two_single (x y a : ascii) :
  String.prefix (String x (String y EmptyString)) (String a EmptyString) = false.
Proof.
  destruct (String.prefix _ _) eqn:Hp; [|reflexivity].
  apply prefix_spec in Hp. destruct Hp as [r Hr].
  rewrite !append_cons in Hr. discriminate.
Qed.

Lemma logicalOperator_at (prev : option ascii) (a b : ascii) (r : string) :
  logicalOperator prev (String a (String b r)) =
  if (Ascii.eqb a "&" && Ascii.eqb b "&") || (Ascii.eqb a "|" && Ascii.eqb b "|")
  then Some 2%nat else None.
Proof.
  unfold logicalOperator. cbn [JS.altMatcher]. unfold JS.literalMatcher.
  rewrite !prefix_two.
  destruct (Ascii.eqb a "&" && Ascii.eqb b "&");
    destruct (Ascii.eqb a "|" && Ascii.eqb b "|"); reflexivity.
Qed.

Lemma logicalOperator_single (prev : option ascii) (a : ascii) :
  logicalOperator prev (String a EmptyString) = None.
Proof.
  unfold logicalOperator. cbn [JS.altMatcher]. unfold JS.literalMatcher.
  rewrite !prefix_two_single. reflexivity.
Qed.

(** The global match of the logical-operator pattern counts the operators
    read from the left. *)
Lemma countMatches_logicalOperator (s : string) :
  JS.countMatches logicalOperator s = logicalOccurrences s.
Proof.
  unfold JS.countMatches.
  assert (Hgen : forall t,
    (forall prev, JS.countFrom logicalOperator prev 0 t = logicalOccurrences t)
    /\ (forall prev c,
          JS.countFrom logicalOperator prev 0 (String c t)
          = logicalOccurrences (String c t))).
  { induction t as [|a t [IH1 IH2]].
    - split; [reflexivity|]. intros prev c. simpl JS.countFrom.
      rewrite logicalOperator_single. reflexivity.
    - split; [intros prev; apply IH2|].
      intros prev c.
      change (JS.countFrom logicalOperator prev 0 (String c (String a t)))
        with (match logicalOperator prev (String c (String a t)) with
              | Some (S n) =>
                  S (JS.countFrom logicalOperator (Some c) n (String a t))
              | _ => JS.countFrom logicalOperator (Some c) 0 (String a t)
              end).
      rewrite logicalOperator_at.
      change (logicalOccurrences (String c (String a t)))
        with (if (Ascii.eqb c "&" && Ascii.eqb a "&")
                 || (Ascii.eqb c "|" && Ascii.eqb a "|")
              then S (logicalOccurrences t)
              else logicalOccurrences (String a t)).
      destruct ((Ascii.eqb c "&" && Ascii.eqb a "&")
                || (Ascii.eqb c "|" && Ascii.eqb a "|")).
      + change (JS.countFrom logicalOperator (Some c) 1 (String a t))
          with (JS.countFrom logicalOperator (Some a) 0 t).
        rewrite IH1. reflexivity.
      + apply IH2. }
  apply Hgen.
Qed.

End Patterns.

(** ** Cognitive complexity *)

Section Cognitive.

Lemma includes_false (sub s : string) :
  JS.includes s sub = false <-> ~ occursIn sub s.
Proof. rewrite <- includes_spec. destruct (JS.includes s sub); split; congruence. Qed.

Lemma NestingAfter_functional (d : nat) (line : string) (d1 d2 : nat) :
  NestingAfter d line d1 -> NestingAfter d line d2 -> d1 = d2.
Proof. intros H1 H2. destruct H1; destruct H2; try contradiction; reflexivity. Qed.

Lemma KeywordCost_functional (d : nat) (line : string) (k1 k2 : nat) :
  KeywordCost d line k1 -> KeywordCost d line k2 -> k1 = k2.
Proof. intros H1 H2. destruct H1; destruct H2; try contradiction; reflexivity. Qed.

Lemma CognitiveScan_functional (d : nat) (ls : list string) (n1 n2 : nat) :
  CognitiveScan d ls n1 -> CognitiveScan d ls n2 -> n1 = n2.
Proof.
  intros H1. revert n2.
  induction H1 as [d|d d' line ls k n Hd Hk _ IH]; intros n2 H2;
    inversion H2 as [|? d2 ? ? k2 m Hd2 Hk2 Hs2]; subst; [reflexivity|].
  pose proof (NestingAfter_functional _ _ _ _ Hd Hd2) as <-.
  pose proof (KeywordCost_functional _ _ _ _ Hk Hk2) as <-.
  rewrite (IH _ Hs2). reflexivity.
Qed.

(** One turn of the loop. *)
Lemma cognitiveStep_scan (c d : nat) (line : string) :
  exists d' k,
    cognitiveStep (c, d) line =
      ((c + (k + logicalOccurrences line))%nat, d')
    /\ NestingAfter d line d' /\ KeywordCost d' line k.
Proof.
  unfold cognitiveStep. rewrite countMatches_logicalOperator.
  set (d1 := if JS.includes line "{" then S d else d).
  set (d2 := if JS.includes line "}" then Nat.max 0 (d1 - 1) else d1).
  assert (Hd : NestingAfter d line d2).
  { subst d2 d1.
    destruct (JS.includes line "{") eqn:Ho; destruct (JS.includes line "}") eqn:Hc;
      rewrite ?Nat.max_0_l.
    - replace (S d - 1)%nat with d by lia.
      apply Nesting_both; apply includes_spec; assumption.
    - apply Nesting_open; [apply includes_spec | apply includes_false]; assumption.
    - apply Nesting_close; [apply includes_false | apply includes_spec]; assumption.
    - apply Nesting_none; apply includes_false; assumption. }
  destruct (JS.test controlKeyword line) eqn:Ht.
  - exists d2, (1 + d2)%nat. split; [f_equal; lia|]. split; [exact Hd|].
    apply Keyword_yes, test_controlKeyword, Ht.
  - exists d2, 0%nat. split; [f_equal; lia|]. split; [exact Hd|].
    apply Keyword_no. rewrite <- test_controlKeyword. congruence.
Qed.

Lemma cognitive_fold_scan (ls : list string) (c d : nat) :
  exists n,
    fst (fold_left cognitiveStep ls (c, d)) = (c + n)%nat /\ CognitiveScan d ls n.
Proof.
  revert c d. induction ls as [|line ls IH]; intros c d.
  - exists 0%nat. simpl. split; [lia | constructor].
  - destruct (cognitiveStep_scan c d line) as (d' & k & Hstep & Hd & Hk).
    change (fold_left cognitiveStep (line :: ls) (c, d))
      with (fold_left cognitiveStep ls (cognitiveStep (c, d) line)).
    rewrite Hstep.
    destruct (IH (c + (k + logicalOccurrences line))%nat d')
      as (n & Hn & Hscan).
    exists (k + logicalOccurrences line + n)%nat.
    split; [rewrite Hn; lia|]. econstructor; eassumption.
Qed.

End Cognitive.

(** C7, as amended. For every function body the cognitive complexity is the
    result of a scan of its lines in which the nesting depth goes up by one
    on each line that contains an opening brace and then down by one (not
    below 0) on each line that contains a closing brace, each line where a
    control keyword ([if], [for], [while], [switch], [catch]) stands as a
    whole word adds 1 plus the nesting depth reached on that line, and each
    logical AND/OR operator of a line, read from the left, adds 1. *)
Theorem cognitive_complexity_scan (code : string) :
  CognitiveScan 0 (JS.split "010" code) (calculateCognitiveComplexity code)
  /\ forall n,
       CognitiveScan 0 (JS.split "010" code) n ->
       n = calculateCognitiveComplexity code.
Proof.
  unfold calculateCognitiveComplexity.
  destruct (cognitive_fold_scan (JS.split "010" code) 0 0) as (n & Hn & Hscan).
  simpl in Hn. rewrite Hn. split; [exact Hscan|].
  intros n' Hn'. exact (CognitiveScan_functional _ _ _ _ Hn' Hscan).
Qed.

Lemma cognitive_complexity_scan_witness :
  CognitiveScan 0 (JS.split "010" twoBraces) 2
  /\ 2%nat = calculateCognitiveComplexity twoBraces.
Proof.
  split.
  - exact (proj1 (cognitive_complexity_scan twoBraces)).
  - apply (proj2 (cognitive_complexity_scan twoBraces) 2%nat).
    exact (proj1 (cognitive_complexity_scan twoBraces)).
Defined.

(** C7 as stated fails: two opening braces on one line raise the nesting
    depth by one, not by two. *)
Lemma cognitive_braces_per_line : ~ cognitiveClaim twoBraces.
Proof. unfold cognitiveClaim. vm_compute. discriminate. Qed.

Example cognitive_nested_body : calculateCognitiveComplexity nestedBody = 8%nat.
Proof. vm_compute. reflexivity. Qed.


(** ** Levenshtein distance *)

Section LevenshteinRecurrence.

Context (a b : string).

Lemma lev_0 (j : nat) : lev a b 0 j = j.
Proof. reflexivity. Qed.

Lemma lev_S_0 (i : nat) : lev a b (S i) 0 = S i.
Proof. reflexivity. Qed.

Lemma lev_S_S (i j : nat) :
  lev a b (S i) (S j) =
  Nat.min (Nat.min (lev a b i (S j) + 1) (lev a b (S i) j + 1))
    (lev a b i j + (if bool_decide (String.get i a = String.get j b) then 0 else 1)).
Proof. reflexivity. Qed.

(** One more character on either side costs at most one more edit. *)
Lemma lev_up_row (i j : nat) : (lev a b (S i) j <= lev a b i j + 1)%nat.
Proof.
  destruct j; [rewrite lev_S_0; destruct i; rewrite ?lev_0, ?lev_S_0; lia|].
  rewrite lev_S_S; lia.
Qed.

Lemma lev_up_col (i j : nat) : (lev a b i (S j) <= lev a b i j + 1)%nat.
Proof. destruct i; [rewrite !lev_0; lia | rewrite lev_S_S; lia]. Qed.

(** ... and saves at most one. *)
Lemma lev_down_col (i j : nat) : (lev a b i j <= lev a b i (S j) + 1)%nat.
Proof.
  revert j. induction i as [|i IH]; intros j; [rewrite !lev_0; lia|].
  rewrite (lev_S_S i j).
  pose proof (lev_up_row i j). pose proof (IH j).
  destruct (bool_decide _); lia.
Qed.

Lemma lev_down_row (i j : nat) : (lev a b i j <= lev a b (S i) j + 1)%nat.
Proof.
  induction j as [|j IH];
    [rewrite lev_S_0; destruct i; rewrite ?lev_0, ?lev_S_0; lia|].
  rewrite (lev_S_S i j).
  pose proof (lev_up_col i j).
  destruct (bool_decide _); lia.
Qed.

(** The value the inner loop computes for a cell. *)
Lemma lev_cell (i j : nat) :
  lev a b (S i) (S j) =
  if bool_decide (String.get i a <> String.get j b)
  then (Nat.min (Nat.min (lev a b i j) (lev a b (S i) j)) (lev a b i (S j)) + 1)%nat
  else lev a b i j.
Proof.
  rewrite lev_S_S.
  pose proof (lev_down_col i j). pose proof (lev_down_row i j).
  destruct (decide (String.get i a = String.get j b)) as [He|He].
  - rewrite (bool_decide_eq_true_2 _ He).
    rewrite bool_decide_eq_false_2 by (intros Hn; exact (Hn He)). lia.
  - rewrite (bool_decide_eq_false_2 _ He).
    rewrite (bool_decide_eq_true_2 _ He). lia.
Qed.

End LevenshteinRecurrence.

Lemma lev_sym (a b : string) (i j : nat) : lev a b i j = lev b a j i.
Proof.
  revert j. induction i as [|i IHi]; intros j.
  - destruct j; reflexivity.
  - induction j as [|j IHj]; [reflexivity|].
    rewrite !lev_S_S, IHj, !IHi.
    destruct (decide (String.get i a = String.get j b)) as [He|He].
    + rewrite (bool_decide_eq_true_2 _ He).
      rewrite (bool_decide_eq_true_2 _ (eq_sym He)). lia.
    + rewrite (bool_decide_eq_false_2 _ He).
      rewrite bool_decide_eq_false_2 by congruence. lia.
Qed.

Lemma lev_diag (a : string) (i : nat) : lev a a i i = 0%nat.
Proof.
  induction i as [|i IH]; [reflexivity|].
  rewrite lev_S_S, IH, bool_decide_eq_true_2 by reflexivity. lia.
Qed.

Lemma editDistance_sym (a b : string) : editDistance a b = editDistance b a.
Proof. apply lev_sym. Qed.

Lemma editDistance_refl (a : string) : editDistance a a = 0%nat.
Proof. apply lev_diag. Qed.

Lemma editDistance_le_max (a b : string) :
  (editDistance a b <= Nat.max (String.length a) (String.length b))%nat.
Proof.
  unfold editDistance.
  assert (H : forall i j, (lev a b i j <= Nat.max i j)%nat).
  { induction i as [|i IH]; intros j; [rewrite lev_0; lia|].
    induction j as [|j IHj]; [rewrite lev_S_0; lia|].
    rewrite lev_S_S. specialize (IH j). destruct (bool_decide _); lia. }
  apply H.
Qed.

(** ** The dynamic-programming loop *)

Section LevenshteinLoop.

Lemma array_get_lookup (costs : list (option nat)) (k v : nat) :
  costs !! k = Some (Some v) -> JS.array_get costs k = Some v.
Proof. unfold JS.array_get. intros ->. reflexivity. Qed.

Lemma array_set_inside (costs : list (option nat)) (k v : nat) :
  (k < length costs)%nat -> JS.array_set costs k v = <[k := Some v]> costs.
Proof.
  intros H. unfold JS.array_set.
  rewrite (proj2 (Nat.ltb_lt _ _) H). reflexivity.
Qed.

Lemma array_set_end (costs : list (option nat)) (v : nat) :
  JS.array_set costs (length costs) v = costs ++ [Some v].
Proof.
  unfold JS.array_set. rewrite Nat.ltb_irrefl, Nat.sub_diag. reflexivity.
Qed.

(** An invariant carried along a counting loop. *)
Lemma fold_seq_invariant {S : Type} (step : S -> nat -> S)
    (Inv : nat -> S -> Prop) (st0 : S) (m : nat) :
  Inv 0%nat st0 ->
  (forall j st, (j < m)%nat -> Inv j st -> Inv (Datatypes.S j) (step st j)) ->
  Inv m (fold_left step (seq 0 m) st0).
Proof.
  intros H0 Hstep. induction m as [|m IH]; [exact H0|].
  rewrite seq_S, fold_left_app. simpl. apply Hstep; [lia|].
  apply IH. intros j st Hj. apply Hstep. lia.
Qed.

Context (s1 s2 : string).

(** Row 0 fills the array with 0, 1, 2, ... *)
Lemma levenshtein_row0_steps (last m : nat) :
  fold_left (levenshteinStep s1 s2 0) (seq 0 m) (Some ([], last)) =
  Some (Some <$> seq 0 m, last).
Proof.
  induction m as [|m IH]; [reflexivity|].
  rewrite seq_S, fold_left_app, IH. simpl.
  replace m with (length (Some <$> seq 0 m)) at 2
    by (rewrite length_fmap, length_seq; reflexivity).
  rewrite array_set_end, fmap_app. reflexivity.
Qed.

Lemma levenshtein_step_invariant (i' j : nat)
    (st : option (list (option nat) * nat)) :
  (j < S (String.length s2))%nat ->
  stepInvariant s1 s2 i' j st ->
  stepInvariant s1 s2 i' (S j) (levenshteinStep s1 s2 (S i') st j).
Proof.
  intros Hj (costs & last & -> & Hlen & Hlast & Hcosts).
  destruct j as [|j'].
  - exists costs, last. repeat split; assumption.
  - assert (Hprev : costs !! j' = Some (Some (lev s1 s2 i' j'))).
    { rewrite Hcosts by lia. simpl. rewrite Nat.ltb_irrefl. reflexivity. }
    assert (Hcur : costs !! S j' = Some (Some (lev s1 s2 i' (S j')))).
    { rewrite Hcosts by lia. simpl.
      rewrite (proj2 (Nat.ltb_ge _ _)) by lia. reflexivity. }
    simpl in Hlast.
    exists (<[j' := Some last]> costs), (lev s1 s2 (S i') (S j')).
    split.
    + unfold levenshteinStep. simpl.
      rewrite !Nat.sub_0_r.
      rewrite (array_get_lookup _ _ _ Hprev). simpl.
      rewrite lev_cell. unfold JS.charAt.
      destruct (bool_decide (String.get i' s1 <> String.get j' s2)); simpl.
      * rewrite (array_get_lookup _ _ _ Hcur). simpl.
        rewrite array_set_inside by lia. rewrite Hlast. reflexivity.
      * rewrite array_set_inside by lia. reflexivity.
    + split; [rewrite length_insert; exact Hlen|].
      split; [reflexivity|].
      intros k Hk. simpl.
      destruct (decide (k = j')) as [->|Hne].
      * rewrite list_lookup_insert_eq by lia.
        rewrite (proj2 (Nat.ltb_lt _ _)) by lia. rewrite Hlast. reflexivity.
      * rewrite list_lookup_insert_ne by congruence.
        rewrite Hcosts by lia. simpl.
        destruct (Nat.ltb_spec k j'); destruct (Nat.ltb_spec k (S j'));
          try reflexivity; lia.
Qed.

Lemma levenshtein_row_invariant (i : nat) (st : option (list (option nat))) :
  rowInvariant s1 s2 i st ->
  rowInvariant s1 s2 (S i) (levenshteinRow s1 s2 st i).
Proof.
  destruct i as [|i'].
  - simpl. intros ->. unfold levenshteinRow. simpl option_bind.
    change (mbind ?f (Some ?x)) with (f x).
    cbv beta. rewrite levenshtein_row0_steps.
    remember (Some <$> seq 0 (S (String.length s2))) as row eqn:Hrow.
    simpl. exists row. split; [reflexivity|]. subst row.
    split; [rewrite length_fmap, length_seq; reflexivity|].
    intros k Hk. rewrite list_lookup_fmap.
    rewrite lookup_seq_lt by lia. reflexivity.
  - intros (costs & -> & Hlen & Hcosts).
    unfold levenshteinRow.
    change (mbind ?f (Some costs)) with (f costs). cbv beta.
    pose proof (fold_seq_invariant (levenshteinStep s1 s2 (S i'))
                  (stepInvariant s1 s2 i') (Some (costs, S i'))
                  (S (String.length s2))) as Hfold.
    destruct Hfold as (costs' & last & Heq & Hlen' & Hlast & Hcosts').
    + exists costs, (S i'). repeat split; [exact Hlen|].
      intros k Hk. simpl. rewrite Hcosts by exact Hk. reflexivity.
    + intros j st Hj Hinv. apply levenshtein_step_invariant; assumption.
    + rewrite Heq. simpl.
      rewrite array_set_inside by lia.
      eexists. split; [reflexivity|].
      split; [rewrite length_insert; exact Hlen'|].
      intros k Hk. simpl in Hlast, Hcosts'.
      destruct (decide (k = String.length s2)) as [->|Hne].
      * rewrite list_lookup_insert_eq by lia. rewrite Hlast. reflexivity.
      * rewrite list_lookup_insert_ne by congruence.
        rewrite Hcosts' by exact Hk.
        rewrite (proj2 (Nat.ltb_lt _ _)) by lia. reflexivity.
Qed.

(** The loop computes the Levenshtein distance, and never reads an empty
    slot. *)
Lemma levenshtein_correct :
  levenshtein s1 s2 = Some (editDistance s1 s2).
Proof.
  unfold levenshtein, editDistance.
  pose proof (fold_seq_invariant (levenshteinRow s1 s2) (rowInvariant s1 s2)
                (Some []) (S (String.length s1))) as Hfold.
  destruct Hfold as (costs & -> & Hlen & Hcosts).
  - reflexivity.
  - intros j st _. apply levenshtein_row_invariant.
  - simpl. apply array_get_lookup. apply Hcosts. lia.
Qed.

End LevenshteinLoop.

(** ** Similarity *)

Section Similarity.

Lemma similarity_value (a b : string) :
  (0 < Nat.max (String.length a) (String.length b))%nat ->
  similarity a b = Some (similarityFormula a b).
Proof.
  intros Hpos. unfold similarity, similarityFormula.
  destruct (Nat.ltb_spec (String.length b) (String.length a)) as [Hlt|Hge].
  - rewrite (proj2 (Nat.eqb_neq _ _)) by lia.
    rewrite levenshtein_correct. simpl.
    rewrite Nat.max_l by lia. reflexivity.
  - rewrite (proj2 (Nat.eqb_neq _ _)) by lia.
    rewrite levenshtein_correct. simpl.
    rewrite Nat.max_r by lia. rewrite (editDistance_sym b a). reflexivity.
Qed.

Lemma similarity_empty : similarity EmptyString EmptyString = Some 1%Q.
Proof. reflexivity. Qed.

Lemma similarity_same (x : string) :
  exists q, similarity x x = Some q /\ (q == 1)%Q.
Proof.
  destruct x as [|c x]; [exists 1%Q; split; reflexivity|].
  exists (similarityFormula (String c x) (String c x)).
  split; [apply similarity_value; simpl; lia|].
  unfold similarityFormula. rewrite editDistance_refl, Z.sub_0_r.
  apply Qmult_inv_r. rewrite Nat.max_id. simpl String.length.
  unfold Qeq. simpl. lia.
Qed.

End Similarity.



(** ** The recurrence and edit scripts *)

Section EditScripts.

Lemma levList_nil_l (t : list ascii) : levList [] t = length t.
Proof. reflexivity. Qed.

Lemma levList_nil_r (s : list ascii) : levList s [] = length s.
Proof. destruct s; reflexivity. Qed.

Lemma levList_cons (x y : ascii) (s t : list ascii) :
  levList (x :: s) (y :: t) =
  Nat.min (Nat.min (levList s (y :: t) + 1) (levList (x :: s) t + 1))
    (levList s t + (if bool_decide (x = y) then 0 else 1)).
Proof. reflexivity. Qed.

Lemma levList_delete (x : ascii) (s t : list ascii) :
  (levList (x :: s) t <= levList s t + 1)%nat.
Proof.
  destruct t as [|y t]; [rewrite !levList_nil_r; simpl; lia|].
  rewrite levList_cons. lia.
Qed.

Lemma levList_insert (y : ascii) (s t : list ascii) :
  (levList s (y :: t) <= levList s t + 1)%nat.
Proof.
  destruct s as [|x s]; [rewrite !levList_nil_l; simpl; lia|].
  rewrite levList_cons. lia.
Qed.

(** The recurrence is the cost of some edit script ... *)
Lemma levList_script (s t : list ascii) : EditScript s t (levList s t).
Proof.
  revert t. induction s as [|x s IHs]; intros t.
  - rewrite levList_nil_l. induction t as [|y t IHt]; simpl; constructor.
    exact IHt.
  - induction t as [|y t IHt].
    + rewrite levList_nil_r. simpl. apply Edit_delete.
      specialize (IHs []). rewrite levList_nil_r in IHs. exact IHs.
    + rewrite levList_cons.
      destruct (Nat.min_spec (Nat.min (levList s (y :: t) + 1)
                                      (levList (x :: s) t + 1))
                  (levList s t + (if bool_decide (x = y) then 0 else 1)))
        as [[_ ->]|[_ ->]].
      * destruct (Nat.min_spec (levList s (y :: t) + 1) (levList (x :: s) t + 1))
          as [[_ ->]|[_ ->]]; rewrite Nat.add_1_r.
        -- apply Edit_delete, IHs.
        -- apply Edit_insert, IHt.
      * destruct (decide (x = y)) as [->|Hne].
        -- rewrite bool_decide_eq_true_2 by reflexivity. rewrite Nat.add_0_r.
           apply Edit_keep, IHs.
        -- rewrite bool_decide_eq_false_2 by exact Hne. rewrite Nat.add_1_r.
           apply Edit_substitute, IHs.
Qed.

(** ... and no edit script is cheaper. *)
Lemma levList_minimal (s t : list ascii) (n : nat) :
  EditScript s t n -> (levList s t <= n)%nat.
Proof.
  induction 1 as [|x s t n _ IH|x y s t n _ IH|x s t n _ IH|y s t n _ IH].
  - reflexivity.
  - rewrite levList_cons, bool_decide_eq_true_2 by reflexivity. lia.
  - rewrite levList_cons. destruct (bool_decide (x = y)); lia.
  - pose proof (levList_delete x s t). lia.
  - pose proof (levList_insert y s t). lia.
Qed.

Lemma EditScript_snoc_keep (x : ascii) (s t : list ascii) (n : nat) :
  EditScript s t n -> EditScript (s ++ [x]) (t ++ [x]) n.
Proof. induction 1; simpl; repeat constructor; assumption. Qed.

Lemma EditScript_snoc_substitute (x y : ascii) (s t : list ascii) (n : nat) :
  EditScript s t n -> EditScript (s ++ [x]) (t ++ [y]) (S n).
Proof. induction 1; simpl; repeat constructor; assumption. Qed.

Lemma EditScript_snoc_delete (x : ascii) (s t : list ascii) (n : nat) :
  EditScript s t n -> EditScript (s ++ [x]) t (S n).
Proof. induction 1; simpl; repeat constructor; assumption. Qed.

Lemma EditScript_snoc_insert (y : ascii) (s t : list ascii) (n : nat) :
  EditScript s t n -> EditScript s (t ++ [y]) (S n).
Proof. induction 1; simpl; repeat constructor; assumption. Qed.

(** Edit scripts read the same backwards. *)
Lemma EditScript_rev (s t : list ascii) (n : nat) :
  EditScript s t n -> EditScript (rev s) (rev t) n.
Proof.
  induction 1; simpl.
  - constructor.
  - apply EditScript_snoc_keep. assumption.
  - apply EditScript_snoc_substitute. assumption.
  - apply EditScript_snoc_delete. assumption.
  - apply EditScript_snoc_insert. assumption.
Qed.

Lemma get_lookup (a : string) (i : nat) :
  String.get i a = list_ascii_of_string a !! i.
Proof.
  revert i. induction a as [|c a IH]; intros [|i]; simpl; try reflexivity.
  apply IH.
Qed.

Lemma length_list_ascii (a : string) :
  length (list_ascii_of_string a) = String.length a.
Proof. induction a as [|c a IH]; simpl; [reflexivity | rewrite IH; reflexivity]. Qed.

(** The recurrence on prefixes is the recurrence on the reversed prefixes. *)
Lemma lev_levList (a b : string) (i j : nat) :
  (i <= String.length a)%nat -> (j <= String.length b)%nat ->
  lev a b i j =
  levList (rev (take i (list_ascii_of_string a)))
          (rev (take j (list_ascii_of_string b))).
Proof.
  revert j. induction i as [|i IHi]; intros j Hi Hj.
  - rewrite lev_0, take_0. simpl rev. rewrite levList_nil_l, length_rev, length_take.
    rewrite length_list_ascii. lia.
  - assert (Hx : exists x, list_ascii_of_string a !! i = Some x).
    { apply lookup_lt_is_Some. rewrite length_list_ascii. lia. }
    destruct Hx as [x Hx].
    rewrite (take_S_r _ _ _ Hx), rev_app_distr. simpl rev. simpl app.
    induction j as [|j IHj].
    + rewrite lev_S_0, take_0. simpl rev. rewrite levList_nil_r. simpl.
      rewrite length_rev, length_take, length_list_ascii. lia.
    + assert (Hy : exists y, list_ascii_of_string b !! j = Some y).
      { apply lookup_lt_is_Some. rewrite length_list_ascii. lia. }
      destruct Hy as [y Hy].
      rewrite (take_S_r _ _ _ Hy), rev_app_distr. simpl rev. simpl app.
      rewrite lev_S_S, levList_cons.
      rewrite (IHi (S j)) by lia. rewrite (IHi j) by lia.
      rewrite IHj by lia.
      rewrite (take_S_r _ _ _ Hy), rev_app_distr. simpl rev. simpl app.
      rewrite !get_lookup, Hx, Hy.
      destruct (decide (x = y)) as [->|Hne].
      * rewrite !bool_decide_eq_true_2 by reflexivity. reflexivity.
      * rewrite !bool_decide_eq_false_2 by congruence. reflexivity.
Qed.

(** [editDistance] is the Levenshtein distance: the least number of
    single-character insertions, deletions and substitutions that turn one
    string into the other. *)
Lemma editDistance_least (a b : string) :
  EditScript (list_ascii_of_string a) (list_ascii_of_string b) (editDistance a b)
  /\ forall n,
       EditScript (list_ascii_of_string a) (list_ascii_of_string b) n ->
       (editDistance a b <= n)%nat.
Proof.
  unfold editDistance. rewrite lev_levList by lia.
  rewrite <- !length_list_ascii, !firstn_all.
  split.
  - rewrite <- (rev_involutive (list_ascii_of_string a)) at 1.
    rewrite <- (rev_involutive (list_ascii_of_string b)) at 1.
    apply EditScript_rev, levList_script.
  - intros n Hn. apply levList_minimal, EditScript_rev, Hn.
Qed.

End EditScripts.

(** C4. For all strings a and b with a non-empty longer one, [similarity]
    returns (max(|a|,|b|) - editDistance(a,b)) / max(|a|,|b|), where
    editDistance is the Levenshtein distance, the least number of
    single-character insertions, deletions and substitutions that turn a
    into b; [similarity x x] is 1 for every string x, and [similarity] of
    two empty strings is 1. *)
Theorem similarity_formula_holds (a b x : string) :
  ((0 < Nat.max (String.length a) (String.length b))%nat ->
   similarity a b = Some (similarityFormula a b))
  /\ (EditScript (list_ascii_of_string a) (list_ascii_of_string b)
        (editDistance a b)
      /\ forall n,
           EditScript (list_ascii_of_string a) (list_ascii_of_string b) n ->
           (editDistance a b <= n)%nat)
  /\ (exists q, similarity x x = Some q /\ (q == 1)%Q)
  /\ similarity EmptyString EmptyString = Some 1%Q.
Proof.
  split; [apply similarity_value|].
  split; [apply editDistance_least|].
  split; [apply similarity_same | apply similarity_empty].
Qed.

Lemma similarity_formula_holds_witness :
  similarity "kitten" "sitting" = Some (similarityFormula "kitten" "sitting")
  /\ (similarityFormula "kitten" "sitting" == 4 # 7)%Q.
Proof.
  split.
  - apply (proj1 (similarity_formula_holds "kitten" "sitting" "")).
    vm_compute. lia.
  - vm_compute. reflexivity.
Defined.


(** ** Reading through the cache *)

Section CachedReads.

Context `{Host} (fs : FileSystem).

Lemma getCachedFileContent_coherent (p : string) (c : Cache) :
  coherent fs c ->
  exists c',
    getCachedFileContent fs p c = (contentOf fs p, c') /\ coherent fs c'.
Proof.
  intros Hc. unfold getCachedFileContent, contentOf.
  assert (Hread :
    exists c',
      match fs p with
      | Some content =>
          (content,
           {| fileCache := <[p := content]> (fileCache c);
              astCache := astCache c |})
      | None => (EmptyString, c)
      end = (default EmptyString (fs p), c') /\ coherent fs c').
  { destruct (fs p) as [content|] eqn:Hfs.
    - eexists. split; [reflexivity|]. intros q a s. simpl.
      destruct (decide (p = q)) as [<-|Hne].
      + rewrite lookup_insert_eq. intros [= ->]. exact Hfs.
      + rewrite lookup_insert_ne by exact Hne. apply Hc.
    - exists c. split; [reflexivity | exact Hc]. }
  destruct (fileCache c !! p) as [[|a s]|] eqn:Hlook; try exact Hread.
  exists c. rewrite (Hc _ _ _ Hlook). split; [reflexivity | exact Hc].
Qed.

Context (repoPath : string).

Lemma readEntry_coherent (x : ComponentInfo) (c : Cache) :
  coherent fs c ->
  exists c',
    readEntry fs repoPath x c = (entryOf fs repoPath x, c') /\ coherent fs c'.
Proof.
  intros Hc. unfold readEntry.
  destruct (getCachedFileContent_coherent (path_join repoPath (path x)) c Hc)
    as (c' & Hget & Hc').
  exists c'. split; [|exact Hc'].
  unfold mbind, M_bind, bind. rewrite Hget. reflexivity.
Qed.

Lemma mapM_readEntry_coherent (l : list ComponentInfo) (c : Cache) :
  coherent fs c ->
  exists c',
    mapM (readEntry fs repoPath) l c = (List.map (entryOf fs repoPath) l, c')
    /\ coherent fs c'.
Proof.
  revert c. induction l as [|x l IH]; intros c Hc.
  - exists c. split; [reflexivity | exact Hc].
  - destruct (readEntry_coherent x c Hc) as (c1 & Hx & Hc1).
    destruct (IH c1 Hc1) as (c2 & Hl & Hc2).
    exists c2. split; [|exact Hc2].
    simpl. unfold mbind, M_bind, bind. rewrite Hx, Hl. reflexivity.
Qed.

(** From a cache that agrees with the file system, the detector reports
    what the two loops find on the entries read from the files. *)
Lemma detectDuplication_coherent (components : list ComponentInfo) (c : Cache) :
  coherent fs c ->
  fst (detectDuplication fs components repoPath c) =
  flowInstances
    (compareAll
       (List.map (entryOf fs repoPath) (List.filter isLargeComponent components))
       (0%Z, [])).
Proof.
  intros Hc. unfold detectDuplication.
  destruct (mapM_readEntry_coherent (List.filter isLargeComponent components) c Hc)
    as (c' & Hm & _).
  unfold mbind, M_bind, bind. rewrite Hm. reflexivity.
Qed.

Lemma emptyCache_coherent : coherent fs emptyCache.
Proof. intros p a s. simpl. rewrite lookup_empty. discriminate. Qed.

End CachedReads.

(** ** The two comparison loops *)

Section ComparisonLoops.

Lemma comparePair_flow (a b : ContentEntry) (n : Z)
    (inst : list DuplicationInstance) :
  comparePair a b (n, inst) =
  if (maxComparisons <=? n + 1)%Z then Return inst
  else Continue ((n + 1)%Z, inst ++ pairInstances a b).
Proof.
  unfold pairInstances, comparePair.
  replace (maxComparisons <=? 0 + 1)%Z with false by reflexivity.
  destruct (maxComparisons <=? n + 1)%Z; [reflexivity|].
  repeat match goal with
         | |- context [if ?c then _ else _] => destruct c
         | |- context [match ?c with Some _ => _ | None => _ end] => destruct c
         end;
    rewrite ?app_nil_r; reflexivity.
Qed.

Lemma compareWithRest_scan (a : ContentEntry) (rest : list ContentEntry)
    (st : DupState) :
  compareWithRest a rest st = scanPairs (List.map (pair a) rest) st.
Proof.
  revert st. induction rest as [|b rest IH]; intros st; [reflexivity|].
  simpl. destruct (comparePair a b st); [apply IH | reflexivity].
Qed.

Lemma scanPairs_cons (a b : ContentEntry)
    (ps : list (ContentEntry * ContentEntry)) (st : DupState) :
  scanPairs ((a, b) :: ps) st =
  match comparePair a b st with
  | Continue st' => scanPairs ps st'
  | Return r => Return r
  end.
Proof. reflexivity. Qed.

Lemma scanPairs_app (p1 p2 : list (ContentEntry * ContentEntry)) (st : DupState) :
  scanPairs (p1 ++ p2) st =
  match scanPairs p1 st with
  | Continue st' => scanPairs p2 st'
  | Return r => Return r
  end.
Proof.
  revert st. induction p1 as [|[a b] p1 IH]; intros st; [reflexivity|].
  simpl. destruct (comparePair a b st); [apply IH | reflexivity].
Qed.

Lemma compareAll_scan (l : list ContentEntry) (st : DupState) :
  compareAll l st = scanPairs (allPairs l) st.
Proof.
  revert st. induction l as [|a rest IH]; intros st; [reflexivity|].
  simpl. rewrite scanPairs_app, compareWithRest_scan.
  destruct (scanPairs (List.map (pair a) rest) st); [apply IH | reflexivity].
Qed.

(** Below the cap every pair is compared. *)
Lemma scanPairs_under_cap (ps : list (ContentEntry * ContentEntry)) (n : Z)
    (inst : list DuplicationInstance) :
  (n + Z.of_nat (length ps) < maxComparisons)%Z ->
  scanPairs ps (n, inst) =
  Continue
    ((n + Z.of_nat (length ps))%Z,
     inst ++ flat_map (fun p => pairInstances (fst p) (snd p)) ps).
Proof.
  revert n inst. induction ps as [|[a b] ps IH]; intros n inst Hn.
  - simpl. rewrite Z.add_0_r, app_nil_r. reflexivity.
  - simpl length in *. rewrite scanPairs_cons, comparePair_flow.
    rewrite (proj2 (Z.leb_gt _ _)) by lia.
    rewrite IH by lia. simpl. rewrite <- app_assoc. do 2 f_equal. lia.
Qed.

(** Whatever the cap, what the scan adds comes from the pairs scanned. *)
Lemma scanPairs_extends (ps : list (ContentEntry * ContentEntry)) (n : Z)
    (inst : list DuplicationInstance) :
  exists extra,
    flowInstances (scanPairs ps (n, inst)) = inst ++ extra
    /\ forall d, In d extra ->
         exists p, In p ps /\ In d (pairInstances (fst p) (snd p)).
Proof.
  revert n inst. induction ps as [|[a b] ps IH]; intros n inst.
  - exists []. simpl. rewrite app_nil_r. split; [reflexivity | intros d []].
  - rewrite scanPairs_cons, comparePair_flow.
    destruct (maxComparisons <=? n + 1)%Z.
    + exists []. simpl. rewrite app_nil_r. split; [reflexivity | intros d []].
    + destruct (IH (n + 1)%Z (inst ++ pairInstances a b)) as (extra & He & Hin).
      exists (pairInstances a b ++ extra). rewrite He, <- app_assoc.
      split; [reflexivity|]. intros d Hd. apply in_app_iff in Hd.
      destruct Hd as [Hd|Hd].
      * exists (a, b). split; [left; reflexivity | exact Hd].
      * destruct (Hin d Hd) as (p & Hp & Hdp).
        exists p. split; [right; exact Hp | exact Hdp].
Qed.

Lemma pairInstances_files (a b : ContentEntry) (d : DuplicationInstance) :
  In d (pairInstances a b) ->
  files d = [path (ce_component a); path (ce_component b)].
Proof.
  unfold pairInstances, comparePair.
  replace (maxComparisons <=? 0 + 1)%Z with false by reflexivity.
  repeat match goal with
         | |- context [if ?c then _ else _] => destruct c
         | |- context [match ?c with Some _ => _ | None => _ end] => destruct c
         end;
    simpl; try tauto.
  intros [<-|[]]. reflexivity.
Qed.

End ComparisonLoops.

(** ** Identical files *)

Section IdenticalFiles.

Lemma Qdiv_same_pos (n : nat) :
  (0 < n)%nat ->
  (inject_Z (Z.of_nat n) / inject_Z (Z.of_nat n) == 1)%Q.
Proof.
  intros Hn. apply Qmult_inv_r. unfold Qeq. simpl. lia.
Qed.

(** Two entries with the same text of at least ten lines pass every filter
    and are reported with similarity 1. *)
Lemma pairInstances_identical (a b : ContentEntry) (x : string) :
  ce_content a = x -> ce_content b = x ->
  ce_lines a = JS.split "010" x -> ce_lines b = JS.split "010" x ->
  ce_hash a = hashCode x -> ce_hash b = hashCode x ->
  (minLines <= length (JS.split "010" x))%nat ->
  exists d, pairInstances a b = [d] /\ (similarityOf d == 1)%Q.
Proof.
  intros Hca Hcb Hla Hlb Hha Hhb Hlen.
  unfold pairInstances, comparePair.
  replace (maxComparisons <=? 0 + 1)%Z with false by reflexivity.
  rewrite Hla, Hlb, Hha, Hhb, Hca, Hcb.
  rewrite (proj2 (Nat.ltb_ge _ _) Hlen). simpl orb. cbv iota.
  rewrite Nat.min_id, Nat.max_id.
  assert (Hratio :
    Qle_bool sizeTolerance
      (inject_Z (Z.of_nat (length (JS.split "010" x)))
       / inject_Z (Z.of_nat (length (JS.split "010" x)))) = true).
  { apply Qle_bool_iff. rewrite Qdiv_same_pos by (unfold minLines in Hlen; lia).
    unfold sizeTolerance, Qle. simpl. lia. }
  rewrite Hratio. simpl negb. cbv iota.
  rewrite Z.sub_diag. simpl (100000 <? Z.abs 0)%Z. cbv iota.
  destruct (similarity_same x) as (q & Hq & Hq1).
  rewrite Hq.
  assert (Hsim : Qle_bool minSimilarity q = true).
  { apply Qle_bool_iff. rewrite Hq1. unfold minSimilarity, Qle. simpl. lia. }
  rewrite Hsim. eexists. split; [reflexivity | exact Hq1].
Qed.

End IdenticalFiles.

(** ** Position of a pair in the scan *)

Section PairOrder.

Context {A : Type}.

Lemma allPairs_app (l1 r : list A) :
  allPairs (l1 ++ r) = pairsFrom l1 r ++ allPairs r.
Proof.
  induction l1 as [|a l1 IH]; [reflexivity|].
  simpl. rewrite IH, app_assoc. reflexivity.
Qed.

Lemma allPairs_split (l1 l2 l3 : list A) (a b : A) :
  allPairs (l1 ++ a :: l2 ++ b :: l3) =
  (pairsFrom l1 (a :: l2 ++ b :: l3) ++ List.map (pair a) l2)
  ++ (a, b) :: (List.map (pair a) l3 ++ allPairs (l2 ++ b :: l3)).
Proof.
  rewrite allPairs_app. simpl allPairs.
  rewrite map_app. simpl List.map.
  rewrite <- !app_assoc. reflexivity.
Qed.

Lemma in_pairsFrom (l1 r : list A) (p : A * A) :
  In p (pairsFrom l1 r) -> In (fst p) l1.
Proof.
  induction l1 as [|a l1 IH]; simpl; [tauto|].
  rewrite in_app_iff, in_map_iff. intros [(y & <- & _)|Hp].
  - left. reflexivity.
  - right. apply IH, Hp.
Qed.

Lemma in_allPairs (l : list A) (p : A * A) :
  In p (allPairs l) -> In (fst p) l /\ In (snd p) l.
Proof.
  induction l as [|a l IH]; simpl; [tauto|].
  rewrite in_app_iff, in_map_iff. intros [(y & <- & Hy)|Hp].
  - simpl. tauto.
  - destruct (IH Hp). tauto.
Qed.

End PairOrder.

Section CountingLemmas.

Context {A : Type} (P : A -> Prop).

Lemma Counts_none (l : list A) :
  (forall x, In x l -> ~ P x) -> Counts P l 0.
Proof.
  induction l as [|x l IH]; intros Hl; [constructor|].
  apply Counts_no; [apply Hl; left; reflexivity|].
  apply IH. intros y Hy. apply Hl. right. exact Hy.
Qed.

Lemma Counts_app (l1 l2 : list A) (n1 n2 : nat) :
  Counts P l1 n1 -> Counts P l2 n2 -> Counts P (l1 ++ l2) (n1 + n2).
Proof.
  induction 1 as [|x l n Hx _ IH|x l n Hx _ IH]; intros H2; simpl.
  - exact H2.
  - apply Counts_yes; [exact Hx | exact (IH H2)].
  - apply Counts_no; [exact Hx | exact (IH H2)].
Qed.

End CountingLemmas.

(** ** A pair of identical files in the scan *)

Section ReportedOnce.

Lemma NoDup_split_keys {K : Type} (k1 k2 k3 : list K) (ka kb : K) :
  List.NoDup (k1 ++ ka :: k2 ++ kb :: k3) ->
  ka <> kb /\ forall k, In k (k1 ++ k2 ++ kb :: k3) -> k <> ka.
Proof.
  intros Hnd. apply NoDup_ListNoDup in Hnd.
  rewrite NoDup_app, NoDup_cons in Hnd.
  destruct Hnd as (_ & Hdisj & Hka & _).
  split.
  - intros ->. apply Hka. apply elem_of_app. right. left.
  - intros k Hk <-. apply list_elem_of_In in Hk.
    apply elem_of_app in Hk. destruct Hk as [Hk|Hk].
    + apply (Hdisj k Hk). left.
    + apply Hka. exact Hk.
Qed.

Lemma NoDup_second_key {K : Type} (k1 k2 k3 : list K) (ka kb : K) :
  List.NoDup (k1 ++ ka :: k2 ++ kb :: k3) ->
  forall k, In k (k1 ++ k2 ++ k3) -> k <> kb.
Proof.
  intros Hnd. apply NoDup_ListNoDup in Hnd.
  rewrite NoDup_app, NoDup_cons, NoDup_app, NoDup_cons in Hnd.
  destruct Hnd as (_ & Hdisj & _ & _ & Hdisj2 & Hkb & _).
  intros k Hk <-. apply list_elem_of_In in Hk.
  rewrite !elem_of_app in Hk. destruct Hk as [Hk|[Hk|Hk]].
  - apply (Hdisj k Hk). right. apply elem_of_app. right. left.
  - apply (Hdisj2 k Hk). left.
  - apply Hkb. exact Hk.
Qed.

Lemma length_pairsFrom {A B : Type} (l1 r : list A) (l1' r' : list B) :
  length l1 = length l1' -> length r = length r' ->
  length (pairsFrom l1 r) = length (pairsFrom l1' r').
Proof.
  revert l1'. induction l1 as [|a l1 IH]; intros [|a' l1'] Hl Hr;
    try discriminate; [reflexivity|].
  simpl in *. rewrite !length_app, !length_map, !length_app.
  rewrite (IH l1') by lia. lia.
Qed.

Context (L1 L2 L3 : list ContentEntry) (ea eb : ContentEntry).

Hypothesis Hnodup : List.NoDup (List.map entryKey (L1 ++ ea :: L2 ++ eb :: L3)).

Lemma other_pairs_differ (p : ContentEntry * ContentEntry)
    (d : DuplicationInstance) :
  In p (pairsFrom L1 (ea :: L2 ++ eb :: L3) ++ List.map (pair ea) L2)
  \/ In p (List.map (pair ea) L3 ++ allPairs (L2 ++ eb :: L3)) ->
  In d (pairInstances (fst p) (snd p)) ->
  ~ forPair (entryKey ea) (entryKey eb) d.
Proof.
  assert (Hkeys :
    List.NoDup (List.map entryKey L1 ++ entryKey ea :: List.map entryKey L2
                ++ entryKey eb :: List.map entryKey L3)).
  { revert Hnodup. rewrite map_app. simpl. rewrite map_app. simpl. tauto. }
  destruct (NoDup_split_keys _ _ _ _ _ Hkeys) as [Hab Hka].
  pose proof (NoDup_second_key _ _ _ _ _ Hkeys) as Hkb.
  assert (H1 : forall e, In e L1 -> entryKey e <> entryKey ea /\ entryKey e <> entryKey eb).
  { intros e He. split.
    - apply Hka. apply in_app_iff. left. apply (in_map entryKey). exact He.
    - apply Hkb. apply in_app_iff. left. apply (in_map entryKey). exact He. }
  assert (H2 : forall e, In e L2 -> entryKey e <> entryKey ea /\ entryKey e <> entryKey eb).
  { intros e He. split.
    - apply Hka. apply in_app_iff. right. apply in_app_iff. left.
      apply (in_map entryKey). exact He.
    - apply Hkb. apply in_app_iff. right. apply in_app_iff. left.
      apply (in_map entryKey). exact He. }
  assert (H3 : forall e, In e L3 -> entryKey e <> entryKey ea /\ entryKey e <> entryKey eb).
  { intros e He. split.
    - apply Hka. apply in_app_iff. right. apply in_app_iff. right. right.
      apply (in_map entryKey). exact He.
    - apply Hkb. apply in_app_iff. right. apply in_app_iff. right.
      apply (in_map entryKey). exact He. }
  assert (Htail : forall e, In e (L2 ++ eb :: L3) -> entryKey e <> entryKey ea).
  { intros e He. apply in_app_iff in He. destruct He as [He|[<-|He]].
    - apply H2, He.
    - congruence.
    - apply H3, He. }
  intros Hp Hd Hfor. apply pairInstances_files in Hd.
  unfold forPair in Hfor. rewrite Hd in Hfor.
  fold (entryKey (fst p)) in Hfor. fold (entryKey (snd p)) in Hfor.
  rewrite !in_app_iff, !in_map_iff in Hp.
  destruct Hp as [[Hp|(y & <- & Hy)]|[(y & <- & Hy)|Hp]]; simpl in *.
  - apply in_pairsFrom in Hp. destruct (H1 _ Hp).
    destruct Hfor as [[=]|[=]]; congruence.
  - destruct (H2 _ Hy). destruct Hfor as [[=]|[=]]; congruence.
  - destruct (H3 _ Hy). destruct Hfor as [[=]|[=]]; congruence.
  - apply in_allPairs in Hp. destruct Hp as [Hf Hs].
    pose proof (Htail _ Hf). pose proof (Htail _ Hs).
    destruct Hfor as [[=]|[=]]; congruence.
Qed.

Lemma scan_reports_once (d0 : DuplicationInstance) :
  pairInstances ea eb = [d0] ->
  (similarityOf d0 == 1)%Q ->
  (Z.of_nat (comparisonsBefore L1 L2 L3 ea eb) + 1 < maxComparisons)%Z ->
  reportsPairOnce (entryKey ea) (entryKey eb)
    (flowInstances (compareAll (L1 ++ ea :: L2 ++ eb :: L3) (0%Z, []))).
Proof.
  intros Hd0 Hsim Hcap.
  rewrite compareAll_scan, allPairs_split, scanPairs_app.
  set (PA := pairsFrom L1 (ea :: L2 ++ eb :: L3) ++ List.map (pair ea) L2) in *.
  set (PB := List.map (pair ea) L3 ++ allPairs (L2 ++ eb :: L3)) in *.
  assert (HlenA : length PA = comparisonsBefore L1 L2 L3 ea eb).
  { unfold PA, comparisonsBefore. rewrite length_app, length_map. reflexivity. }
  rewrite scanPairs_under_cap by (rewrite HlenA; lia).
  rewrite scanPairs_cons, comparePair_flow.
  rewrite (proj2 (Z.leb_gt _ _)) by (rewrite HlenA; lia).
  rewrite Hd0. simpl app at 1.
  set (instA := flat_map (fun p => pairInstances (fst p) (snd p)) PA).
  destruct (scanPairs_extends PB (0 + Z.of_nat (length PA) + 1)%Z (instA ++ [d0]))
    as (extra & -> & Hextra).
  assert (HA : forall d, In d instA -> ~ forPair (entryKey ea) (entryKey eb) d).
  { intros d Hd. apply in_flat_map in Hd. destruct Hd as (p & Hp & Hd).
    apply (other_pairs_differ p d); [left; exact Hp | exact Hd]. }
  assert (HB : forall d, In d extra -> ~ forPair (entryKey ea) (entryKey eb) d).
  { intros d Hd. destruct (Hextra d Hd) as (p & Hp & Hdp).
    apply (other_pairs_differ p d); [right; exact Hp | exact Hdp]. }
  assert (Hfiles : forPair (entryKey ea) (entryKey eb) d0).
  { left. apply (pairInstances_files ea eb). rewrite Hd0. left. reflexivity. }
  split.
  - change 1%nat with (0 + 1 + 0)%nat.
    apply Counts_app; [apply Counts_app|].
    + apply Counts_none, HA.
    + apply Counts_yes; [exact Hfiles | constructor].
    + apply Counts_none, HB.
  - intros d Hd Hfor. rewrite !in_app_iff in Hd.
    destruct Hd as [[Hd|[<-|[]]]|Hd].
    + destruct (HA d Hd Hfor).
    + exact Hsim.
    + destruct (HB d Hd Hfor).
Qed.

End ReportedOnce.

Lemma filter_split (p : ComponentInfo -> bool) (c1 c2 c3 : list ComponentInfo)
    (a b : ComponentInfo) :
  p a = true -> p b = true ->
  List.filter p (c1 ++ a :: c2 ++ b :: c3) =
  List.filter p c1 ++ a :: List.filter p c2 ++ b :: List.filter p c3.
Proof.
  intros Ha Hb. rewrite List.filter_app. simpl. rewrite Ha.
  rewrite List.filter_app. simpl. rewrite Hb. reflexivity.
Qed.

(** C5, as amended. In a catalog with unique paths, analysed from a cache
    that agrees with the file system, two components whose files are
    character-identical, at least 10 lines long, not test-marked and with
    [linesOfCode] at the threshold or above, and whose pair is reached
    before the cap on comparisons (fewer than 99,999 pairs of candidates
    are compared before it), are reported in exactly one duplication
    instance for that unordered pair, with similarity 1. *)
Theorem duplicate_pair_reported `{Host} (fs : FileSystem) (repoPath : string)
    (cache : Cache) (components c1 c2 c3 : list ComponentInfo)
    (a b : ComponentInfo) (x : string) :
  components = c1 ++ a :: c2 ++ b :: c3 ->
  identicalPair fs repoPath a b x ->
  coherent fs cache ->
  List.NoDup (List.map path (List.filter isLargeComponent components)) ->
  (Z.of_nat (comparisonsBefore (List.filter isLargeComponent c1)
               (List.filter isLargeComponent c2)
               (List.filter isLargeComponent c3) a b) + 1
   < maxComparisons)%Z ->
  reportsPairOnce (path a) (path b)
    (fst (detectDuplication fs components repoPath cache)).
Proof.
  intros -> (Hla & Hlb & Hfa & Hfb & Hlen) Hcoh Hnd Hcap.
  rewrite detectDuplication_coherent by exact Hcoh.
  rewrite filter_split in * by assumption.
  rewrite map_app. simpl List.map. rewrite map_app. simpl List.map.
  set (E := entryOf fs repoPath).
  destruct (pairInstances_identical (E a) (E b) x) as (d0 & Hd0 & Hsim);
    try reflexivity; try exact Hlen;
    try (unfold E, entryOf, contentOf; simpl; rewrite ?Hfa, ?Hfb; reflexivity).
  apply (scan_reports_once
           (List.map E (List.filter isLargeComponent c1))
           (List.map E (List.filter isLargeComponent c2))
           (List.map E (List.filter isLargeComponent c3))
           (E a) (E b)) with (d0 := d0).
  - rewrite map_app. simpl List.map. rewrite map_app. simpl List.map.
    rewrite !map_map. unfold entryKey, E. simpl.
    revert Hnd. rewrite map_app. simpl List.map. rewrite map_app. simpl. tauto.
  - exact Hd0.
  - exact Hsim.
  - unfold comparisonsBefore in *. rewrite length_map.
    rewrite (length_pairsFrom _ _ (List.filter isLargeComponent c1)
               (a :: List.filter isLargeComponent c2
                ++ b :: List.filter isLargeComponent c3)).
    + exact Hcap.
    + apply length_map.
    + simpl. rewrite !length_app. simpl. rewrite !length_map. reflexivity.
Qed.

Lemma duplicate_pair_reported_witness :
  reportsPairOnce "a.ts" "b.ts"
    (fst (detectDuplication (largeFs 1) (largeCatalog 1) "repo" emptyCache)).
Proof.
  apply (duplicate_pair_reported (largeFs 1) "repo" emptyCache (largeCatalog 1)
           [fillerComponent 0] [] []
           (mkComponent "a" "a.ts" [] 10) (mkComponent "b" "b.ts" [] 10)
           tenLines).
  - reflexivity.
  - repeat split; vm_compute; try reflexivity; lia.
  - apply emptyCache_coherent.
  - vm_compute. repeat constructor; simpl; intuition discriminate.
  - vm_compute. reflexivity.
Defined.

(** With 448 candidates the pair of the last two is the 100,128th: the
    detector returns before it is compared. *)
Lemma large_catalog_output :
  fst (detectDuplication (largeFs 446) (largeCatalog 446) "repo" emptyCache) = [].
Proof. vm_compute. reflexivity. Qed.

(** C5 as stated fails: the cap on comparisons ends the scan before the
    identical pair is reached. *)
Lemma duplicate_pair_beyond_cap :
  ~ duplicationClaim (largeFs 446) "repo" emptyCache (largeCatalog 446).
Proof.
  intros Hclaim.
  destruct (Hclaim (List.map fillerComponent (seq 0 446))
              (mkComponent "a" "a.ts" [] 10) []
              (mkComponent "b" "b.ts" [] 10) [] tenLines) as [Hcount _].
  - reflexivity.
  - repeat split; vm_compute; try reflexivity; lia.
  - rewrite large_catalog_output in Hcount. inversion Hcount.
Qed.


(** ** Cycle detector *)

Section Sorting.

Lemma sort_insert_length (x : string) (l : list string) :
  length (JS.sort_insert x l) = S (length l).
Proof.
  induction l as [|y l IH]; simpl; [reflexivity|].
  destruct (String.leb x y); simpl; [reflexivity | rewrite IH; reflexivity].
Qed.

Lemma sort_length (l : list string) : length (JS.sort l) = length l.
Proof.
  induction l as [|x l IH]; simpl; [reflexivity|].
  rewrite sort_insert_length, IH. reflexivity.
Qed.

Lemma sort_insert_in (x y : string) (l : list string) :
  In y (JS.sort_insert x l) <-> y = x \/ In y l.
Proof.
  induction l as [|z l IH]; simpl; [intuition congruence|].
  destruct (String.leb x z); simpl; [intuition congruence|].
  rewrite IH. intuition congruence.
Qed.

Lemma sort_in (y : string) (l : list string) : In y (JS.sort l) <-> In y l.
Proof.
  induction l as [|x l IH]; simpl; [reflexivity|].
  rewrite sort_insert_in, IH. intuition congruence.
Qed.

End Sorting.

Section DetectorInvariant.

(** A property of the entries that sorting an entry keeps and that every
    newly recorded entry has is kept by the whole search. *)
Context (Good : CircularDependency -> Prop).
Hypothesis Good_sort : forall cd, Good cd -> Good (sortCycle cd).

Lemma someSameKey_Forall (key : string) (cycles : list CircularDependency) :
  Forall Good cycles -> Forall Good (snd (someSameKey key cycles)).
Proof.
  induction 1 as [|c cycles Hc Hcs IH]; simpl; [constructor|].
  destruct (String.eqb _ key).
  - constructor; [apply Good_sort, Hc | exact Hcs].
  - destruct (someSameKey key cycles) as [found rest]. simpl in *.
    constructor; [apply Good_sort, Hc | exact IH].
Qed.

Lemma someSameKey_length (key : string) (cycles : list CircularDependency) :
  length (snd (someSameKey key cycles)) = length cycles.
Proof.
  induction cycles as [|c cycles IH]; simpl; [reflexivity|].
  destruct (String.eqb _ key); [reflexivity|].
  destruct (someSameKey key cycles) as [found rest]. simpl in *.
  rewrite IH. reflexivity.
Qed.

Lemma recordCycle_Forall (node : string) (path : list string)
    (cycles : list CircularDependency) :
  Good {| cycle := JS.sort (drop (JS.indexOf path node) path ++ [node]);
          severity :=
            if (length (JS.sort (drop (JS.indexOf path node) path ++ [node]))
                <=? 3)%nat then error else warning |} ->
  Forall Good cycles -> Forall Good (recordCycle node path cycles).
Proof.
  intros Hnew Hcycles. unfold recordCycle.
  pose proof (someSameKey_Forall
                (JS.join "->" (JS.sort (drop (JS.indexOf path node) path ++ [node])))
                cycles Hcycles) as Hsome.
  destruct (someSameKey _ cycles) as [found rest]. simpl in Hsome.
  destruct found; [exact Hsome|].
  apply Forall_app. split; [exact Hsome|].
  constructor; [exact Hnew | constructor].
Qed.

Lemma recordCycle_length (node : string) (path : list string)
    (cycles : list CircularDependency) :
  (length cycles <= length (recordCycle node path cycles))%nat.
Proof.
  unfold recordCycle.
  pose proof (someSameKey_length
                (JS.join "->" (JS.sort (drop (JS.indexOf path node) path ++ [node])))
                cycles) as Hlen.
  destruct (someSameKey _ cycles) as [found rest]. simpl in Hlen.
  destruct found; [lia|]. rewrite length_app. simpl. lia.
Qed.

End DetectorInvariant.

Lemma findCycles_unfold (fuel : nat) (graph : gmap string (list string))
    (node : string) (path : list string) (visited : gset string)
    (cycles : list CircularDependency) :
  findCycles (S fuel) graph node path (visited, cycles) =
  if bool_decide (node ∈ path)
  then Some (visited, recordCycle node path cycles)
  else if bool_decide (node ∈ visited) then Some (visited, cycles)
  else
    fold_left
      (fun st neighbor =>
         st ← st; findCycles fuel graph neighbor (path ++ [node]) st)
      (default [] (graph !! node)) (Some ({[node]} ∪ visited, cycles)).
Proof. reflexivity. Qed.

Section SearchInvariant.

(** An invariant of the search: [Inv path node] holds at every call, and
    every entry recorded under it is [Good]. *)
Context (graph : gmap string (list string)).
Context (Good : CircularDependency -> Prop) (Inv : list string -> string -> Prop).
Hypothesis Good_sort : forall cd, Good cd -> Good (sortCycle cd).
Hypothesis Inv_step : forall path node neighbor l,
  Inv path node -> graph !! node = Some l -> In neighbor l ->
  Inv (path ++ [node]) neighbor.
Hypothesis Inv_record : forall path node,
  Inv path node -> In node path ->
  Good {| cycle := JS.sort (drop (JS.indexOf path node) path ++ [node]);
          severity :=
            if (length (JS.sort (drop (JS.indexOf path node) path ++ [node]))
                <=? 3)%nat then error else warning |}.

Lemma fold_option_none {S X : Type} (f : S -> X -> option S) (l : list X) :
  fold_left (fun st x => st ← st; f st x) l None = None.
Proof. induction l as [|x l IH]; simpl; [reflexivity | exact IH]. Qed.

Lemma findCycles_invariant (fuel : nat) :
  forall node path st st',
    Inv path node ->
    Forall Good (snd st) ->
    findCycles fuel graph node path st = Some st' ->
    Forall Good (snd st').
Proof.
  induction fuel as [|fuel IH]; intros node path [visited cycles] st' Hinv Hst;
    [discriminate|].
  rewrite findCycles_unfold. simpl in Hst.
  destruct (bool_decide (node ∈ path)) eqn:Hin.
  - intros [= <-]. simpl.
    apply bool_decide_eq_true_1, list_elem_of_In in Hin.
    apply recordCycle_Forall;
      [exact Good_sort | apply Inv_record; assumption | exact Hst].
  - destruct (bool_decide (node ∈ visited)); [intros [= <-]; exact Hst|].
    generalize ({[node]} ∪ visited). intros visited'.
    assert (Hnb : forall n, In n (default [] (graph !! node)) ->
                            Inv (path ++ [node]) n).
    { intros n Hn. destruct (graph !! node) as [l|] eqn:Hl; [|destruct Hn].
      exact (Inv_step path node n l Hinv Hl Hn). }
    revert Hnb. generalize (default [] (graph !! node)). intros neighbors.
    revert visited' cycles Hst.
    induction neighbors as [|n neighbors IHn]; intros visited' cycles Hst Hnb.
    + simpl. intros [= <-]. exact Hst.
    + simpl.
      destruct (findCycles fuel graph n (path ++ [node]) (visited', cycles))
        as [[v1 c1]|] eqn:Hn.
      * apply IHn.
        -- exact (IH n (path ++ [node]) (visited', cycles) (v1, c1)
                    (Hnb n (or_introl eq_refl)) Hst Hn).
        -- intros m Hm. apply Hnb. right. exact Hm.
      * rewrite fold_option_none. discriminate.
Qed.

End SearchInvariant.

Section DetectInvariant.

Context (Good : CircularDependency -> Prop).
Hypothesis Good_sort : forall cd, Good cd -> Good (sortCycle cd).

(** What holds of every recorded entry holds of every reported entry. *)
Lemma detect_invariant (components : list ComponentInfo)
    (Inv : list string -> string -> Prop) (out : list CircularDependency) :
  (forall path node neighbor l,
     Inv path node ->
     buildDependencyGraph components !! node = Some l -> In neighbor l ->
     Inv (path ++ [node]) neighbor) ->
  (forall path node,
     Inv path node -> In node path ->
     Good {| cycle := JS.sort (drop (JS.indexOf path node) path ++ [node]);
             severity :=
               if (length (JS.sort (drop (JS.indexOf path node) path ++ [node]))
                   <=? 3)%nat then error else warning |}) ->
  (forall c, In c components -> Inv [] (path c)) ->
  detectCircularDependencies components = Some out ->
  Forall Good out.
Proof.
  intros Hstep Hrec. unfold detectCircularDependencies.
  generalize (S (length components)). intros fuel.
  set (graph := buildDependencyGraph components) in *.
  assert (Hgen : forall l acc,
    (forall c, In c l -> Inv [] (path c)) ->
    Forall Good acc ->
    fold_left
      (fun cycles c =>
         cycles ← cycles;
         snd <$> findCycles fuel graph (path c) [] (∅, cycles))
      l (Some acc) = Some out ->
    Forall Good out).
  { induction l as [|c l IHl]; intros acc Hl Hacc; simpl.
    - intros [= <-]. exact Hacc.
    - destruct (findCycles fuel graph (path c) [] (∅, acc)) as [[v cs]|] eqn:Hc;
        simpl.
      + apply IHl; [intros c' Hc'; apply Hl; right; exact Hc'|].
        exact (findCycles_invariant graph Good Inv Good_sort Hstep Hrec fuel
                 (path c) [] (∅, acc) (v, cs)
                 (Hl c (or_introl eq_refl)) Hacc Hc).
      + rewrite fold_option_none. discriminate. }
  intros Hstart. apply Hgen; [exact Hstart | constructor].
Qed.

End DetectInvariant.

(** Every reported entry is an [error] exactly when its list has at most
    three entries, the closing repeat included. *)
Lemma detect_severity (components : list ComponentInfo)
    (out : list CircularDependency) :
  detectCircularDependencies components = Some out ->
  Forall severityByLength out.
Proof.
  apply (detect_invariant severityByLength) with (Inv := fun _ _ => True).
  - intros cd. unfold severityByLength, sortCycle. simpl.
    rewrite sort_length. tauto.
  - trivial.
  - intros path node _ _. reflexivity.
  - trivial.
Qed.

(** ** The three-node cycle *)

Lemma findCycles_sole_neighbor (graph : gmap string (list string))
    (node next : string) (fuel : nat) (path : list string)
    (visited : gset string) (cycles : list CircularDependency) :
  graph !! node = Some [next] -> node ∉ path -> node ∉ visited ->
  findCycles (S fuel) graph node path (visited, cycles) =
  findCycles fuel graph next (path ++ [node]) ({[node]} ∪ visited, cycles).
Proof.
  intros Hg Hp Hv. rewrite findCycles_unfold.
  rewrite (bool_decide_eq_false_2 _ Hp), (bool_decide_eq_false_2 _ Hv), Hg.
  reflexivity.
Qed.

(** The search started at [X] goes round the cycle and closes it at [X]. *)
Lemma findCycles_triangle (graph : gmap string (list string)) (X Y Z : string)
    (fuel : nat) (cycles : list CircularDependency) :
  X <> Y -> Y <> Z -> Z <> X ->
  graph !! X = Some [Y] -> graph !! Y = Some [Z] -> graph !! Z = Some [X] ->
  exists visited,
    findCycles (S (S (S (S fuel)))) graph X [] (∅, cycles) =
    Some (visited, recordCycle X [X; Y; Z] cycles).
Proof.
  intros HXY HYZ HZX HgX HgY HgZ. eexists.
  rewrite (findCycles_sole_neighbor graph X Y) by (exact HgX || membership).
  rewrite (findCycles_sole_neighbor graph Y Z) by (exact HgY || membership).
  rewrite (findCycles_sole_neighbor graph Z X) by (exact HgZ || membership).
  rewrite findCycles_unfold.
  rewrite bool_decide_eq_true_2 by membership.
  reflexivity.
Qed.

Section TriangleEntries.

Context (A B C : string).

Lemma triangleEntry_sort (cd : CircularDependency) :
  triangleEntry A B C cd -> triangleEntry A B C (sortCycle cd).
Proof.
  intros (Hmem & Hlen & Hsev). unfold triangleEntry, cycleOf, sortCycle. simpl.
  rewrite sort_length. repeat split; try assumption.
  - intros Hx. apply Hmem, sort_in, Hx.
  - intros Hx. apply sort_in, Hmem, Hx.
Qed.

(** The entry recorded when the cycle is closed at [X], for [X -> Y -> Z] a
    rotation of [A -> B -> C]. *)
Lemma recordCycle_triangle (X Y Z : string) (cycles : list CircularDependency) :
  (forall x, In x [X; Y; Z] <-> In x [A; B; C]) ->
  Forall (triangleEntry A B C) cycles ->
  Forall (triangleEntry A B C) (recordCycle X [X; Y; Z] cycles)
  /\ recordCycle X [X; Y; Z] cycles <> [].
Proof.
  intros Hrot Hcycles. split.
  - apply recordCycle_Forall; [apply triangleEntry_sort | | exact Hcycles].
    replace (drop (JS.indexOf [X; Y; Z] X) [X; Y; Z] ++ [X]) with [X; Y; Z; X]
      by (simpl; rewrite String.eqb_refl; reflexivity).
    unfold triangleEntry, cycleOf. cbn [cycle severity].
    rewrite sort_length. simpl length. repeat split.
    + intros Hx. apply (proj1 (sort_in x _)) in Hx. apply (proj1 (Hrot x)).
      simpl in *. tauto.
    + intros Hx. apply (proj2 (sort_in x _)). apply (proj2 (Hrot x)) in Hx.
      simpl in *. tauto.
  - intros Hnil. pose proof (recordCycle_length X [X; Y; Z] cycles) as Hlen.
    rewrite Hnil in Hlen. destruct cycles as [|c cycles]; [|simpl in Hlen; lia].
    revert Hnil. unfold recordCycle. simpl someSameKey. cbv iota beta.
    discriminate.
Qed.

End TriangleEntries.

(** C1, as amended. For a catalog of three components whose dependency graph
    is the cycle A -> B -> C -> A, in whatever order the components are
    scanned, the cycle detector reports the cycle, and every entry it
    reports lists exactly A, B and C in four entries (the closing repeat
    included) and has severity [warning]. *)
Theorem three_cycle_reported (components : list ComponentInfo) (A B C : string) :
  Permutation (List.map path components) [A; B; C] ->
  A <> B -> B <> C -> C <> A ->
  buildDependencyGraph components !! A = Some [B] ->
  buildDependencyGraph components !! B = Some [C] ->
  buildDependencyGraph components !! C = Some [A] ->
  exists out,
    detectCircularDependencies components = Some out
    /\ out <> []
    /\ Forall (triangleEntry A B C) out.
Proof.
  intros Hperm HAB HBC HCA HgA HgB HgC.
  unfold detectCircularDependencies.
  assert (Hlen : length components = 3%nat).
  { rewrite <- (length_map path). apply (Permutation_length Hperm). }
  rewrite Hlen.
  assert (Hpaths : forall c, In c components -> In (path c) [A; B; C]).
  { intros c Hc. apply (Permutation_in _ Hperm). apply in_map. exact Hc. }
  set (graph := buildDependencyGraph components) in *.
  assert (Hstep : forall c cycles,
    In (path c) [A; B; C] ->
    Forall (triangleEntry A B C) cycles ->
    exists visited cycles',
      findCycles 4 graph (path c) [] (∅, cycles) = Some (visited, cycles')
      /\ cycles' <> [] /\ Forall (triangleEntry A B C) cycles').
  { intros c cycles Hc Hcycles. simpl in Hc.
    destruct Hc as [Hc|[Hc|[Hc|[]]]]; rewrite <- Hc.
    - destruct (findCycles_triangle graph A B C 0 cycles HAB HBC HCA HgA HgB HgC)
        as [v Hv].
      destruct (recordCycle_triangle A B C A B C cycles) as [HF Hne];
        [tauto | exact Hcycles |]. eauto.
    - destruct (findCycles_triangle graph B C A 0 cycles HBC HCA HAB HgB HgC HgA)
        as [v Hv].
      destruct (recordCycle_triangle A B C B C A cycles) as [HF Hne];
        [simpl; tauto | exact Hcycles |]. eauto.
    - destruct (findCycles_triangle graph C A B 0 cycles HCA HAB HBC HgC HgA HgB)
        as [v Hv].
      destruct (recordCycle_triangle A B C C A B cycles) as [HF Hne];
        [simpl; tauto | exact Hcycles |]. eauto. }
  assert (Hgen : forall l acc,
    (forall c, In c l -> In (path c) [A; B; C]) ->
    Forall (triangleEntry A B C) acc ->
    exists out,
      fold_left
        (fun cycles c =>
           cycles ← cycles;
           snd <$> findCycles 4 graph (path c) [] (∅, cycles))
        l (Some acc) = Some out
      /\ (l <> [] \/ acc <> [] -> out <> [])
      /\ Forall (triangleEntry A B C) out).
  { induction l as [|c l IHl]; intros acc Hl Hacc.
    - exists acc. simpl. split; [reflexivity|]. split; [tauto | exact Hacc].
    - destruct (Hstep c acc (Hl c (or_introl eq_refl)) Hacc)
        as (v & cs & Hc & Hne & HF).
      destruct (IHl cs) as (out & Hout & Hnonempty & HFout);
        [intros c' Hc'; apply Hl; right; exact Hc' | exact HF |].
      exists out. cbn [fold_left mbind option_bind]. rewrite Hc.
      split; [exact Hout|]. split; [|exact HFout].
      intros _. apply Hnonempty. right. exact Hne. }
  destruct (Hgen components [] Hpaths) as (out & Hout & Hne & HF);
    [constructor|].
  exists out. split; [exact Hout|]. split; [|exact HF].
  apply Hne. left. intros Hnil. rewrite Hnil in Hlen. discriminate.
Qed.

Lemma three_cycle_reported_witness :
  exists out,
    detectCircularDependencies threeCycleCatalog = Some out
    /\ out <> []
    /\ Forall (triangleEntry "a.ts" "b.ts" "c.ts") out.
Proof.
  apply (three_cycle_reported threeCycleCatalog "a.ts" "b.ts" "c.ts").
  - apply Permutation_refl.
  - discriminate.
  - discriminate.
  - discriminate.
  - vm_compute. reflexivity.
  - vm_compute. reflexivity.
  - vm_compute. reflexivity.
Defined.

Lemma three_cycle_output :
  detectCircularDependencies threeCycleCatalog =
  Some [ {| cycle := ["a.ts"; "a.ts"; "b.ts"; "c.ts"]; severity := warning |};
         {| cycle := ["a.ts"; "b.ts"; "b.ts"; "c.ts"]; severity := warning |};
         {| cycle := ["a.ts"; "b.ts"; "c.ts"; "c.ts"]; severity := warning |} ].
Proof. vm_compute. reflexivity. Qed.

Example three_cycle_other_order :
  detectCircularDependencies
    [ mkComponent "c" "c.ts" ["./a"] 20;
      mkComponent "a" "a.ts" ["./b"] 20;
      mkComponent "b" "b.ts" ["./c"] 20 ] =
  Some [ {| cycle := ["a.ts"; "b.ts"; "c.ts"; "c.ts"]; severity := warning |};
         {| cycle := ["a.ts"; "a.ts"; "b.ts"; "c.ts"]; severity := warning |};
         {| cycle := ["a.ts"; "b.ts"; "b.ts"; "c.ts"]; severity := warning |} ].
Proof. vm_compute. reflexivity. Qed.

(** C1 as stated fails: the cycle of three nodes is reported with severity
    [warning] (and, on this catalog, three times). *)
Lemma three_cycle_is_warning :
  ~ threeCycleClaim threeCycleCatalog "a.ts" "b.ts" "c.ts".
Proof.
  intros Hclaim. destruct Hclaim as (out & Hout & _ & Hsev).
  - repeat split; try discriminate.
    + exists ["b.ts"]. split; [vm_compute; reflexivity | left; reflexivity].
    + exists ["c.ts"]. split; [vm_compute; reflexivity | left; reflexivity].
    + exists ["a.ts"]. split; [vm_compute; reflexivity | left; reflexivity].
  - rewrite three_cycle_output in Hout. injection Hout as <-.
    specialize (Hsev _ (or_introl eq_refl)).
    assert (Hmem : cycleOf "a.ts" "b.ts" "c.ts"
              {| cycle := ["a.ts"; "a.ts"; "b.ts"; "c.ts"]; severity := warning |}).
    { intros x. simpl. tauto. }
    specialize (Hsev Hmem). discriminate.
Qed.

(** ** Reported cycles and walks *)

Lemma two_cycle_output :
  detectCircularDependencies twoCycleCatalog =
  Some [ {| cycle := ["a.ts"; "a.ts"; "b.ts"]; severity := error |};
         {| cycle := ["a.ts"; "b.ts"; "b.ts"]; severity := error |} ].
Proof. vm_compute. reflexivity. Qed.

(** C2 on the two-node cycle a.ts -> b.ts -> a.ts: the entries reported are
    the sorted arrays, which are not closed walks. *)
Theorem two_cycle_not_closed_walk : ~ cycleWalkClaim twoCycleCatalog.
Proof.
  intros Hclaim.
  destruct (Hclaim _ _ two_cycle_output (or_introl eq_refl))
    as (_ & _ & x & Hhead & Hlast).
  simpl in Hhead, Hlast. congruence.
Qed.

(** ** The search terminates within its fuel *)

Section Termination.

Lemma size_list_to_set_le (l : list string) :
  (size (list_to_set l : gset string) <= length l)%nat.
Proof.
  induction l as [|x l IH].
  - change (size (∅ : gset string) <= 0)%nat. rewrite size_empty. lia.
  - change (size ({[x]} ∪ list_to_set l : gset string) <= S (length l))%nat.
    rewrite size_union_alt, size_singleton.
    assert (size (list_to_set l ∖ {[x]} : gset string)
            <= size (list_to_set l : gset string))%nat
      by (apply subseteq_size; apply subseteq_difference_l; reflexivity).
    lia.
Qed.

Context (graph : gmap string (list string)) (nodes : gset string).
Hypothesis graph_closed :
  forall n l x, graph !! n = Some l -> In x l -> x ∈ nodes.

Lemma findCycles_total (fuel : nat) :
  forall node path visited cycles,
    node ∈ nodes ->
    (size (nodes ∖ visited) < fuel)%nat ->
    exists visited' cycles',
      findCycles fuel graph node path (visited, cycles) = Some (visited', cycles')
      /\ visited ⊆ visited'.
Proof.
  induction fuel as [|fuel IH]; intros node path visited cycles Hnode Hsize;
    [lia|].
  rewrite findCycles_unfold.
  destruct (bool_decide (node ∈ path)); [eexists _, _; split; reflexivity|].
  destruct (bool_decide (node ∈ visited)) eqn:Hvis;
    [eexists _, _; split; reflexivity|].
  apply bool_decide_eq_false_1 in Hvis.
  assert (Hless : (size (nodes ∖ ({[node]} ∪ visited)) < fuel)%nat).
  { assert (nodes ∖ ({[node]} ∪ visited) ⊂ nodes ∖ visited) as Hsub.
    { split.
      - intros x. rewrite !elem_of_difference, elem_of_union. tauto.
      - intros Hback. specialize (Hback node).
        rewrite !elem_of_difference, elem_of_union, elem_of_singleton in Hback.
        tauto. }
    apply subset_size in Hsub. lia. }
  assert (Hnb : forall n, In n (default [] (graph !! node)) -> n ∈ nodes).
  { intros n Hn. destruct (graph !! node) as [l|] eqn:Hl; [|destruct Hn].
    exact (graph_closed node l n Hl Hn). }
  assert (Hsub0 : visited ⊆ {[node]} ∪ visited)
    by (intros x; rewrite elem_of_union; tauto).
  revert Hnb Hless Hsub0.
  generalize (default [] (graph !! node)). generalize ({[node]} ∪ visited).
  intros v0 neighbors. revert v0 cycles.
  induction neighbors as [|n neighbors IHn]; intros v0 cycles Hnb Hless Hsub0.
  - exists v0, cycles. split; [reflexivity | exact Hsub0].
  - destruct (IH n (path ++ [node]) v0 cycles (Hnb n (or_introl eq_refl)) Hless)
      as (v1 & c1 & Hn & Hsub1).
    cbn [fold_left mbind option_bind]. rewrite Hn.
    apply IHn.
    + intros m Hm. apply Hnb. right. exact Hm.
    + assert (size (nodes ∖ v1) <= size (nodes ∖ v0))%nat; [|lia].
      apply subseteq_size. intros x. rewrite !elem_of_difference.
      intros [Hx Hnot]. split; [exact Hx|]. intros Hv0. apply Hnot, Hsub1, Hv0.
    + intros x Hx. apply Hsub1, Hsub0, Hx.
Qed.

End Termination.

Lemma buildDependencyGraph_closed (components : list ComponentInfo)
    (n : string) (l : list string) (x : string) :
  buildDependencyGraph components !! n = Some l -> In x l ->
  In x (List.map path components).
Proof.
  unfold buildDependencyGraph.
  assert (Hgen : forall cs (acc : gmap string (list string)),
    (forall n l, acc !! n = Some l ->
                 forall x, In x l -> In x (List.map path components)) ->
    forall n l,
      fold_left
        (fun graph c =>
           <[path c := omap (resolveDependency components) (dependencies c)]> graph)
        cs acc !! n = Some l ->
      forall x, In x l -> In x (List.map path components)).
  { induction cs as [|c cs IHcs]; intros acc Hacc; [exact Hacc|].
    simpl. apply IHcs. intros n' l'.
    destruct (decide (path c = n')) as [<-|Hne].
    - rewrite lookup_insert_eq. intros [= <-] y Hy.
      apply list_elem_of_In, list_elem_of_omap in Hy.
      destruct Hy as (dep & _ & Hdep). unfold resolveDependency in Hdep.
      destruct (List.find _ components) as [r|] eqn:Hfind; [|discriminate].
      injection Hdep as <-. apply find_some in Hfind.
      apply in_map. apply Hfind.
    - rewrite lookup_insert_ne by exact Hne. apply Hacc. }
  intros Hn Hx. apply (Hgen components ∅) with (n := n) (l := l); try assumption.
  intros n' l'. rewrite lookup_empty. discriminate.
Qed.

(** The cycle search never runs out of fuel. *)
Lemma detectCircularDependencies_total (components : list ComponentInfo) :
  exists out, detectCircularDependencies components = Some out.
Proof.
  unfold detectCircularDependencies.
  set (graph := buildDependencyGraph components).
  set (nodes := list_to_set (List.map path components) : gset string).
  assert (Hclosed : forall n l x, graph !! n = Some l -> In x l -> x ∈ nodes).
  { intros n l x Hn Hx. apply elem_of_list_to_set, list_elem_of_In.
    exact (buildDependencyGraph_closed components n l x Hn Hx). }
  assert (Hfuel : (size (nodes ∖ ∅) < S (length components))%nat).
  { assert (size (nodes ∖ ∅) <= size nodes)%nat
      by (apply subseteq_size; intros x; rewrite elem_of_difference; tauto).
    pose proof (size_list_to_set_le (List.map path components)) as Hle.
    rewrite length_map in Hle. fold nodes in Hle. lia. }
  revert Hfuel. generalize (S (length components)). intros fuel Hfuel.
  assert (Hgen : forall l acc,
    (forall c, In c l -> path c ∈ nodes) ->
    exists out,
      fold_left
        (fun cycles c =>
           cycles ← cycles;
           snd <$> findCycles fuel graph (path c) [] (∅, cycles))
        l (Some acc) = Some out).
  { induction l as [|c l IHl]; intros acc Hl; [exists acc; reflexivity|].
    destruct (findCycles_total graph nodes Hclosed fuel (path c) [] ∅ acc
                (Hl c (or_introl eq_refl)) Hfuel) as (v & cs & Hc & _).
    cbn [fold_left mbind option_bind]. rewrite Hc.
    apply IHl. intros c' Hc'. apply Hl. right. exact Hc'. }
  apply Hgen. intros c Hc.
  apply elem_of_list_to_set, list_elem_of_In, in_map, Hc.
Qed.

(** ** What the reported arrays are *)

Section SortedWalks.

Lemma sort_insert_perm (x : string) (l : list string) :
  Permutation (JS.sort_insert x l) (x :: l).
Proof.
  induction l as [|y l IH]; simpl; [reflexivity|].
  destruct (String.leb x y); [reflexivity|].
  rewrite IH. apply perm_swap.
Qed.

Lemma sort_perm (l : list string) : Permutation (JS.sort l) l.
Proof.
  induction l as [|x l IH]; simpl; [reflexivity|].
  rewrite sort_insert_perm, IH. reflexivity.
Qed.

Context (graph : gmap string (list string)).

Lemma consecutiveEdges_snoc (l : list string) (u v : string) :
  consecutiveEdges graph (l ++ [u]) -> isEdge graph u v ->
  consecutiveEdges graph ((l ++ [u]) ++ [v]).
Proof.
  intros Hl Huv. induction l as [|a l IH]; simpl in *; [tauto|].
  destruct (l ++ [u]) as [|b r] eqn:Hr; [destruct l; discriminate|].
  simpl. split; [apply Hl|]. apply IH, Hl.
Qed.

Lemma consecutiveEdges_drop (k : nat) (l : list string) :
  consecutiveEdges graph l -> consecutiveEdges graph (drop k l).
Proof.
  revert l. induction k as [|k IH]; intros l Hl; [rewrite drop_0; exact Hl|].
  destruct l as [|a l]; [exact I|]. simpl. apply IH.
  destruct l as [|b l]; [exact I | apply Hl].
Qed.

Lemma indexOf_lookup (path : list string) (node : string) :
  In node path -> path !! JS.indexOf path node = Some node.
Proof.
  induction path as [|y path IH]; simpl; [tauto|].
  destruct (String.eqb_spec y node) as [->|Hne]; [reflexivity|].
  intros [Hy|Hin]; [congruence | apply IH, Hin].
Qed.

(** The array built when [node] is met again on [path] is a closed walk. *)
Lemma recorded_walk_closed (path : list string) (node : string) :
  consecutiveEdges graph (path ++ [node]) -> In node path ->
  closedWalk graph (drop (JS.indexOf path node) path ++ [node]).
Proof.
  intros Hwalk Hin. pose proof (indexOf_lookup path node Hin) as Hk.
  pose proof (lookup_lt_Some _ _ _ Hk) as Hlt.
  destruct (drop (JS.indexOf path node) path) as [|h t] eqn:Hdrop.
  { apply (f_equal length) in Hdrop. rewrite length_drop in Hdrop.
    simpl in Hdrop. lia. }
  assert (Hh : h = node).
  { pose proof (lookup_drop path (JS.indexOf path node) 0) as Hd.
    rewrite Hdrop, Nat.add_0_r, Hk in Hd. simpl in Hd. congruence. }
  subst h. rewrite <- Hdrop. repeat split.
  - rewrite <- (drop_app_le path [node]) by lia.
    apply consecutiveEdges_drop, Hwalk.
  - rewrite length_app, Hdrop. simpl. lia.
  - exists node. rewrite Hdrop. split; [reflexivity|].
    rewrite last_snoc. reflexivity.
Qed.

End SortedWalks.

(** Every reported entry lists, in sorted order, the nodes of a closed walk
    of the dependency graph: the walk is the array the search builds, and
    sorting it in place for the key is what loses its order. *)
Lemma reported_cycle_sorted_walk (components : list ComponentInfo)
    (out : list CircularDependency) :
  detectCircularDependencies components = Some out ->
  Forall (walkEntry (buildDependencyGraph components)) out.
Proof.
  apply (detect_invariant (walkEntry (buildDependencyGraph components)))
    with (Inv := fun path node =>
                   consecutiveEdges (buildDependencyGraph components)
                     (path ++ [node])).
  - intros cd (walk & Hwalk & Hperm). exists walk. split; [exact Hwalk|].
    unfold sortCycle. simpl. rewrite sort_perm. exact Hperm.
  - intros path node neighbor l Hinv Hl Hn.
    apply consecutiveEdges_snoc; [exact Hinv|]. exists l. tauto.
  - intros path node Hinv Hin.
    exists (drop (JS.indexOf path node) path ++ [node]).
    split; [apply recorded_walk_closed; assumption|].
    simpl. apply sort_perm.
  - intros c _. exact I.
Qed.


(** ** Computations on the cache *)

Section CacheMonad.

Context `{Host}.

Lemma bind_run {A B : Type} (m : M A) (k : A -> M B) (c : Cache) :
  (m ≫= k) c = k (fst (m c)) (snd (m c)).
Proof.
  unfold mbind, M_bind, bind. destruct (m c) as [a c']. reflexivity.
Qed.

Lemma mapM_nil {A B : Type} (f : A -> M B) (c : Cache) :
  mapM f [] c = ([], c).
Proof. reflexivity. Qed.

Lemma mapM_cons {A B : Type} (f : A -> M B) (a : A) (l : list A) (c : Cache) :
  mapM f (a :: l) c =
  (fst (f a c) :: fst (mapM f l (snd (f a c))), snd (mapM f l (snd (f a c)))).
Proof. simpl. rewrite !bind_run. reflexivity. Qed.

Lemma mapM_app {A B : Type} (f : A -> M B) (l1 l2 : list A) (c : Cache) :
  mapM f (l1 ++ l2) c =
  (fst (mapM f l1 c) ++ fst (mapM f l2 (snd (mapM f l1 c))),
   snd (mapM f l2 (snd (mapM f l1 c)))).
Proof.
  revert c. induction l1 as [|a l1 IH]; intros c.
  - rewrite mapM_nil. simpl. destruct (mapM f l2 c). reflexivity.
  - change ((a :: l1) ++ l2) with (a :: (l1 ++ l2)).
    rewrite !mapM_cons, IH. reflexivity.
Qed.

(** A property of the cache kept by every step is kept by the traversal. *)
Lemma mapM_preserves {A B : Type} (f : A -> M B) (P : Cache -> Prop)
    (l : list A) (c : Cache) :
  (forall a c, P c -> P (snd (f a c))) -> P c -> P (snd (mapM f l c)).
Proof.
  intros Hf. revert c. induction l as [|a l IH]; intros c Hc; [exact Hc|].
  rewrite mapM_cons. simpl. apply IH, Hf, Hc.
Qed.

Lemma persists_refl (c : Cache) : persists c c.
Proof. split; auto. Qed.

Lemma persists_trans (c1 c2 c3 : Cache) :
  persists c1 c2 -> persists c2 c3 -> persists c1 c3.
Proof. intros [H1 H2] [H3 H4]. split; auto. Qed.

Context (fs : FileSystem).

Lemma getCachedFileContent_persists (p : string) (c : Cache) :
  persists c (snd (getCachedFileContent fs p c)).
Proof.
  unfold getCachedFileContent.
  destruct (fileCache c !! p) as [[|a s]|] eqn:Hp; [|apply persists_refl|];
    (destruct (fs p) as [content|]; [|apply persists_refl]);
    (split; simpl; [|auto]); intros q a' s' Hq;
    (destruct (decide (p = q)) as [<-|Hne];
     [congruence | rewrite lookup_insert_ne by exact Hne; exact Hq]).
Qed.

(** A cached non-empty text is returned without reading the file. *)
Lemma getCachedFileContent_cached (p : string) (c : Cache) (a : ascii)
    (s : string) :
  fileCache c !! p = Some (String a s) ->
  getCachedFileContent fs p c = (String a s, c).
Proof. intros Hp. unfold getCachedFileContent. rewrite Hp. reflexivity. Qed.

Context (repoPath : string).

Lemma readEntry_persists (x : ComponentInfo) (c : Cache) :
  persists c (snd (readEntry fs repoPath x c)).
Proof.
  unfold readEntry. rewrite bind_run. simpl. apply getCachedFileContent_persists.
Qed.

Lemma detectDuplication_persists (components : list ComponentInfo) (c : Cache) :
  persists c (snd (detectDuplication fs components repoPath c)).
Proof.
  unfold detectDuplication. rewrite bind_run. simpl.
  apply (mapM_preserves (readEntry fs repoPath) (persists c)); [|apply persists_refl].
  intros x c1 Hc1. apply (persists_trans _ _ _ Hc1), readEntry_persists.
Qed.

Lemma setAst_persists (p : string) (ast : AST) (c : Cache) :
  persists c (setAst p ast c).
Proof.
  split; simpl; [auto|]. intros q Hq.
  destruct (decide (p = q)) as [<-|Hne].
  - rewrite lookup_insert_eq. eauto.
  - rewrite lookup_insert_ne by exact Hne. exact Hq.
Qed.

Lemma analyzeComponentComplexity_persists (x : ComponentInfo) (c : Cache) :
  persists c (snd (analyzeComponentComplexity fs x repoPath c)).
Proof.
  unfold analyzeComponentComplexity. rewrite bind_run.
  pose proof (getCachedFileContent_persists (path_join repoPath (path x)) c) as Hget.
  destruct (getCachedFileContent fs (path_join repoPath (path x)) c)
    as [content c1]. simpl in *.
  destruct content as [|a s]; [exact Hget|].
  destruct (match astCache c1 !! path_join repoPath (path x) with
            | Some ast => Some ast
            | None => parse (String a s) (JS.endsWith (path x) "x")
            end) as [ast|]; [|exact Hget].
  destruct (extractFunctions ast (String a s)) as [[functions|] ast1];
    simpl; apply (persists_trans _ _ _ Hget), setAst_persists.
Qed.

Lemma calculateComplexity_persists (components : list ComponentInfo) (c : Cache) :
  persists c (snd (calculateComplexity fs components repoPath c)).
Proof.
  unfold calculateComplexity. rewrite bind_run. simpl.
  apply (mapM_preserves _ (persists c)); [|apply persists_refl].
  intros batch c1 Hc1. rewrite bind_run. simpl.
  apply (mapM_preserves _ (persists c)); [|exact Hc1].
  intros x c2 Hc2.
  apply (persists_trans _ _ _ Hc2), analyzeComponentComplexity_persists.
Qed.

Lemma analyzeArchitecture_persists (now : string)
    (components : list ComponentInfo) (c : Cache) :
  persists c (snd (analyzeArchitecture now fs components repoPath c)).
Proof.
  unfold analyzeArchitecture. rewrite !bind_run. simpl.
  apply (persists_trans _ _ _ (detectDuplication_persists components c)).
  apply calculateComplexity_persists.
Qed.

End CacheMonad.

(** C8, as amended. The content cache is state of the module, not of one
    invocation: [analyzeArchitecture] starts from the cache it is given by
    the previous invocation and removes nothing from it, so every non-empty
    cached text and every cached tree slot persists into the next
    invocation, where a cached non-empty text is used without reading the
    file; the cache is emptied only by [clearAnalysisCache]. *)
Theorem cache_persists_across_runs `{Host} (now : string) (fs : FileSystem)
    (components : list ComponentInfo) (repoPath : string) (c : Cache) :
  persists c (snd (analyzeArchitecture now fs components repoPath c))
  /\ (forall fs' p a s,
        fileCache (snd (analyzeArchitecture now fs components repoPath c)) !! p
          = Some (String a s) ->
        getCachedFileContent fs' p
          (snd (analyzeArchitecture now fs components repoPath c))
        = (String a s, snd (analyzeArchitecture now fs components repoPath c)))
  /\ clearAnalysisCache (snd (analyzeArchitecture now fs components repoPath c))
     = emptyCache.
Proof.
  split; [apply analyzeArchitecture_persists|].
  split; [|reflexivity].
  intros fs' p a s Hp. apply getCachedFileContent_cached, Hp.
Qed.

Lemma stale_run_output :
  (duplication <$>
     fst (analyzeArchitecture "t" noFiles pairCatalog "repo"
            (snd (analyzeArchitecture "t" (largeFs 0) pairCatalog "repo"
                    emptyCache))))
  <> (duplication <$>
        fst (analyzeArchitecture "t" noFiles pairCatalog "repo" emptyCache)).
Proof. vm_compute. discriminate. Qed.

(** C8 as stated fails: after a first run, a second run on files that have
    become unreadable still reports the duplication found in the first. *)
Lemma cache_outlives_run : ~ @cacheLifecycleClaim sampleHost.
Proof.
  intros Hclaim.
  destruct (Hclaim "t" (largeFs 0) noFiles pairCatalog "repo") as [_ Hsame].
  apply stale_run_output. rewrite Hsame. reflexivity.
Qed.

Lemma cache_persists_across_runs_witness :
  getCachedFileContent noFiles "repo/a.ts"
    (snd (analyzeArchitecture "t" (largeFs 0) pairCatalog "repo" emptyCache))
  = (tenLines,
     snd (analyzeArchitecture "t" (largeFs 0) pairCatalog "repo" emptyCache)).
Proof.
  apply (proj1 (proj2 (cache_persists_across_runs "t" (largeFs 0) pairCatalog
                         "repo" emptyCache)) noFiles "repo/a.ts" "/"%char).
  vm_compute. reflexivity.
Defined.

(** ** Unreadable files *)

Section UnreadableFiles.

Context `{Host} (fs : FileSystem) (repoPath : string) (p : string).

Lemma getCachedFileContent_fails (c : Cache) :
  readFails fs c p -> getCachedFileContent fs p c = (EmptyString, c).
Proof.
  intros [Hfs Hc]. unfold getCachedFileContent.
  destruct (fileCache c !! p) as [[|a s]|] eqn:Hp; rewrite ?Hfs; try reflexivity.
  destruct (Hc a s). reflexivity.
Qed.

(** A read of any file leaves the failing read failing. *)
Lemma getCachedFileContent_keeps_failing (q : string) (c : Cache) :
  readFails fs c p -> readFails fs (snd (getCachedFileContent fs q c)) p.
Proof.
  intros [Hfs Hc]. split; [exact Hfs|]. unfold getCachedFileContent.
  destruct (fileCache c !! q) as [[|a s]|] eqn:Hq; try exact Hc;
    (destruct (fs q) as [content|] eqn:Hfq; [|exact Hc]); simpl;
    intros a' s'; (destruct (decide (q = p)) as [->|Hne];
      [congruence | rewrite lookup_insert_ne by exact Hne; apply Hc]).
Qed.

Lemma readEntry_keeps_failing (x : ComponentInfo) (c : Cache) :
  readFails fs c p -> readFails fs (snd (readEntry fs repoPath x c)) p.
Proof.
  intros Hc. unfold readEntry. rewrite bind_run. simpl.
  apply getCachedFileContent_keeps_failing, Hc.
Qed.

Lemma readEntry_emptyAt (x : ComponentInfo) (c : Cache) :
  readFails fs c p -> emptyAt repoPath p (fst (readEntry fs repoPath x c)).
Proof.
  intros Hc. unfold readEntry. rewrite bind_run. simpl.
  split; [reflexivity|]. simpl. intros ->.
  rewrite getCachedFileContent_fails by exact Hc. reflexivity.
Qed.

Lemma mapM_readEntry_emptyAt (l : list ComponentInfo) (c : Cache) :
  readFails fs c p ->
  Forall (emptyAt repoPath p) (fst (mapM (readEntry fs repoPath) l c)).
Proof.
  revert c. induction l as [|x l IH]; intros c Hc; [constructor|].
  rewrite mapM_cons. simpl. constructor.
  - apply readEntry_emptyAt, Hc.
  - apply IH, readEntry_keeps_failing, Hc.
Qed.

Lemma analyzeComponentComplexity_fails (x : ComponentInfo) (c : Cache) :
  path_join repoPath (path x) = p -> readFails fs c p ->
  analyzeComponentComplexity fs x repoPath c = ([], c).
Proof.
  intros Hp Hc. unfold analyzeComponentComplexity.
  rewrite (bind_run (H := H)), Hp.
  rewrite getCachedFileContent_fails by exact Hc. reflexivity.
Qed.

Lemma analyzeComponentComplexity_keeps_failing (x : ComponentInfo) (c : Cache) :
  readFails fs c p ->
  readFails fs (snd (analyzeComponentComplexity fs x repoPath c)) p.
Proof.
  intros Hc. unfold analyzeComponentComplexity. rewrite (bind_run (H := H)).
  pose proof (getCachedFileContent_keeps_failing (path_join repoPath (path x)) c Hc)
    as Hget.
  destruct (getCachedFileContent fs (path_join repoPath (path x)) c)
    as [content c1]. simpl in *.
  destruct content as [|a s]; [exact Hget|].
  destruct (match astCache c1 !! path_join repoPath (path x) with
            | Some ast => Some ast
            | None => parse (String a s) (JS.endsWith (path x) "x")
            end) as [ast|]; [|exact Hget].
  destruct (extractFunctions ast (String a s)) as [[functions|] ast1];
    simpl; exact Hget.
Qed.

End UnreadableFiles.

Section ComparisonFilters.

Lemma pairInstances_lines (a b : ContentEntry) (d : DuplicationInstance) :
  In d (pairInstances a b) ->
  (minLines <= length (ce_lines a))%nat /\ (minLines <= length (ce_lines b))%nat.
Proof.
  unfold pairInstances, comparePair.
  replace (maxComparisons <=? 0 + 1)%Z with false by reflexivity.
  destruct (Nat.ltb_spec (length (ce_lines a)) minLines);
    destruct (Nat.ltb_spec (length (ce_lines b)) minLines);
    simpl; tauto.
Qed.

Lemma split_empty : JS.split "010" EmptyString = [EmptyString].
Proof. reflexivity. Qed.

End ComparisonFilters.

Section Batches.

Context `{Host}.

Lemma batches_concat (n : nat) (l : list ComponentInfo) :
  (length l <= n)%nat -> concat (batches n l) = l.
Proof.
  revert l. induction n as [|n IH]; intros l Hl.
  - destruct l; [reflexivity | simpl in Hl; lia].
  - destruct l as [|x l]; [reflexivity|].
    change (batches (S n) (x :: l))
      with (take batchSize (x :: l) :: batches n (drop batchSize (x :: l))).
    rewrite concat_cons, IH.
    + apply take_drop.
    + rewrite length_drop. simpl in *. unfold batchSize. lia.
Qed.

(** Analysing batch after batch is analysing the components one after the
    other. *)
Lemma mapM_batches {B : Type} (f : ComponentInfo -> M (list B))
    (bs : list (list ComponentInfo)) (c : Cache) :
  (concat (fst (mapM (fun batch => ms ← mapM f batch; mret (concat ms)) bs c)),
   snd (mapM (fun batch => ms ← mapM f batch; mret (concat ms)) bs c))
  = (concat (fst (mapM f (concat bs) c)), snd (mapM f (concat bs) c)).
Proof.
  assert (HF : forall b c,
    (ms ← mapM f b; mret (concat ms)) c
    = (concat (fst (mapM f b c)), snd (mapM f b c))).
  { intros b c0. rewrite (bind_run (H := H)). reflexivity. }
  revert c. induction bs as [|b bs IH]; intros c; [reflexivity|].
  rewrite mapM_cons, HF. cbn [fst snd].
  rewrite (concat_cons b bs), mapM_app. cbn [fst snd].
  specialize (IH (snd (mapM f b c))). injection IH as IH1 IH2.
  rewrite concat_cons, IH1, IH2, concat_app. reflexivity.
Qed.

Lemma calculateComplexity_sequential (fs : FileSystem)
    (components : list ComponentInfo) (repoPath : string) (c : Cache) :
  calculateComplexity fs components repoPath c =
  (concat (fst (mapM (fun x => analyzeComponentComplexity fs x repoPath)
                  components c)),
   snd (mapM (fun x => analyzeComponentComplexity fs x repoPath) components c)).
Proof.
  unfold calculateComplexity. rewrite (bind_run (H := H)).
  change ((mret ?x : M _) ?c) with (x, c).
  pose proof (mapM_batches (fun x => analyzeComponentComplexity fs x repoPath)
                (batches (length components) components) c) as Hb.
  rewrite batches_concat in Hb by lia. exact Hb.
Qed.

End Batches.

Section UnreadableComponent.

Context `{Host} (fs : FileSystem) (repoPath : string) (x : ComponentInfo).

Lemma detectDuplication_skips_unreadable (components : list ComponentInfo)
    (c : Cache) (d : DuplicationInstance) :
  readFails fs c (path_join repoPath (path x)) ->
  In d (fst (detectDuplication fs components repoPath c)) ->
  ~ In (path x) (files d).
Proof.
  intros Hc. unfold detectDuplication. rewrite (bind_run (H := H)).
  change ((mret ?v : M _) ?s) with (v, s). cbn [fst].
  pose proof (mapM_readEntry_emptyAt fs repoPath (path_join repoPath (path x))
                (List.filter isLargeComponent components) c Hc) as Hes.
  set (es := fst (mapM (readEntry fs repoPath)
                    (List.filter isLargeComponent components) c)) in *.
  change (match compareAll es (0%Z, []) with
          | Continue (_, instances) => instances
          | Return instances => instances
          end) with (flowInstances (compareAll es (0%Z, []))).
  rewrite compareAll_scan.
  destruct (scanPairs_extends (allPairs es) 0 []) as (extra & -> & Hextra).
  simpl. intros Hd Hin.
  destruct (Hextra d Hd) as ([a b] & Hp & Hdp). simpl in Hdp.
  apply in_allPairs in Hp. destruct Hp as [Ha Hb]. simpl in Ha, Hb.
  rewrite List.Forall_forall in Hes.
  pose proof (pairInstances_lines a b d Hdp) as [Hla Hlb].
  rewrite (pairInstances_files a b d Hdp) in Hin.
  assert (Hshort : forall e,
    In e es -> path x = path (ce_component e) ->
    (minLines <= length (ce_lines e))%nat -> False).
  { intros e He Hpath Hlen. destruct (Hes e He) as [Hlines Hempty].
    rewrite Hlines, Hempty in Hlen by (rewrite Hpath; reflexivity).
    rewrite split_empty in Hlen. unfold minLines in Hlen. simpl in Hlen. lia. }
  destruct Hin as [Hin|[Hin|[]]].
  - exact (Hshort a Ha (eq_sym Hin) Hla).
  - exact (Hshort b Hb (eq_sym Hin) Hlb).
Qed.

Lemma calculateComplexity_skips_unreadable (l1 l2 : list ComponentInfo)
    (c : Cache) :
  readFails fs c (path_join repoPath (path x)) ->
  calculateComplexity fs (l1 ++ x :: l2) repoPath c =
  calculateComplexity fs (l1 ++ l2) repoPath c.
Proof.
  intros Hc. rewrite !calculateComplexity_sequential, !mapM_app, mapM_cons.
  cbn [fst snd].
  assert (Hc1 : readFails fs
            (snd (mapM (fun y => analyzeComponentComplexity fs y repoPath) l1 c))
            (path_join repoPath (path x))).
  { apply (mapM_preserves (fun y => analyzeComponentComplexity fs y repoPath)
             (fun c0 => readFails fs c0 (path_join repoPath (path x)))).
    - intros y c0. apply analyzeComponentComplexity_keeps_failing.
    - exact Hc. }
  rewrite (analyzeComponentComplexity_fails fs repoPath _ x _ eq_refl Hc1).
  cbn [fst snd]. rewrite !concat_app, concat_cons. reflexivity.
Qed.

End UnreadableComponent.

Section UnreadableAmongPairs.

Lemma pairInstances_short_l (a b : ContentEntry) :
  (length (ce_lines a) < minLines)%nat -> pairInstances a b = [].
Proof.
  intros Hshort. destruct (pairInstances a b) as [|d ds] eqn:Hd; [reflexivity|].
  destruct (pairInstances_lines a b d) as [Ha _]; [rewrite Hd; left; reflexivity|].
  lia.
Qed.

Lemma pairInstances_short_r (a b : ContentEntry) :
  (length (ce_lines b) < minLines)%nat -> pairInstances a b = [].
Proof.
  intros Hshort. destruct (pairInstances a b) as [|d ds] eqn:Hd; [reflexivity|].
  destruct (pairInstances_lines a b d) as [_ Hb]; [rewrite Hd; left; reflexivity|].
  lia.
Qed.

Lemma length_allPairs_remove {A : Type} (l1 l2 : list A) (x : A) :
  (length (allPairs (l1 ++ l2)) <= length (allPairs (l1 ++ x :: l2)))%nat.
Proof.
  induction l1 as [|a l1 IH]; simpl.
  - rewrite length_app. lia.
  - rewrite !length_app, !length_map, !length_app. simpl. lia.
Qed.

(** Pairs with an entry of fewer than ten lines add nothing. *)
Lemma flat_map_pairs_remove (E1 E2 : list ContentEntry) (ex : ContentEntry) :
  (length (ce_lines ex) < minLines)%nat ->
  flat_map (fun p => pairInstances (fst p) (snd p)) (allPairs (E1 ++ ex :: E2))
  = flat_map (fun p => pairInstances (fst p) (snd p)) (allPairs (E1 ++ E2)).
Proof.
  intros Hshort.
  assert (Hfirst : forall E,
    flat_map (fun p => pairInstances (fst p) (snd p)) (List.map (pair ex) E) = []).
  { induction E as [|e E IHE]; [reflexivity|].
    simpl. rewrite pairInstances_short_l by exact Hshort. exact IHE. }
  induction E1 as [|e E1 IH]; simpl.
  - rewrite flat_map_app, Hfirst. reflexivity.
  - rewrite !flat_map_app, IH. f_equal.
    rewrite !map_app, !flat_map_app. simpl.
    rewrite pairInstances_short_r by exact Hshort. reflexivity.
Qed.

End UnreadableAmongPairs.

Section UnreadableBelowCap.

Context `{Host} (fs : FileSystem) (repoPath : string) (x : ComponentInfo).

Lemma detectDuplication_entries (components : list ComponentInfo) (c : Cache) :
  fst (detectDuplication fs components repoPath c) =
  flowInstances
    (scanPairs
       (allPairs (fst (mapM (readEntry fs repoPath)
                         (List.filter isLargeComponent components) c)))
       (0%Z, [])).
Proof.
  unfold detectDuplication. rewrite (bind_run (H := H)).
  change ((mret ?v : M _) ?s) with (v, s). cbn [fst].
  rewrite <- compareAll_scan. reflexivity.
Qed.

Lemma length_mapM {A B : Type} (f : A -> M B) (l : list A) (c : Cache) :
  length (fst (mapM f l c)) = length l.
Proof.
  revert c. induction l as [|a l IH]; intros c; [reflexivity|].
  rewrite mapM_cons. simpl. rewrite IH. reflexivity.
Qed.

(** Below the cap, the duplication engine reports for the other components
    what it reports without the unreadable one. *)
Lemma detectDuplication_without_unreadable (l1 l2 : list ComponentInfo)
    (c : Cache) :
  readFails fs c (path_join repoPath (path x)) ->
  (Z.of_nat (length (allPairs (List.filter isLargeComponent (l1 ++ x :: l2))))
   < maxComparisons)%Z ->
  fst (detectDuplication fs (l1 ++ x :: l2) repoPath c) =
  fst (detectDuplication fs (l1 ++ l2) repoPath c).
Proof.
  intros Hc Hcap. rewrite !detectDuplication_entries.
  rewrite !List.filter_app in *. simpl List.filter in *.
  destruct (isLargeComponent x); [|reflexivity].
  set (f1 := List.filter isLargeComponent l1) in *.
  set (f2 := List.filter isLargeComponent l2) in *.
  rewrite !mapM_app, mapM_cons. cbn [fst snd].
  assert (Hc1 : readFails fs (snd (mapM (readEntry fs repoPath) f1 c))
                  (path_join repoPath (path x))).
  { apply (mapM_preserves (readEntry fs repoPath)
             (fun c0 => readFails fs c0 (path_join repoPath (path x)))).
    - intros y c0. apply readEntry_keeps_failing.
    - exact Hc. }
  set (c1 := snd (mapM (readEntry fs repoPath) f1 c)) in *.
  assert (Hx : readEntry fs repoPath x c1 = (fst (readEntry fs repoPath x c1), c1)).
  { unfold readEntry. rewrite (bind_run (H := H)).
    rewrite getCachedFileContent_fails by exact Hc1. reflexivity. }
  rewrite Hx. cbn [fst snd].
  set (E1 := fst (mapM (readEntry fs repoPath) f1 c)) in *.
  set (E2 := fst (mapM (readEntry fs repoPath) f2 c1)) in *.
  set (ex := fst (readEntry fs repoPath x c1)) in *.
  assert (Hshort : (length (ce_lines ex) < minLines)%nat).
  { destruct (readEntry_emptyAt fs repoPath (path_join repoPath (path x)) x c1 Hc1)
      as [Hlines Hempty].
    fold ex in Hlines, Hempty. rewrite Hlines, Hempty.
    - rewrite split_empty. unfold minLines. simpl. lia.
    - subst ex. unfold readEntry. rewrite (bind_run (H := H)). reflexivity. }
  assert (Hlen : length (allPairs (E1 ++ ex :: E2))
                 = length (allPairs (f1 ++ x :: f2))).
  { assert (Hgen : forall (A B : Type) (l : list A) (l' : list B),
              length l = length l' -> length (allPairs l) = length (allPairs l')).
    { intros A B l. induction l as [|a l IHl]; intros [|b l'] Hl;
        try discriminate; [reflexivity|].
      simpl in *. rewrite !length_app, !length_map.
      rewrite (IHl l') by lia. lia. }
    apply Hgen. rewrite !length_app. simpl. subst E1 E2.
    rewrite !length_mapM. reflexivity. }
  rewrite !scanPairs_under_cap.
  - simpl. apply flat_map_pairs_remove, Hshort.
  - pose proof (length_allPairs_remove E1 E2 ex). lia.
  - lia.
Qed.

End UnreadableBelowCap.

(** The analysis always returns a report. *)
Lemma analyzeArchitecture_returns `{Host} (now : string) (fs : FileSystem)
    (components : list ComponentInfo) (repoPath : string) (c : Cache) :
  exists report,
    fst (analyzeArchitecture now fs components repoPath c) = Some report.
Proof.
  unfold analyzeArchitecture. rewrite !(bind_run (H := H)).
  change ((mret ?v : M _) ?s) with (v, s). cbn [fst].
  destruct (detectCircularDependencies_total components) as [out ->].
  eexists. reflexivity.
Qed.

(** ** What a run reports for the other components *)

Section CoherentRun.

Context `{Host} (fs : FileSystem) (repoPath : string).

Lemma getCachedFileContent_astCache (p : string) (c : Cache) :
  astCache (snd (getCachedFileContent fs p c)) = astCache c.
Proof.
  unfold getCachedFileContent.
  destruct (fileCache c !! p) as [[| a s] |]; try reflexivity;
    destruct (fs p); reflexivity.
Qed.

Lemma detectDuplication_astCache (components : list ComponentInfo) (c : Cache) :
  astCache (snd (detectDuplication fs components repoPath c)) = astCache c.
Proof.
  unfold detectDuplication. rewrite (bind_run (H := H)).
  change ((mret ?v : M _) ?s) with (v, s). cbn [snd].
  apply (mapM_preserves (readEntry fs repoPath)
           (fun c' => astCache c' = astCache c)); [| reflexivity].
  intros a c1 Hc1. unfold readEntry. rewrite (bind_run (H := H)).
  change ((mret ?v : M _) ?s) with (v, s). cbn [snd].
  rewrite getCachedFileContent_astCache. exact Hc1.
Qed.

Lemma detectDuplication_keeps_coherent (components : list ComponentInfo)
    (c : Cache) :
  coherent fs c -> coherent fs (snd (detectDuplication fs components repoPath c)).
Proof.
  intros Hc.
  destruct (mapM_readEntry_coherent fs repoPath
              (List.filter isLargeComponent components) c Hc)
    as (c' & Hrun & Hc').
  unfold detectDuplication. rewrite (bind_run (H := H)), Hrun. exact Hc'.
Qed.

(** From a cache that agrees with the file system and holds no tree for the
    file, a component gets the metrics of reading, parsing and walking its
    file. *)
Lemma coherent_component (y : ComponentInfo) (c : Cache) :
  coherent fs c ->
  astCache c !! path_join repoPath (path y) = None ->
  fs (path_join repoPath (path y)) <> Some EmptyString ->
  fst (analyzeComponentComplexity fs y repoPath c)
  = Baseline.analyzeComponent fs repoPath y
  /\ coherent fs (snd (analyzeComponentComplexity fs y repoPath c))
  /\ forall q,
       q <> path_join repoPath (path y) ->
       astCache (snd (analyzeComponentComplexity fs y repoPath c)) !! q
       = astCache c !! q.
Proof.
  intros Hc Hast Hne.
  destruct (getCachedFileContent_coherent fs (path_join repoPath (path y)) c Hc)
    as (c' & Hrun & Hc').
  pose proof (getCachedFileContent_astCache (path_join repoPath (path y)) c)
    as Hsame.
  rewrite Hrun in Hsame. cbn [snd] in Hsame.
  unfold analyzeComponentComplexity, Baseline.analyzeComponent.
  rewrite (bind_run (H := H)), Hrun. cbn [fst snd]. unfold contentOf.
  destruct (fs (path_join repoPath (path y))) as [[| a s] |] eqn:Hfs.
  - congruence.
  - unfold default, from_option, id. cbv beta iota. rewrite Hsame, Hast.
    destruct (parse (String a s) (JS.endsWith (path y) "x")) as [ast |].
    + destruct (extractFunctions ast (String a s)) as [[functions |] ast'];
        cbn [fst snd]; (split; [reflexivity |]); (split; [exact Hc' |]);
        intros q Hq; cbn [setAst astCache];
        rewrite lookup_insert_ne by congruence; rewrite Hsame; reflexivity.
    + cbn [fst snd]. split; [reflexivity |]. split; [exact Hc' |].
      intros q _. rewrite Hsame. reflexivity.
  - unfold default, from_option, id. cbv beta iota.
    change ((mret ?v : M _) ?s) with (v, s). cbn [fst snd].
    split; [reflexivity |]. split; [exact Hc' |].
    intros q _. rewrite Hsame. reflexivity.
Qed.

Lemma coherent_run (components : list ComponentInfo) (c : Cache) :
  coherent fs c ->
  List.NoDup (List.map (fun y => path_join repoPath (path y)) components) ->
  (forall y, In y components ->
     astCache c !! path_join repoPath (path y) = None
     /\ fs (path_join repoPath (path y)) <> Some EmptyString) ->
  concat (fst (mapM (fun y => analyzeComponentComplexity fs y repoPath)
                 components c))
  = flat_map (Baseline.analyzeComponent fs repoPath) components.
Proof.
  revert c. induction components as [| y rest IH]; intros c Hc Hnodup Hfresh;
    [reflexivity |].
  rewrite mapM_cons. cbn [fst concat flat_map].
  inversion Hnodup as [| ? ? Hy Hrest]; subst.
  destruct (Hfresh y (or_introl eq_refl)) as [Hast Hne].
  destruct (coherent_component y c Hc Hast Hne) as (Hsame & Hc1 & Hother).
  rewrite Hsame. f_equal. apply IH; [exact Hc1 | exact Hrest |].
  intros z Hz.
  assert (Hzy : path_join repoPath (path z) <> path_join repoPath (path y)).
  { intros Heq. apply Hy. rewrite <- Heq.
    apply (in_map (fun y => path_join repoPath (path y))), Hz. }
  destruct (Hfresh z (or_intror Hz)) as [Hastz Hnez].
  rewrite (Hother _ Hzy). auto.
Qed.

(** The report of a run, field by field. *)
Lemma analyzeArchitecture_report (now : string)
    (components : list ComponentInfo) (c : Cache) :
  exists report,
    fst (analyzeArchitecture now fs components repoPath c) = Some report
    /\ analyzedAt report = now
    /\ coupling report = calculateCoupling components
    /\ duplication report = fst (detectDuplication fs components repoPath c)
    /\ complexity report =
       fst (calculateComplexity fs components repoPath
              (snd (detectDuplication fs components repoPath c)))
    /\ detectCircularDependencies components
       = Some (circularDependencies report).
Proof.
  unfold analyzeArchitecture. rewrite !(bind_run (H := H)).
  change ((mret ?v : M _) ?s) with (v, s). cbn [fst].
  destruct (detectCircularDependencies_total components) as [out Hout].
  rewrite Hout. eexists. split; [reflexivity |]. cbn. auto.
Qed.

(** Below the cap and from a cache that agrees with the file system, the
    report of the duplication engine is the list of the results of the pair
    test on the candidates' files. *)
Lemma detectDuplication_below_cap (components : list ComponentInfo)
    (c : Cache) :
  coherent fs c ->
  (Z.of_nat (length (allPairs (List.filter isLargeComponent components)))
   < maxComparisons)%Z ->
  fst (detectDuplication fs components repoPath c)
  = flat_map (fun p => pairInstances (fst p) (snd p))
      (allPairs (List.map (entryOf fs repoPath)
                   (List.filter isLargeComponent components))).
Proof.
  intros Hc Hcap.
  rewrite (detectDuplication_coherent fs repoPath components c Hc).
  rewrite compareAll_scan, scanPairs_under_cap; [reflexivity |].
  assert (Hlen : length (allPairs (List.map (entryOf fs repoPath)
                           (List.filter isLargeComponent components)))
                 = length (allPairs (List.filter isLargeComponent components))).
  { generalize (List.filter isLargeComponent components). intros l.
    induction l as [| a l IH]; [reflexivity |].
    simpl. rewrite !length_app, !length_map, IH. reflexivity. }
  rewrite Hlen. lia.
Qed.

End CoherentRun.

(** C9, as amended. For every component whose file cannot be read and for
    which the cache holds no non-empty text (as on a first run, after
    [clearAnalysisCache], or when the file was never read with success), the
    content is taken to be the empty string and the cache is left as it is;
    the complexity engine returns no metric for the component and the
    duplication engine no instance naming it, whatever the catalog; the
    complexity engine reports for a catalog what it reports without the
    component, and so does the duplication engine below the cap on
    comparisons. The other components are analysed: from a cache that agrees
    with the file system and holds no parsed tree for the catalog, for a
    catalog of distinct files of which none is readable and empty, below the
    cap, the run returns a report whose complexity metrics are those of
    reading, parsing and walking the file of every other component in
    catalog order, and whose duplication instances are the results of the
    pair test on the files of the other candidates. Nothing is raised: every
    run returns its report. *)
Theorem unreadable_file_absorbed `{Host} (fs : FileSystem) (repoPath : string)
    (x : ComponentInfo) (c : Cache) :
  readFails fs c (path_join repoPath (path x)) ->
  getCachedFileContent fs (path_join repoPath (path x)) c = (EmptyString, c)
  /\ analyzeComponentComplexity fs x repoPath c = ([], c)
  /\ (forall components d,
        In d (fst (detectDuplication fs components repoPath c)) ->
        ~ In (path x) (files d))
  /\ (forall l1 l2,
        calculateComplexity fs (l1 ++ x :: l2) repoPath c =
        calculateComplexity fs (l1 ++ l2) repoPath c)
  /\ (forall l1 l2,
        (Z.of_nat (length (allPairs
                             (List.filter isLargeComponent (l1 ++ x :: l2))))
         < maxComparisons)%Z ->
        fst (detectDuplication fs (l1 ++ x :: l2) repoPath c) =
        fst (detectDuplication fs (l1 ++ l2) repoPath c))
  /\ (forall now l1 l2,
        coherent fs c ->
        (forall y, In y (l1 ++ x :: l2) ->
           astCache c !! path_join repoPath (path y) = None) ->
        List.NoDup (List.map (fun y => path_join repoPath (path y))
                      (l1 ++ x :: l2)) ->
        (forall y, In y (l1 ++ l2) ->
           fs (path_join repoPath (path y)) <> Some EmptyString) ->
        (Z.of_nat (length (allPairs
                             (List.filter isLargeComponent (l1 ++ x :: l2))))
         < maxComparisons)%Z ->
        exists report,
          fst (analyzeArchitecture now fs (l1 ++ x :: l2) repoPath c)
          = Some report
          /\ complexity report
             = flat_map (Baseline.analyzeComponent fs repoPath) (l1 ++ l2)
          /\ duplication report
             = flat_map (fun p => pairInstances (fst p) (snd p))
                 (allPairs (List.map (entryOf fs repoPath)
                              (List.filter isLargeComponent (l1 ++ l2)))))
  /\ (forall now components,
        exists report,
          fst (analyzeArchitecture now fs components repoPath c) = Some report).
Proof.
  intros Hfails. split; [apply getCachedFileContent_fails, Hfails |].
  split;
    [apply (analyzeComponentComplexity_fails fs repoPath _ x c eq_refl Hfails) |].
  split; [| split; [| split; [| split]]].
  - intros components d. apply detectDuplication_skips_unreadable, Hfails.
  - intros l1 l2. apply calculateComplexity_skips_unreadable, Hfails.
  - intros l1 l2. apply detectDuplication_without_unreadable, Hfails.
  - intros now l1 l2 Hc Hast Hnodup Hne Hcap.
    destruct (analyzeArchitecture_report fs repoPath now (l1 ++ x :: l2) c)
      as (report & Hrun & _ & _ & Hdup & Hcomp & _).
    exists report. split; [exact Hrun |]. split.
    + rewrite Hcomp, calculateComplexity_sequential. cbn [fst].
      rewrite coherent_run.
      * rewrite !flat_map_app. cbn [flat_map].
        unfold Baseline.analyzeComponent at 2.
        rewrite (proj1 Hfails). reflexivity.
      * apply detectDuplication_keeps_coherent, Hc.
      * exact Hnodup.
      * intros y Hy. rewrite detectDuplication_astCache.
        split; [apply Hast, Hy |].
        apply in_app_iff in Hy. destruct Hy as [Hy | [<- | Hy]].
        -- apply Hne, in_or_app. left. exact Hy.
        -- rewrite (proj1 Hfails). discriminate.
        -- apply Hne, in_or_app. right. exact Hy.
    + rewrite Hdup.
      rewrite (detectDuplication_without_unreadable fs repoPath x l1 l2 c
                 Hfails Hcap).
      apply detectDuplication_below_cap; [exact Hc |].
      pose proof (length_allPairs_remove
                    (List.filter isLargeComponent l1)
                    (List.filter isLargeComponent l2) x) as Hle.
      rewrite !List.filter_app in *. cbn [List.filter] in Hcap.
      destruct (isLargeComponent x); [lia | exact Hcap].
  - intros now components. apply analyzeArchitecture_returns.
Qed.

(** The run of the witness: the file of [ghost.ts] cannot be read, and the
    two other files get their metrics and their duplication instance. *)
Example unreadable_run_complexity :
  List.map (fun m => (file m, cyclomaticComplexity m, fm_linesOfCode m))
    (flat_map (@Baseline.analyzeComponent wholeFileHost (largeFs 0) "repo")
       pairCatalog)
  = [("a.ts", 1%nat, 10%nat); ("b.ts", 1%nat, 10%nat)].
Proof. vm_compute. reflexivity. Qed.

Lemma unreadable_file_absorbed_witness :
  exists report,
    fst (@analyzeArchitecture wholeFileHost "t" (largeFs 0)
           (ghostComponent :: pairCatalog) "repo" (@emptyCache wholeFileHost))
    = Some report
    /\ complexity report
       = flat_map (@Baseline.analyzeComponent wholeFileHost (largeFs 0) "repo")
           pairCatalog
    /\ duplication report
       = flat_map (fun p => pairInstances (fst p) (snd p))
           (allPairs (List.map (@entryOf wholeFileHost (largeFs 0) "repo")
                        (List.filter isLargeComponent pairCatalog))).
Proof.
  assert (Hfails : @readFails wholeFileHost (largeFs 0)
                     (@emptyCache wholeFileHost)
                     (@path_join wholeFileHost "repo" (path ghostComponent))).
  { split; [vm_compute; reflexivity |].
    intros a s. simpl. rewrite lookup_empty. discriminate. }
  apply (proj1 (proj2 (proj2 (proj2 (proj2 (proj2
           (@unreadable_file_absorbed wholeFileHost (largeFs 0) "repo"
              ghostComponent (@emptyCache wholeFileHost) Hfails))))))
           "t" [] pairCatalog).
  - apply (@emptyCache_coherent wholeFileHost).
  - intros y _. simpl. apply lookup_empty.
  - vm_compute. repeat constructor; simpl; intuition discriminate.
  - intros y Hy. vm_compute in Hy.
    destruct Hy as [<- | [<- | []]]; vm_compute; discriminate.
  - vm_compute. reflexivity.
Defined.

(** C9 as stated fails: after a first run has cached the text of [a.ts], the
    file becomes unreadable; its content is still taken from the cache, and
    the duplication engine reports an instance that names it. *)
Lemma unreadable_file_from_stale_cache : ~ @unreadableFileClaim sampleHost.
Proof.
  intros Hclaim.
  destruct (Hclaim noFiles "repo" (mkComponent "a" "a.ts" [] 10)
              (snd (analyzeArchitecture "t" (largeFs 0) pairCatalog "repo"
                      emptyCache))
              pairCatalog eq_refl) as (_ & _ & Hnone).
  assert (Hreported : exists d,
    In d (fst (detectDuplication noFiles pairCatalog "repo"
                 (snd (analyzeArchitecture "t" (largeFs 0) pairCatalog "repo"
                         emptyCache))))
    /\ In "a.ts" (files d)).
  { vm_compute. eexists. split; [left; reflexivity | simpl; left; reflexivity]. }
  destruct Hreported as (d & Hd & Ha).
  exact (Hnone d Hd Ha).
Qed.


(** ** Further properties of the similarity utility *)

Section EditDistanceMetric.

Lemma EditScript_lengths (s t : list ascii) (n : nat) :
  EditScript s t n ->
  (length s <= length t + n)%nat /\ (length t <= length s + n)%nat.
Proof. induction 1; simpl; lia. Qed.

Lemma EditScript_zero (s t : list ascii) : EditScript s t 0 -> s = t.
Proof.
  intros H. remember 0%nat as n eqn:Hn.
  induction H; try discriminate; [reflexivity |].
  f_equal. auto.
Qed.

Lemma EditScript_insert_all (u : list ascii) : EditScript [] u (length u).
Proof. induction u; simpl; constructor; assumption. Qed.

Lemma EditScript_from_nil (u : list ascii) (m : nat) :
  EditScript [] u m -> m = length u.
Proof.
  intros H. remember [] as s eqn:Hs.
  induction H; try discriminate; simpl; auto.
Qed.

(** Two scripts in a row are one script, at most as long as both. *)
Lemma EditScript_compose (s t : list ascii) (n : nat) :
  EditScript s t n ->
  forall u m, EditScript t u m ->
  exists k, (k <= n + m)%nat /\ EditScript s u k.
Proof.
  induction 1 as [| x s t n H IH | x y s t n H IH | x s t n H IH
                  | y s t n H IH]; intros u m H2.
  - exists m. split; [lia | assumption].
  - remember (x :: t) as T eqn:HT. revert HT.
    induction H2 as [| x' t' u' m' H2 IH2 | x' y' t' u' m' H2 IH2
                     | x' t' u' m' H2 IH2 | y' t' u' m' H2 IH2]; intros HT.
    + discriminate.
    + injection HT as -> ->.
      destruct (IH _ _ H2) as (k & Hk & Hs).
      exists k. split; [lia | constructor; assumption].
    + injection HT as -> ->.
      destruct (IH _ _ H2) as (k & Hk & Hs).
      exists (S k). split; [lia | constructor; assumption].
    + injection HT as -> ->.
      destruct (IH _ _ H2) as (k & Hk & Hs).
      exists (S k). split; [lia | constructor; assumption].
    + destruct (IH2 HT) as (k & Hk & Hs).
      exists (S k). split; [lia | constructor; assumption].
  - remember (y :: t) as T eqn:HT. revert HT.
    induction H2 as [| x' t' u' m' H2 IH2 | x' y' t' u' m' H2 IH2
                     | x' t' u' m' H2 IH2 | y' t' u' m' H2 IH2]; intros HT.
    + discriminate.
    + injection HT as -> ->.
      destruct (IH _ _ H2) as (k & Hk & Hs).
      exists (S k). split; [lia | constructor; assumption].
    + injection HT as -> ->.
      destruct (IH _ _ H2) as (k & Hk & Hs).
      exists (S k). split; [lia | constructor; assumption].
    + injection HT as -> ->.
      destruct (IH _ _ H2) as (k & Hk & Hs).
      exists (S k). split; [lia | constructor; assumption].
    + destruct (IH2 HT) as (k & Hk & Hs).
      exists (S k). split; [lia | constructor; assumption].
  - destruct (IH _ _ H2) as (k & Hk & Hs).
    exists (S k). split; [lia | constructor; assumption].
  - remember (y :: t) as T eqn:HT. revert HT.
    induction H2 as [| x' t' u' m' H2 IH2 | x' y' t' u' m' H2 IH2
                     | x' t' u' m' H2 IH2 | y' t' u' m' H2 IH2]; intros HT.
    + discriminate.
    + injection HT as -> ->.
      destruct (IH _ _ H2) as (k & Hk & Hs).
      exists (S k). split; [lia | constructor; assumption].
    + injection HT as -> ->.
      destruct (IH _ _ H2) as (k & Hk & Hs).
      exists (S k). split; [lia | constructor; assumption].
    + injection HT as -> ->.
      destruct (IH _ _ H2) as (k & Hk & Hs).
      exists k. split; [lia | assumption].
    + destruct (IH2 HT) as (k & Hk & Hs).
      exists (S k). split; [lia | constructor; assumption].
Qed.

Lemma list_ascii_inj (a b : string) :
  list_ascii_of_string a = list_ascii_of_string b -> a = b.
Proof.
  intros Heq.
  rewrite <- (string_of_list_ascii_of_string a),
          <- (string_of_list_ascii_of_string b), Heq.
  reflexivity.
Qed.

Lemma editDistance_zero (a b : string) : editDistance a b = 0%nat <-> a = b.
Proof.
  split.
  - intros Hd. apply list_ascii_inj, EditScript_zero.
    rewrite <- Hd. apply editDistance_least.
  - intros ->. apply editDistance_refl.
Qed.

Lemma editDistance_lengths (a b : string) :
  (String.length a <= String.length b + editDistance a b)%nat
  /\ (String.length b <= String.length a + editDistance a b)%nat.
Proof.
  destruct (editDistance_least a b) as [Hs _].
  apply EditScript_lengths in Hs.
  rewrite !length_list_ascii in Hs. exact Hs.
Qed.

End EditDistanceMetric.

Section Ratios.

Lemma Qratio_eq (x m : Z) :
  (0 < m)%Z -> (inject_Z x / inject_Z m)%Q = (x # Z.to_pos m)%Q.
Proof.
  intros Hm. destruct m as [| p | p]; try lia.
  unfold Qdiv, Qmult, Qinv, inject_Z. simpl.
  rewrite Z.mul_1_r. reflexivity.
Qed.

Lemma Qratio_le_1 (x m : Z) :
  (0 < m)%Z -> ((inject_Z x / inject_Z m <= 1)%Q <-> (x <= m)%Z).
Proof.
  intros Hm. rewrite (Qratio_eq _ _ Hm). unfold Qle. simpl.
  rewrite Z.mul_1_r, Z2Pos.id by lia. lia.
Qed.

Lemma Qratio_ge_0 (x m : Z) :
  (0 < m)%Z -> ((0 <= inject_Z x / inject_Z m)%Q <-> (0 <= x)%Z).
Proof.
  intros Hm. rewrite (Qratio_eq _ _ Hm). unfold Qle. simpl.
  rewrite Z.mul_1_r. lia.
Qed.

Lemma Qratio_eq_1 (x m : Z) :
  (0 < m)%Z -> ((inject_Z x / inject_Z m == 1)%Q <-> x = m).
Proof.
  intros Hm. rewrite (Qratio_eq _ _ Hm). unfold Qeq. simpl.
  rewrite Z.mul_1_r, Z2Pos.id by lia. lia.
Qed.

Lemma Qratio_mult_le (x m y : Z) :
  (0 < m)%Z ->
  ((inject_Z x / inject_Z m * inject_Z m <= inject_Z y)%Q <-> (x <= y)%Z).
Proof.
  intros Hm. rewrite (Qratio_eq _ _ Hm). unfold Qle, Qmult, inject_Z. simpl.
  rewrite !Z.mul_1_r, Pos.mul_1_r, Z2Pos.id by lia. nia.
Qed.

End Ratios.

Lemma similarity_as_ratio (a b : string) :
  (0 < Nat.max (String.length a) (String.length b))%nat ->
  similarity a b =
  Some (inject_Z (Z.of_nat (Nat.max (String.length a) (String.length b))
                  - Z.of_nat (editDistance a b))
        / inject_Z (Z.of_nat (Nat.max (String.length a) (String.length b))))%Q.
Proof. intros Hm. rewrite similarity_value by assumption. reflexivity. Qed.

Lemma similarity_no_text (a b : string) :
  Nat.max (String.length a) (String.length b) = 0%nat ->
  a = EmptyString /\ b = EmptyString.
Proof. destruct a, b; simpl; try lia. auto. Qed.

(** What every call of [similarity] gives. *)
Lemma similarity_result (a b : string) :
  exists q,
    similarity a b = Some q
    /\ (q <= 1)%Q
    /\ (q * inject_Z (Z.of_nat (Nat.max (String.length a) (String.length b)))
        <= inject_Z (Z.of_nat (Nat.min (String.length a) (String.length b))))%Q.
Proof.
  pose proof (editDistance_lengths a b) as [H1 H2].
  pose proof (editDistance_le_max a b) as Hle.
  destruct (Nat.eq_dec (Nat.max (String.length a) (String.length b)) 0)
    as [Hz | Hnz].
  - destruct (similarity_no_text _ _ Hz) as [-> ->].
    exists 1%Q. repeat split; simpl; try lia; discriminate.
  - eexists. split; [apply similarity_as_ratio; lia |].
    split; [apply Qratio_le_1; lia | apply Qratio_mult_le; lia].
Qed.

Lemma similarity_sym (a b : string) : similarity a b = similarity b a.
Proof.
  destruct (Nat.eq_dec (Nat.max (String.length a) (String.length b)) 0)
    as [Hz | Hnz].
  - destruct (similarity_no_text _ _ Hz) as [-> ->]. reflexivity.
  - rewrite (similarity_as_ratio a b) by lia.
    rewrite (similarity_as_ratio b a) by lia.
    rewrite (Nat.max_comm (String.length b)), (editDistance_sym b a).
    reflexivity.
Qed.

(** X1. [similarity] does not depend on the order of its arguments: the
    longer text is compared with the shorter one, and for texts of the same
    length the distance is the same in both directions. *)
Theorem similarity_symmetric (a b : string) : similarity a b = similarity b a.
Proof. exact (similarity_sym a b). Qed.

(** X2. [similarity] always returns a number between 0 and 1, and it returns
    1 exactly when the two texts are the same text. *)
Theorem similarity_unit_interval (a b : string) :
  exists q,
    similarity a b = Some q
    /\ (0 <= q)%Q /\ (q <= 1)%Q
    /\ ((q == 1)%Q <-> a = b).
Proof.
  destruct (Nat.eq_dec (Nat.max (String.length a) (String.length b)) 0)
    as [Hz | Hnz].
  - destruct (similarity_no_text _ _ Hz) as [-> ->].
    exists 1%Q. repeat split; try reflexivity; discriminate.
  - eexists. split; [apply similarity_as_ratio; lia |].
    pose proof (editDistance_le_max a b) as Hle.
    split; [| split].
    + apply Qratio_ge_0; lia.
    + apply Qratio_le_1; lia.
    + rewrite Qratio_eq_1 by lia. rewrite <- editDistance_zero. lia.
Qed.

(** X3. The distance [levenshtein] returns is at least the difference of the
    two lengths and at most the longer length; so [similarity] is at most
    the ratio of the shorter length to the longer one. *)
Theorem levenshtein_length_bounds (a b : string) :
  exists d q,
    levenshtein a b = Some d
    /\ (String.length a - String.length b <= d)%nat
    /\ (String.length b - String.length a <= d)%nat
    /\ (d <= Nat.max (String.length a) (String.length b))%nat
    /\ similarity a b = Some q
    /\ (q * inject_Z (Z.of_nat (Nat.max (String.length a) (String.length b)))
        <= inject_Z (Z.of_nat (Nat.min (String.length a) (String.length b))))%Q.
Proof.
  pose proof (editDistance_lengths a b) as [H1 H2].
  pose proof (editDistance_le_max a b) as Hle.
  destruct (Nat.eq_dec (Nat.max (String.length a) (String.length b)) 0)
    as [Hz | Hnz].
  - destruct (similarity_no_text _ _ Hz) as [-> ->].
    exists 0%nat, 1%Q. repeat split; simpl; try lia. discriminate.
  - eexists _, _. split; [apply levenshtein_correct |].
    repeat (split; [lia |]).
    split; [apply similarity_as_ratio; lia |].
    apply Qratio_mult_le; lia.
Qed.

(** X4. The distances [levenshtein] returns satisfy the triangle inequality:
    going from [a] to [c] never costs more than going through [b]. *)
Theorem levenshtein_triangle (a b c : string) :
  exists dab dbc dac,
    levenshtein a b = Some dab
    /\ levenshtein b c = Some dbc
    /\ levenshtein a c = Some dac
    /\ (dac <= dab + dbc)%nat.
Proof.
  exists (editDistance a b), (editDistance b c), (editDistance a c).
  repeat (split; [apply levenshtein_correct |]).
  destruct (editDistance_least a b) as [Hab _].
  destruct (editDistance_least b c) as [Hbc _].
  destruct (editDistance_least a c) as [_ Hmin].
  destruct (EditScript_compose _ _ _ Hab _ _ Hbc) as (k & Hk & Hs).
  specialize (Hmin _ Hs). lia.
Qed.


(** ** The content hash *)

Section ContentHash.

Lemma toInt32_range (z : Z) : (- 2 ^ 31 <= JS.toInt32 z < 2 ^ 31)%Z.
Proof.
  unfold JS.toInt32.
  pose proof (Z.mod_pos_bound (z + 2 ^ 31) (2 ^ 32) ltac:(lia)). lia.
Qed.

Lemma toInt32_shift (z k : Z) : JS.toInt32 (z + k * 2 ^ 32) = JS.toInt32 z.
Proof.
  unfold JS.toInt32.
  replace (z + k * 2 ^ 32 + 2 ^ 31)%Z with (z + 2 ^ 31 + k * 2 ^ 32)%Z by lia.
  rewrite Z.mod_add by lia. reflexivity.
Qed.

Lemma toInt32_wrap (z : Z) : exists k, JS.toInt32 z = (z + k * 2 ^ 32)%Z.
Proof.
  exists (- ((z + 2 ^ 31) / 2 ^ 32))%Z. unfold JS.toInt32.
  rewrite Z.mod_eq by lia. lia.
Qed.

Lemma hashStep_wrap (H : Z) (c : ascii) :
  hashStep (JS.toInt32 H) c =
  JS.toInt32 (31 * H + Z.of_nat (nat_of_ascii c)).
Proof.
  unfold hashStep.
  destruct (toInt32_wrap H) as [k2 ->].
  destruct (toInt32_wrap ((H + k2 * 2 ^ 32) * 32)) as [k1 ->].
  replace ((H + k2 * 2 ^ 32) * 32 + k1 * 2 ^ 32 - (H + k2 * 2 ^ 32)
           + Z.of_nat (nat_of_ascii c))%Z
    with (31 * H + Z.of_nat (nat_of_ascii c) + (31 * k2 + k1) * 2 ^ 32)%Z
    by lia.
  apply toInt32_shift.
Qed.

Lemma hashCode_fold (l : list ascii) (H : Z) :
  fold_left hashStep l (JS.toInt32 H) =
  JS.toInt32
    (fold_left (fun h c => (31 * h + Z.of_nat (nat_of_ascii c))%Z) l H).
Proof.
  revert H. induction l as [| c l IH]; intros H; simpl; [reflexivity |].
  rewrite hashStep_wrap. apply IH.
Qed.

End ContentHash.

(** X5. [hashCode] is the base-31 polynomial hash of the code units of the
    text, wrapped to a signed 32-bit integer: whatever the length of the
    text, the value stays within the 32-bit range. *)
Theorem hashCode_polynomial (str : string) :
  hashCode str = JS.toInt32 (polynomialHash str)
  /\ (- 2 ^ 31 <= hashCode str < 2 ^ 31)%Z.
Proof.
  assert (Heq : hashCode str = JS.toInt32 (polynomialHash str)).
  { unfold hashCode, polynomialHash.
    change 0%Z with (JS.toInt32 0) at 1. apply hashCode_fold. }
  split; [exact Heq |]. rewrite Heq. apply toInt32_range.
Qed.


(** ** Instability and coupling labels *)

Section Instability.

(** The instability computed from the two counts. *)
Lemma couplingOf_instability (components : list ComponentInfo)
    (c : ComponentInfo) :
  let m := couplingOf components c in
  instability m =
    (if (0 <? afferentCoupling m + efferentCoupling m)%nat
     then (inject_Z (Z.of_nat (efferentCoupling m))
           / inject_Z (Z.of_nat (afferentCoupling m + efferentCoupling m)))%Q
     else 0%Q)
  /\ cm_score m = couplingScoreOf (instability m) (efferentCoupling m).
Proof. split; reflexivity. Qed.

Lemma Qratio_le_frac (x m : Z) (n : Z) (d : positive) :
  (0 < m)%Z ->
  ((inject_Z x / inject_Z m <= n # d)%Q <-> (x * Z.pos d <= n * m)%Z).
Proof.
  intros Hm. rewrite (Qratio_eq _ _ Hm). unfold Qle. simpl.
  rewrite Z2Pos.id by lia. lia.
Qed.

Lemma Qratio_eq_0 (x m : Z) :
  (0 < m)%Z -> ((inject_Z x / inject_Z m == 0)%Q <-> x = 0%Z).
Proof.
  intros Hm. rewrite (Qratio_eq _ _ Hm). unfold Qeq. simpl. lia.
Qed.

Lemma metric_in_calculateCoupling (components : list ComponentInfo)
    (P : CouplingMetric -> Prop) :
  (forall c, In c components -> P (couplingOf components c)) ->
  Forall P (calculateCoupling components).
Proof.
  intros HP. apply List.Forall_forall. intros m Hm.
  unfold calculateCoupling in Hm. apply in_map_iff in Hm.
  destruct Hm as (c & <- & Hc). auto.
Qed.

End Instability.

(** X6. Every instability [calculateCoupling] reports lies between 0 and 1;
    it is 0 exactly for a component without relative dependencies, and 1
    exactly for a component with relative dependencies on which no
    component depends. *)
Theorem instability_range (components : list ComponentInfo) :
  Forall
    (fun m =>
       (0 <= instability m)%Q /\ (instability m <= 1)%Q
       /\ ((instability m == 0)%Q <-> efferentCoupling m = 0%nat)
       /\ ((instability m == 1)%Q <->
           afferentCoupling m = 0%nat /\ (0 < efferentCoupling m)%nat))
    (calculateCoupling components).
Proof.
  apply metric_in_calculateCoupling. intros c _.
  destruct (couplingOf_instability components c) as [Hi _].
  cbv zeta in Hi. rewrite Hi. clear Hi.
  set (a := afferentCoupling (couplingOf components c)).
  set (e := efferentCoupling (couplingOf components c)).
  destruct (Nat.ltb_spec 0 (a + e)) as [Hpos | Hzero].
  - rewrite Qratio_ge_0, Qratio_le_1, Qratio_eq_0, Qratio_eq_1 by lia. lia.
  - repeat split; try reflexivity; try discriminate; try lia.
Qed.

(** X7. The coupling label in whole numbers, with [a] the afferent and [e]
    the efferent coupling of a component: the label is [high] exactly when
    [3 e > 7 a] or [e > 10]; it is [moderate] exactly when it is not [high]
    and [e > a] or [e > 5]; it is [good] otherwise. So a component without
    relative dependencies is [good], and a component with relative
    dependencies on which no component depends is [high]. *)
Theorem coupling_label_thresholds (components : list ComponentInfo) :
  Forall
    (fun m =>
       let a := afferentCoupling m in
       let e := efferentCoupling m in
       (cm_score m = high <-> (7 * a < 3 * e)%nat \/ (10 < e)%nat)
       /\ (cm_score m = moderate <->
           ~ ((7 * a < 3 * e)%nat \/ (10 < e)%nat)
           /\ ((a < e)%nat \/ (5 < e)%nat))
       /\ (cm_score m = good <-> (3 * e <= 7 * a)%nat /\ (e <= a)%nat /\ (e <= 5)%nat))
    (calculateCoupling components).
Proof.
  apply metric_in_calculateCoupling. intros c _.
  destruct (couplingOf_instability components c) as [Hi Hs].
  cbv zeta in Hi, Hs. cbv zeta. rewrite Hs, Hi. clear Hi Hs.
  set (a := afferentCoupling (couplingOf components c)).
  set (e := efferentCoupling (couplingOf components c)).
  unfold couplingScoreOf.
  assert (H7 : Qle_bool
                 (if (0 <? a + e)%nat
                  then inject_Z (Z.of_nat e) / inject_Z (Z.of_nat (a + e))
                  else 0) (7 # 10) = true <-> (3 * e <= 7 * a)%nat).
  { rewrite Qle_bool_iff.
    destruct (Nat.ltb_spec 0 (a + e)) as [Hpos | Hzero].
    - rewrite Qratio_le_frac by lia. lia.
    - unfold Qle. simpl. lia. }
  assert (H5 : Qle_bool
                 (if (0 <? a + e)%nat
                  then inject_Z (Z.of_nat e) / inject_Z (Z.of_nat (a + e))
                  else 0) (5 # 10) = true <-> (e <= a)%nat).
  { rewrite Qle_bool_iff.
    destruct (Nat.ltb_spec 0 (a + e)) as [Hpos | Hzero].
    - rewrite Qratio_le_frac by lia. lia.
    - unfold Qle. simpl. lia. }
  assert (H7' : Qle_bool
                  (if (0 <? a + e)%nat
                   then inject_Z (Z.of_nat e) / inject_Z (Z.of_nat (a + e))
                   else 0) (7 # 10) = false <-> (7 * a < 3 * e)%nat)
    by (rewrite <- not_true_iff_false, H7; lia).
  assert (H5' : Qle_bool
                  (if (0 <? a + e)%nat
                   then inject_Z (Z.of_nat e) / inject_Z (Z.of_nat (a + e))
                   else 0) (5 # 10) = false <-> (a < e)%nat)
    by (rewrite <- not_true_iff_false, H5; lia).
  destruct (Qle_bool _ (7 # 10)); destruct (Qle_bool _ (5 # 10));
    destruct (Nat.ltb_spec 10 e); destruct (Nat.ltb_spec 5 e); simpl;
    intuition (try discriminate; try lia).
Qed.


(** ** What the duplication detector reports *)

Section ReportedInstances.

Lemma in_allPairs_split {A : Type} (l : list A) (p : A * A) :
  In p (allPairs l) ->
  exists l1 l2 l3, l = l1 ++ fst p :: l2 ++ snd p :: l3.
Proof.
  induction l as [| x l IH]; simpl; [intros [] |].
  intros Hin. apply in_app_iff in Hin. destruct Hin as [Hin | Hin].
  - apply in_map_iff in Hin. destruct Hin as (y & <- & Hy).
    apply in_split in Hy. destruct Hy as (l2 & l3 & ->).
    exists [], l2, l3. reflexivity.
  - destruct (IH Hin) as (l1 & l2 & l3 & ->).
    exists (x :: l1), l2, l3. reflexivity.
Qed.

Lemma filter_split_inv {A : Type} (p : A -> bool) (l x y : list A) (a : A) :
  List.filter p l = x ++ a :: y ->
  exists x' y',
    l = x' ++ a :: y' /\ List.filter p x' = x /\ List.filter p y' = y
    /\ p a = true.
Proof.
  revert x. induction l as [| z l IH]; intros x Hf; simpl in Hf.
  - destruct x; discriminate.
  - destruct (p z) eqn:Hz.
    + destruct x as [| x0 x].
      * injection Hf as -> <-. exists [], l. auto.
      * injection Hf as -> Hf.
        destruct (IH _ Hf) as (x' & y' & -> & <- & <- & Ha).
        exists (x0 :: x'), y'. simpl. rewrite Hz. auto.
    + destruct (IH _ Hf) as (x' & y' & -> & <- & <- & Ha).
      exists (z :: x'), y'. simpl. rewrite Hz. auto.
Qed.

Lemma filter_two_inv {A : Type} (p : A -> bool) (l x y z : list A) (a b : A) :
  List.filter p l = x ++ a :: y ++ b :: z ->
  p a = true /\ p b = true
  /\ exists x' y' z', l = x' ++ a :: y' ++ b :: z'.
Proof.
  intros Hf.
  destruct (filter_split_inv _ _ _ _ _ Hf) as (x' & r & -> & _ & Hr & Ha).
  destruct (filter_split_inv _ _ _ _ _ Hr) as (y' & z' & -> & _ & _ & Hb).
  eauto 10.
Qed.

Lemma pairInstances_length (a b : ContentEntry) :
  (length (pairInstances a b) <= 1)%nat.
Proof.
  unfold pairInstances, comparePair.
  repeat match goal with
         | |- context [if ?c then _ else _] => destruct c
         | |- context [match ?c with Some _ => _ | None => _ end] => destruct c
         end; simpl; lia.
Qed.

Lemma pairInstances_threshold (a b : ContentEntry) (d : DuplicationInstance) :
  In d (pairInstances a b) ->
  similarity (ce_content a) (ce_content b) = Some (similarityOf d)
  /\ (minSimilarity <= similarityOf d)%Q
  /\ lines d = Nat.min (length (ce_lines a)) (length (ce_lines b))
  /\ snippet d = JS.join newline (take 5 (ce_lines a)) +:+ newline +:+ "..."
  /\ suggestion d = duplicationSuggestion.
Proof.
  unfold pairInstances, comparePair.
  destruct (maxComparisons <=? 0 + 1)%Z; [intros [] |].
  destruct (_ || _); [intros [] |].
  destruct (negb _); [intros [] |].
  destruct (100000 <? _)%Z; [intros [] |].
  destruct (similarity (ce_content a) (ce_content b)) as [sim |];
    [| intros []].
  destruct (Qle_bool minSimilarity sim) eqn:Hsim; [| intros []].
  intros [<- | []]. simpl.
  apply Qle_bool_iff in Hsim. auto.
Qed.

Context `{Host} (fs : FileSystem) (repoPath : string).

Lemma mapM_readEntry_components (l : list ComponentInfo) (c : Cache) :
  List.map ce_component (fst (mapM (readEntry fs repoPath) l c)) = l.
Proof.
  revert c. induction l as [| x l IH]; intros c; [reflexivity |].
  rewrite mapM_cons. simpl. rewrite IH. f_equal.
  unfold readEntry. rewrite (bind_run (H := H)). reflexivity.
Qed.

(** Every reported instance comes from a pair of entries read for two
    candidates, the first listed before the second. *)
Lemma detectDuplication_origin (components : list ComponentInfo) (c : Cache)
    (d : DuplicationInstance) :
  In d (fst (detectDuplication fs components repoPath c)) ->
  exists ea eb l1 l2 l3,
    In d (pairInstances ea eb)
    /\ In (ea, eb)
         (allPairs (fst (mapM (readEntry fs repoPath)
                           (List.filter isLargeComponent components) c)))
    /\ components = l1 ++ ce_component ea :: l2 ++ ce_component eb :: l3
    /\ isLargeComponent (ce_component ea) = true
    /\ isLargeComponent (ce_component eb) = true.
Proof.
  rewrite detectDuplication_entries. intros Hd.
  destruct (scanPairs_extends
              (allPairs (fst (mapM (readEntry fs repoPath)
                                (List.filter isLargeComponent components) c)))
              0 []) as (extra & Hout & Hfrom).
  rewrite Hout in Hd. simpl in Hd.
  destruct (Hfrom d Hd) as ([ea eb] & Hp & Hdp). simpl in Hdp.
  destruct (in_allPairs_split _ _ Hp) as (e1 & e2 & e3 & Hsplit).
  simpl in Hsplit.
  pose proof (mapM_readEntry_components
                (List.filter isLargeComponent components) c) as Hcomp.
  rewrite Hsplit in Hcomp.
  rewrite map_app, map_cons, map_app, map_cons in Hcomp.
  symmetry in Hcomp.
  destruct (filter_two_inv _ _ _ _ _ _ _ Hcomp) as (Ha & Hb & l1 & l2 & l3 & ->).
  exists ea, eb, l1, l2, l3. auto.
Qed.

End ReportedInstances.

(** X8. Every instance [detectDuplication] reports names two components of
    the catalog, in catalog order, both kept by the candidate filter (at
    least 10 declared lines, no [.test.] or [.spec.] in the path); its
    similarity is between 0.85 and 1, its line count at least 10, and its
    suggestion the fixed text. This holds whatever the cache holds. *)
Theorem duplication_instance_shape `{Host} (fs : FileSystem)
    (components : list ComponentInfo) (repoPath : string) (c : Cache) :
  Forall
    (fun d =>
       exists a b l1 l2 l3,
         components = l1 ++ a :: l2 ++ b :: l3
         /\ files d = [path a; path b]
         /\ (10 <= linesOfCode a)%Z /\ (10 <= linesOfCode b)%Z
         /\ JS.includes (path a) ".test." = false
         /\ JS.includes (path a) ".spec." = false
         /\ JS.includes (path b) ".test." = false
         /\ JS.includes (path b) ".spec." = false
         /\ (85 # 100 <= similarityOf d)%Q /\ (similarityOf d <= 1)%Q
         /\ (10 <= lines d)%nat
         /\ suggestion d = duplicationSuggestion)
    (fst (detectDuplication fs components repoPath c)).
Proof.
  apply List.Forall_forall. intros d Hd.
  destruct (detectDuplication_origin fs repoPath components c d Hd)
    as (ea & eb & l1 & l2 & l3 & Hdp & _ & Hsplit & Ha & Hb).
  destruct (pairInstances_threshold _ _ _ Hdp) as (Hsim & Hmin & Hlines & _ & Hsug).
  destruct (pairInstances_lines _ _ _ Hdp) as [Hla Hlb].
  destruct (similarity_result (ce_content ea) (ce_content eb))
    as (q & Hq & Hq1 & _).
  rewrite Hsim in Hq. injection Hq as <-.
  unfold isLargeComponent in Ha, Hb.
  apply andb_prop in Ha as [Ha Ha3]. apply andb_prop in Ha as [Ha1 Ha2].
  apply andb_prop in Hb as [Hb Hb3]. apply andb_prop in Hb as [Hb1 Hb2].
  apply negb_true_iff in Ha2, Ha3, Hb2, Hb3.
  apply Z.leb_le in Ha1, Hb1.
  exists (ce_component ea), (ce_component eb), l1, l2, l3.
  split; [exact Hsplit |].
  split; [apply (pairInstances_files _ _ _ Hdp) |].
  unfold minLines in *. simpl in Ha1, Hb1.
  repeat (split; [assumption || lia |]).
  exact Hsug.
Qed.

Section ComparisonCap.

Lemma scanPairs_count (ps : list (ContentEntry * ContentEntry)) (n : Z)
    (inst : list DuplicationInstance) :
  (Z.of_nat (length inst) <= n < maxComparisons)%Z ->
  (Z.of_nat (length (flowInstances (scanPairs ps (n, inst)))) < maxComparisons)%Z
  /\ (length (flowInstances (scanPairs ps (n, inst)))
      <= length inst + length ps)%nat.
Proof.
  revert n inst. induction ps as [| [a b] ps IH]; intros n inst Hn.
  - simpl. lia.
  - rewrite scanPairs_cons, comparePair_flow.
    destruct (Z.leb_spec maxComparisons (n + 1)) as [Hcap | Hcap].
    + simpl. lia.
    + pose proof (pairInstances_length a b) as Hone.
      destruct (IH (n + 1)%Z (inst ++ pairInstances a b)) as [H1 H2].
      { rewrite length_app, Nat2Z.inj_add. lia. }
      split; [exact H1 |]. rewrite length_app in H2. simpl. lia.
Qed.

Lemma length_allPairs_eq {A B : Type} (l : list A) (l' : list B) :
  length l = length l' -> length (allPairs l) = length (allPairs l').
Proof.
  revert l'. induction l as [| x l IH]; intros [| y l'] Hlen;
    try discriminate; [reflexivity |].
  simpl. rewrite !length_app, !length_map.
  injection Hlen as Hlen. rewrite (IH _ Hlen), Hlen. reflexivity.
Qed.

End ComparisonCap.

(** X9. [detectDuplication] never reports more than 99,999 instances, nor
    more than there are pairs of candidates: the scan makes at most one
    report per comparison and returns at the 100,000th comparison. *)
Theorem duplication_instances_capped `{Host} (fs : FileSystem)
    (components : list ComponentInfo) (repoPath : string) (c : Cache) :
  (Z.of_nat (length (fst (detectDuplication fs components repoPath c)))
   <= 99999)%Z
  /\ (length (fst (detectDuplication fs components repoPath c))
      <= length (allPairs (List.filter isLargeComponent components)))%nat.
Proof.
  rewrite detectDuplication_entries.
  destruct (scanPairs_count
              (allPairs (fst (mapM (readEntry fs repoPath)
                                (List.filter isLargeComponent components) c)))
              0 []) as [H1 H2].
  { unfold maxComparisons. simpl. lia. }
  split.
  - unfold maxComparisons in H1. lia.
  - simpl in H2.
    rewrite (length_allPairs_eq
               (fst (mapM (readEntry fs repoPath)
                       (List.filter isLargeComponent components) c))
               (List.filter isLargeComponent components)) in H2; [exact H2 |].
    apply length_mapM.
Qed.

Section CoherentCache.

Context `{Host} (fs : FileSystem) (repoPath : string).

Lemma detectDuplication_run_coherent (components : list ComponentInfo)
    (c : Cache) :
  coherent fs c ->
  detectDuplication fs components repoPath c =
  (flowInstances
     (compareAll
        (List.map (entryOf fs repoPath)
           (List.filter isLargeComponent components)) (0%Z, [])),
   snd (detectDuplication fs components repoPath c))
  /\ fst (mapM (readEntry fs repoPath)
            (List.filter isLargeComponent components) c)
     = List.map (entryOf fs repoPath) (List.filter isLargeComponent components)
  /\ coherent fs (snd (detectDuplication fs components repoPath c)).
Proof.
  intros Hc.
  destruct (mapM_readEntry_coherent fs repoPath
              (List.filter isLargeComponent components) c Hc)
    as (c' & Hrun & Hc').
  unfold detectDuplication. rewrite (bind_run (H := H)), Hrun. simpl.
  repeat split; try reflexivity. exact Hc'.
Qed.

End CoherentCache.

(** X10. When the cache agrees with the file system, the similarity of a
    reported instance is that of the texts of its two files, and these two
    texts have close lengths: 85 times the longer length is at most 100
    times the shorter one. Two files whose lengths differ by more than 15
    per cent of the longer one are never reported. *)
Theorem duplication_needs_close_lengths `{Host} (fs : FileSystem)
    (components : list ComponentInfo) (repoPath : string) (c : Cache) :
  coherent fs c ->
  Forall
    (fun d =>
       exists a b,
         In a components /\ In b components
         /\ files d = [path a; path b]
         /\ similarity (contentOf fs (path_join repoPath (path a)))
                       (contentOf fs (path_join repoPath (path b)))
            = Some (similarityOf d)
         /\ (85 * Nat.max
                    (String.length (contentOf fs (path_join repoPath (path a))))
                    (String.length (contentOf fs (path_join repoPath (path b))))
             <= 100 * Nat.min
                        (String.length (contentOf fs (path_join repoPath (path a))))
                        (String.length (contentOf fs (path_join repoPath (path b)))))%nat)
    (fst (detectDuplication fs components repoPath c)).
Proof.
  intros Hc. apply List.Forall_forall. intros d Hd.
  destruct (detectDuplication_origin fs repoPath components c d Hd)
    as (ea & eb & l1 & l2 & l3 & Hdp & Hin & Hsplit & _ & _).
  destruct (detectDuplication_run_coherent fs repoPath components c Hc)
    as (_ & Hentries & _).
  rewrite Hentries in Hin. apply in_allPairs in Hin. simpl in Hin.
  destruct Hin as [Hea Heb].
  apply in_map_iff in Hea. destruct Hea as (a & <- & _).
  apply in_map_iff in Heb. destruct Heb as (b & <- & _).
  simpl in Hsplit.
  destruct (pairInstances_threshold _ _ _ Hdp) as (Hsim & Hmin & _).
  simpl in Hsim.
  exists a, b.
  split; [rewrite Hsplit; apply in_elt |].
  split; [rewrite Hsplit; apply in_or_app; right; right; apply in_elt |].
  split; [apply (pairInstances_files _ _ _ Hdp) |].
  split; [exact Hsim |].
  destruct (similarity_result (contentOf fs (path_join repoPath (path a)))
              (contentOf fs (path_join repoPath (path b))))
    as (q & Hq & _ & Hratio).
  rewrite Hsim in Hq. injection Hq as <-.
  set (M := Nat.max _ _) in *. set (m := Nat.min _ _) in *.
  assert (Hle : (minSimilarity * inject_Z (Z.of_nat M)
                 <= inject_Z (Z.of_nat m))%Q).
  { eapply Qle_trans; [| exact Hratio].
    apply Qmult_le_compat_r; [exact Hmin |].
    unfold Qle. simpl. lia. }
  unfold minSimilarity, Qle in Hle. simpl in Hle. lia.
Qed.

Lemma duplication_needs_close_lengths_witness :
  Forall
    (fun d =>
       exists a b,
         In a pairCatalog /\ In b pairCatalog
         /\ files d = [path a; path b]
         /\ similarity (contentOf (largeFs 0) (path_join "repo" (path a)))
                       (contentOf (largeFs 0) (path_join "repo" (path b)))
            = Some (similarityOf d)
         /\ (85 * Nat.max
                    (String.length (contentOf (largeFs 0) (path_join "repo" (path a))))
                    (String.length (contentOf (largeFs 0) (path_join "repo" (path b))))
             <= 100 * Nat.min
                        (String.length (contentOf (largeFs 0) (path_join "repo" (path a))))
                        (String.length (contentOf (largeFs 0) (path_join "repo" (path b)))))%nat)
    (fst (detectDuplication (largeFs 0) pairCatalog "repo" emptyCache)).
Proof.
  apply (duplication_needs_close_lengths (largeFs 0) pairCatalog "repo"
           emptyCache).
  apply emptyCache_coherent.
Defined.

(** X11. The content cache is transparent for the duplication detector as
    long as it agrees with the file system: the detector then reports what
    it reports from an empty cache, and leaves a cache that still agrees
    with the file system. *)
Theorem duplication_cache_transparent `{Host} (fs : FileSystem)
    (components : list ComponentInfo) (repoPath : string) (c : Cache) :
  coherent fs c ->
  fst (detectDuplication fs components repoPath c)
  = fst (detectDuplication fs components repoPath emptyCache)
  /\ coherent fs (snd (detectDuplication fs components repoPath c)).
Proof.
  intros Hc. split.
  - rewrite (detectDuplication_coherent fs repoPath components c Hc).
    rewrite (detectDuplication_coherent fs repoPath components emptyCache
               (emptyCache_coherent fs)).
    reflexivity.
  - apply (detectDuplication_run_coherent fs repoPath components c Hc).
Qed.

Lemma duplication_cache_transparent_witness :
  fst (detectDuplication (largeFs 1) (largeCatalog 1) "repo"
         (snd (detectDuplication (largeFs 1) pairCatalog "repo" emptyCache)))
  = fst (detectDuplication (largeFs 1) (largeCatalog 1) "repo" emptyCache).
Proof.
  apply (duplication_cache_transparent (largeFs 1) (largeCatalog 1) "repo").
  apply (detectDuplication_run_coherent (largeFs 1) "repo" pairCatalog
           emptyCache).
  apply emptyCache_coherent.
Defined.


(** ** Soundness and completeness of the cycle search *)

Section QuietSearch.

Context (graph : gmap string (list string)).

Lemma recordCycle_nonempty (node : string) (path : list string)
    (cycles : list CircularDependency) :
  recordCycle node path cycles <> [].
Proof.
  intros Hnil. pose proof (recordCycle_length node path cycles) as Hlen.
  rewrite Hnil in Hlen. destruct cycles as [| c cycles]; [| simpl in Hlen; lia].
  revert Hnil. unfold recordCycle. simpl someSameKey. cbv iota beta.
  discriminate.
Qed.

(** The search only adds entries. *)
Lemma findCycles_length (fuel : nat) :
  forall node path st st',
    findCycles fuel graph node path st = Some st' ->
    (length (snd st) <= length (snd st'))%nat.
Proof.
  induction fuel as [| fuel IH]; intros node path [visited cycles] st';
    [discriminate |].
  rewrite findCycles_unfold. simpl.
  destruct (bool_decide (node ∈ path)).
  { intros [= <-]. apply recordCycle_length. }
  destruct (bool_decide (node ∈ visited)); [intros [= <-]; simpl; lia |].
  generalize ({[node]} ∪ visited). generalize (default [] (graph !! node)).
  intros neighbors. revert cycles.
  induction neighbors as [| n neighbors IHn]; intros cycles v0.
  - simpl. intros [= <-]. simpl. lia.
  - cbn [fold_left mbind option_bind].
    destruct (findCycles fuel graph n (path ++ [node]) (v0, cycles))
      as [[v1 c1] |] eqn:Hn.
    + intros Hrest. apply IH in Hn. apply IHn in Hrest. simpl in *. lia.
    + rewrite fold_option_none. discriminate.
Qed.

Lemma fold_cycles_length (fuel : nat) (path : list string)
    (neighbors : list string) (st st' : CycleState) :
  fold_left
    (fun st neighbor => st ← st; findCycles fuel graph neighbor path st)
    neighbors (Some st) = Some st' ->
  (length (snd st) <= length (snd st'))%nat.
Proof.
  revert st. induction neighbors as [| n neighbors IHn]; intros st.
  - simpl. intros [= <-]. lia.
  - cbn [fold_left mbind option_bind].
    destruct (findCycles fuel graph n path st) as [st1 |] eqn:Hn.
    + intros Hrest. apply findCycles_length in Hn. apply IHn in Hrest. lia.
    + rewrite fold_option_none. discriminate.
Qed.

(** A search that starts and ends without any entry has met no node of its
    path again: every node it has newly visited has all its successors
    visited, none of them on the path of the call. *)
Lemma findCycles_quiet (fuel : nat) :
  forall node path visited visited',
    findCycles fuel graph node path (visited, []) = Some (visited', []) ->
    visited ⊆ visited'
    /\ node ∈ visited'
    /\ forall x, x ∈ visited' -> x ∉ visited ->
         forall l y, graph !! x = Some l -> In y l ->
           y ∈ visited' /\ ~ In y (path ++ [node]).
Proof.
  induction fuel as [| fuel IH]; intros node path visited visited';
    [discriminate |].
  rewrite findCycles_unfold.
  destruct (bool_decide (node ∈ path)) eqn:Hpath.
  { intros Heq. exfalso. injection Heq as _ Hrec.
    exact (recordCycle_nonempty _ _ _ Hrec). }
  apply bool_decide_eq_false_1 in Hpath.
  destruct (bool_decide (node ∈ visited)) eqn:Hvis.
  { apply bool_decide_eq_true_1 in Hvis. intros [= <-].
    split; [reflexivity |]. split; [exact Hvis |]. intros x Hx Hnx. tauto. }
  apply bool_decide_eq_false_1 in Hvis.
  intros Hfold.
  assert (Hgen : forall neighbors v0 v',
    fold_left
      (fun st neighbor =>
         st ← st; findCycles fuel graph neighbor (path ++ [node]) st)
      neighbors (Some (v0, [])) = Some (v', []) ->
    v0 ⊆ v'
    /\ (forall n, In n neighbors -> n ∈ v' /\ ~ In n (path ++ [node]))
    /\ forall x, x ∈ v' -> x ∉ v0 ->
         forall l y, graph !! x = Some l -> In y l ->
           y ∈ v' /\ ~ In y (path ++ [node])).
  { induction neighbors as [| n neighbors IHn]; intros v0 v'.
    - simpl. intros [= <-]. split; [reflexivity |].
      split; [intros n [] | intros x Hx Hnx; tauto].
    - cbn [fold_left mbind option_bind].
      destruct (findCycles fuel graph n (path ++ [node]) (v0, []))
        as [[v1 c1] |] eqn:Hn; [| rewrite fold_option_none; discriminate].
      intros Hrest.
      assert (c1 = []) as ->.
      { pose proof (fold_cycles_length fuel (path ++ [node]) neighbors
                      (v1, c1) (v', []) Hrest) as Hlen.
        simpl in Hlen. destruct c1; [reflexivity | simpl in Hlen; lia]. }
      destruct (IH _ _ _ _ Hn) as (Hsub1 & Hn1 & Hnew1).
      destruct (IHn _ _ Hrest) as (Hsub2 & Hnb2 & Hnew2).
      split; [intros x Hx; apply Hsub2, Hsub1, Hx |].
      split.
      + intros m [<- | Hm]; [| apply Hnb2, Hm].
        split; [apply Hsub2, Hn1 |].
        intros Hin.
        assert (Hin' : n ∈ path ++ [node]) by (apply list_elem_of_In, Hin).
        revert Hn. destruct fuel as [| fuel']; [discriminate |].
        rewrite findCycles_unfold, (bool_decide_eq_true_2 _ Hin').
        intros Heq. injection Heq as _ Hrec.
        exact (recordCycle_nonempty _ _ _ Hrec).
      + intros x Hx Hnx l y Hl Hy.
        destruct (decide (x ∈ v1)) as [Hx1 | Hx1].
        * destruct (Hnew1 x Hx1 Hnx l y Hl Hy) as [Hy1 Hyp].
          split; [apply Hsub2, Hy1 |].
          intros Hin. apply Hyp. apply in_or_app. left. exact Hin.
        * exact (Hnew2 x Hx Hx1 l y Hl Hy). }
  destruct (Hgen _ _ _ Hfold) as (Hsub & Hnb & Hnew).
  split; [intros x Hx; apply Hsub, elem_of_union; right; exact Hx |].
  split; [apply Hsub, elem_of_union; left; apply elem_of_singleton; reflexivity |].
  intros x Hx Hnx l y Hl Hy.
  destruct (decide (x = node)) as [-> | Hne].
  - rewrite Hl in Hnb. simpl in Hnb. apply Hnb, Hy.
  - refine (Hnew x Hx _ l y Hl Hy).
    rewrite elem_of_union, elem_of_singleton. tauto.
Qed.

End QuietSearch.

Section GraphLookup.

Lemma find_app {A : Type} (p : A -> bool) (l1 l2 : list A) :
  List.find p (l1 ++ l2) =
  match List.find p l1 with
  | Some x => Some x
  | None => List.find p l2
  end.
Proof.
  induction l1 as [| x l1 IH]; simpl; [reflexivity |].
  destruct (p x); [reflexivity | exact IH].
Qed.

(** The graph maps a path to the resolved dependencies of the last component
    of the catalog that has this path. *)
Lemma buildDependencyGraph_lookup (components : list ComponentInfo)
    (n : string) :
  buildDependencyGraph components !! n =
  (fun c => omap (resolveDependency components) (dependencies c))
    <$> List.find (fun c => String.eqb (path c) n) (rev components).
Proof.
  unfold buildDependencyGraph.
  assert (Hgen : forall cs (acc : gmap string (list string)),
    fold_left
      (fun graph c =>
         <[path c := omap (resolveDependency components) (dependencies c)]> graph)
      cs acc !! n =
    match List.find (fun c => String.eqb (path c) n) (rev cs) with
    | Some c => Some (omap (resolveDependency components) (dependencies c))
    | None => acc !! n
    end).
  { induction cs as [| c cs IHcs]; intros acc; [reflexivity |].
    simpl. rewrite IHcs, find_app.
    destruct (List.find _ (rev cs)); [reflexivity |].
    simpl. destruct (String.eqb_spec (path c) n) as [-> | Hne].
    - apply lookup_insert_eq.
    - apply lookup_insert_ne. exact Hne. }
  rewrite Hgen. destruct (List.find _ (rev components)); [reflexivity |].
  apply lookup_empty.
Qed.

Lemma buildDependencyGraph_key (components : list ComponentInfo)
    (n : string) (l : list string) :
  buildDependencyGraph components !! n = Some l ->
  exists c, In c components /\ path c = n.
Proof.
  rewrite buildDependencyGraph_lookup.
  destruct (List.find _ (rev components)) as [c |] eqn:Hfind; [| discriminate].
  intros _. apply find_some in Hfind. destruct Hfind as [Hin Heq].
  exists c. split; [apply in_rev, Hin | apply String.eqb_eq, Heq].
Qed.

End GraphLookup.

Section Completeness.

Context (graph : gmap string (list string)).

Lemma detect_quiet (fuel : nat) (l : list ComponentInfo)
    (acc : list CircularDependency) :
  fold_left
    (fun cycles c =>
       cycles ← cycles;
       snd <$> findCycles fuel graph (path c) [] (∅, cycles))
    l (Some acc) = Some [] ->
  acc = []
  /\ forall c, In c l ->
       exists visited,
         findCycles fuel graph (path c) [] (∅, []) = Some (visited, []).
Proof.
  revert acc. induction l as [| c l IHl]; intros acc.
  - simpl. intros [= ->]. split; [reflexivity | intros c []].
  - cbn [fold_left mbind option_bind].
    destruct (findCycles fuel graph (path c) [] (∅, acc)) as [[v cs] |] eqn:Hc;
      [| simpl; rewrite fold_option_none; discriminate].
    simpl. intros Hrest. destruct (IHl _ Hrest) as [-> Hl].
    apply findCycles_length in Hc as Hlen. simpl in Hlen.
    assert (acc = []) as -> by (destruct acc; [reflexivity | simpl in Hlen; lia]).
    split; [reflexivity |].
    intros c' [<- | Hc']; [exists v; exact Hc | apply Hl, Hc'].
Qed.

(** From a set closed under the edges, a walk never leaves the set. *)
Lemma closed_set_walk (S : gset string) (r : string) :
  (forall x, x ∈ S ->
     forall l y, graph !! x = Some l -> In y l -> y ∈ S /\ y <> r) ->
  forall walk u,
    u ∈ S -> consecutiveEdges graph (u :: walk) ->
    Forall (fun y => y ∈ S /\ y <> r) walk.
Proof.
  intros Hclosed. induction walk as [| v walk IH]; intros u Hu Hwalk;
    [constructor |].
  destruct Hwalk as [(l & Hl & Hv) Hrest].
  destruct (Hclosed u Hu l v Hl Hv) as [HvS Hvr].
  constructor; [split; assumption |].
  apply (IH v HvS Hrest).
Qed.

Lemma quiet_search_no_walk (fuel : nat) (walk : list string) (x : string)
    (visited : gset string) :
  closedWalk graph walk -> head walk = Some x ->
  findCycles fuel graph x [] (∅, []) = Some (visited, []) -> False.
Proof.
  intros (Hedges & Hlen & y & Hhead & Hlast) Hx Hquiet.
  rewrite Hhead in Hx. injection Hx as ->.
  destruct (findCycles_quiet graph fuel x [] ∅ visited Hquiet)
    as (_ & HxS & Hclosed).
  destruct walk as [| x' rest]; [discriminate |].
  injection Hhead as ->.
  assert (Hall : Forall (fun y => y ∈ visited /\ y <> x) rest).
  { apply (closed_set_walk visited x) with (u := x); try assumption.
    intros z Hz l y Hl Hy.
    destruct (Hclosed z Hz (not_elem_of_empty z) l y Hl Hy) as [HyS Hnot].
    split; [exact HyS |]. intros ->. apply Hnot. simpl. auto. }
  destruct rest as [| v rest] using rev_ind; [simpl in Hlen; lia |].
  rewrite app_comm_cons, last_snoc in Hlast. injection Hlast as ->.
  apply Forall_app in Hall. destruct Hall as [_ Hlastx].
  inversion Hlastx as [| ? ? [_ Hne] _]. congruence.
Qed.

End Completeness.

Section SortedEntries.

Lemma sort_insert_inOrder (x : string) (l : list string) :
  inOrder l -> inOrder (JS.sort_insert x l).
Proof.
  induction l as [| y l IH]; intros Hl; [exact I |].
  cbn [JS.sort_insert].
  destruct (String.leb x y) eqn:Hxy; [split; assumption |].
  assert (Hyx : String.leb y x = true)
    by (destruct (String.leb_total x y); congruence).
  destruct l as [| z l]; [simpl; auto |].
  destruct Hl as [Hyz Hl]. specialize (IH Hl).
  cbn [JS.sort_insert] in *.
  destruct (String.leb x z); split; assumption.
Qed.

Lemma sort_inOrder (l : list string) : inOrder (JS.sort l).
Proof.
  induction l as [| x l IH]; [exact I |].
  apply sort_insert_inOrder, IH.
Qed.

Lemma sort_of_inOrder (l : list string) : inOrder l -> JS.sort l = l.
Proof.
  induction l as [| x l IH]; intros Hl; [reflexivity |].
  change (JS.sort (x :: l)) with (JS.sort_insert x (JS.sort l)).
  destruct l as [| y l]; [reflexivity |].
  destruct Hl as [Hxy Hl]. rewrite (IH Hl).
  cbn [JS.sort_insert]. rewrite Hxy. reflexivity.
Qed.

End SortedEntries.

(** X12. The cycle search terminates on every catalog. Every entry it
    reports lists the nodes of a closed walk of the dependency graph, and it
    reports at least one entry exactly when the dependency graph has a
    closed walk: no false alarm, and no cyclic graph passes unnoticed. *)
Theorem cycle_search_correct (components : list ComponentInfo) :
  exists out,
    detectCircularDependencies components = Some out
    /\ Forall (walkEntry (buildDependencyGraph components)) out
    /\ (out <> [] <->
        exists walk, closedWalk (buildDependencyGraph components) walk).
Proof.
  destruct (detectCircularDependencies_total components) as [out Hout].
  exists out. split; [exact Hout |].
  pose proof (reported_cycle_sorted_walk components out Hout) as Hsound.
  split; [exact Hsound |]. split.
  - intros Hne. destruct out as [| cd out]; [congruence |].
    inversion Hsound as [| ? ? (walk & Hwalk & _) _]. exists walk. exact Hwalk.
  - intros (walk & Hwalk) ->.
    unfold detectCircularDependencies in Hout.
    apply detect_quiet in Hout. destruct Hout as [_ Hquiet].
    pose proof Hwalk as (Hedges & Hlen & x & Hhead & _).
    destruct walk as [| x' [| y rest]]; try (simpl in Hlen; lia).
    injection Hhead as ->.
    destruct Hedges as [(l & Hl & _) _].
    destruct (buildDependencyGraph_key components x l Hl) as (c & Hc & <-).
    destruct (Hquiet c Hc) as (visited & Hrun).
    exact (quiet_search_no_walk (buildDependencyGraph components) _
             (path c :: y :: rest) (path c) visited Hwalk eq_refl Hrun).
Qed.

(** X13. Every reported entry is an array in the order of the default
    comparator, with at least two names; its severity is [error] exactly
    when it has at most three names, the closing repeat included. *)
Theorem cycle_entry_shape (components : list ComponentInfo)
    (out : list CircularDependency) :
  detectCircularDependencies components = Some out ->
  Forall
    (fun cd =>
       inOrder (cycle cd)
       /\ (2 <= length (cycle cd))%nat
       /\ (severity cd = error <-> (length (cycle cd) <= 3)%nat))
    out.
Proof.
  intros Hout.
  assert (Hsorted : Forall (fun cd => inOrder (cycle cd)) out).
  { apply (detect_invariant (fun cd => inOrder (cycle cd))) with
      (components := components) (Inv := fun _ _ => True); try trivial.
    - intros cd _. apply sort_inOrder.
    - intros path node _ _. apply sort_inOrder. }
  pose proof (detect_severity components out Hout) as Hsev.
  pose proof (reported_cycle_sorted_walk components out Hout) as Hwalk.
  rewrite List.Forall_forall in *. intros cd Hcd.
  split; [apply Hsorted, Hcd |]. split.
  - destruct (Hwalk cd Hcd) as (walk & (_ & Hlen & _) & Hperm).
    rewrite (Permutation_length Hperm). exact Hlen.
  - rewrite (Hsev cd Hcd).
    destruct (Nat.leb_spec (length (cycle cd)) 3); split;
      intros; try reflexivity; try discriminate; lia.
Qed.

Lemma cycle_entry_shape_witness :
  Forall
    (fun cd =>
       inOrder (cycle cd)
       /\ (2 <= length (cycle cd))%nat
       /\ (severity cd = error <-> (length (cycle cd) <= 3)%nat))
    [ {| cycle := ["a.ts"; "a.ts"; "b.ts"]; severity := error |};
      {| cycle := ["a.ts"; "b.ts"; "b.ts"]; severity := error |} ].
Proof.
  apply (cycle_entry_shape twoCycleCatalog). vm_compute. reflexivity.
Defined.

(** ** The dependency graph *)

Section FirstMatch.

Lemma find_first {A : Type} (p : A -> bool) (l : list A) (x : A) :
  List.find p l = Some x <->
  exists l1 l2,
    l = l1 ++ x :: l2 /\ p x = true /\ forall y, In y l1 -> p y = false.
Proof.
  induction l as [| z l IH]; simpl.
  - split; [discriminate | intros (l1 & l2 & Hl & _)].
    destruct l1; discriminate.
  - destruct (p z) eqn:Hz.
    + split.
      * intros [= <-]. exists [], l. split; [reflexivity |].
        split; [exact Hz | intros y []].
      * intros ([| z' l1] & l2 & Hl & Hx & Hbefore).
        -- injection Hl as -> _. reflexivity.
        -- injection Hl as <- _.
           rewrite (Hbefore z (or_introl eq_refl)) in Hz. discriminate.
    + rewrite IH. split.
      * intros (l1 & l2 & -> & Hx & Hbefore). exists (z :: l1), l2.
        split; [reflexivity |]. split; [exact Hx |].
        intros y [<- | Hy]; [exact Hz | apply Hbefore, Hy].
      * intros ([| z' l1] & l2 & Hl & Hx & Hbefore).
        -- injection Hl as -> _. congruence.
        -- injection Hl as _ ->. exists l1, l2.
           split; [reflexivity |]. split; [exact Hx |].
           intros y Hy. apply Hbefore. right. exact Hy.
Qed.

End FirstMatch.

(** X14. The dependency graph has an entry for every component path and for
    nothing else, and every dependency it lists is a component path. The
    entry of a path holds the resolved dependencies of the last component of
    the catalog that has this path: a component's own dependencies, unless a
    later component has the same path. *)
Theorem dependency_graph_entries (components : list ComponentInfo) :
  (forall n,
     is_Some (buildDependencyGraph components !! n) <->
     In n (List.map path components))
  /\ (forall n l x,
        buildDependencyGraph components !! n = Some l -> In x l ->
        In x (List.map path components))
  /\ (forall l1 c l2,
        components = l1 ++ c :: l2 ->
        (forall c', In c' l2 -> path c' <> path c) ->
        buildDependencyGraph components !! path c =
        Some (omap (resolveDependency components) (dependencies c))).
Proof.
  split; [| split].
  - intros n. rewrite buildDependencyGraph_lookup. split.
    + intros [l Hl].
      destruct (List.find _ (rev components)) as [c |] eqn:Hfind;
        [| discriminate].
      apply find_some in Hfind. destruct Hfind as [Hin Heq].
      apply String.eqb_eq in Heq. subst n. apply in_map, in_rev, Hin.
    + intros Hn. apply in_map_iff in Hn. destruct Hn as (c & <- & Hc).
      destruct (List.find (fun c0 => String.eqb (path c0) (path c))
                  (rev components)) as [c' |] eqn:Hfind; [eexists; reflexivity |].
      apply find_none with (x := c) in Hfind; [| apply in_rev in Hc; exact Hc].
      rewrite String.eqb_refl in Hfind. discriminate.
  - apply buildDependencyGraph_closed.
  - intros l1 c l2 -> Hlater. rewrite buildDependencyGraph_lookup.
    rewrite rev_app_distr. simpl. rewrite <- app_assoc, find_app.
    destruct (List.find _ (rev l2)) as [c' |] eqn:Hfind.
    + apply find_some in Hfind. destruct Hfind as [Hin Heq].
      apply String.eqb_eq in Heq. apply in_rev in Hin.
      destruct (Hlater c' Hin Heq).
    + simpl. rewrite String.eqb_refl. reflexivity.
Qed.

(** X15. A dependency specifier is resolved by substring: after one leading
    [./] or [../] is removed, it resolves to the first component of the
    catalog whose path contains what is left, and to nothing when no path
    contains it. A specifier that is only [./] or [../] leaves the empty
    text, which every path contains: it resolves to the first component of
    the catalog. *)
Theorem dependency_resolution (components : list ComponentInfo) (dep : string) :
  (forall p,
     resolveDependency components dep = Some p <->
     exists l1 c l2,
       components = l1 ++ c :: l2
       /\ path c = p
       /\ occursIn (JS.stripRelativePrefix dep) (path c)
       /\ forall c', In c' l1 ->
            ~ occursIn (JS.stripRelativePrefix dep) (path c'))
  /\ (resolveDependency components dep = None <->
      forall c, In c components ->
        ~ occursIn (JS.stripRelativePrefix dep) (path c))
  /\ (forall r, JS.stripRelativePrefix ("./" +:+ r) = r)
  /\ (forall r, JS.stripRelativePrefix ("../" +:+ r) = r)
  /\ (JS.stripRelativePrefix dep = EmptyString ->
      resolveDependency components dep = path <$> head components).
Proof.
  unfold resolveDependency.
  split; [| split; [| split; [| split]]].
  - intros p. split.
    + destruct (List.find _ components) as [c |] eqn:Hfind; [| discriminate].
      intros [= <-]. apply find_first in Hfind.
      destruct Hfind as (l1 & l2 & -> & Hc & Hbefore).
      exists l1, c, l2. split; [reflexivity |]. split; [reflexivity |].
      split; [apply includes_spec, Hc |].
      intros c' Hc' Hocc. apply includes_spec in Hocc.
      rewrite (Hbefore c' Hc') in Hocc. discriminate.
    + intros (l1 & c & l2 & -> & <- & Hocc & Hbefore).
      assert (Hfind : List.find
                (fun c0 => JS.includes (path c0) (JS.stripRelativePrefix dep))
                (l1 ++ c :: l2) = Some c).
      { apply find_first. exists l1, l2. split; [reflexivity |].
        split; [apply includes_spec, Hocc |].
        intros y Hy. destruct (JS.includes (path y) _) eqn:Hinc; [| reflexivity].
        apply includes_spec in Hinc. destruct (Hbefore y Hy Hinc). }
      rewrite Hfind. reflexivity.
  - split.
    + destruct (List.find _ components) as [c |] eqn:Hfind; [discriminate |].
      intros _ c Hc Hocc. apply includes_spec in Hocc.
      rewrite (find_none _ _ Hfind c Hc) in Hocc. discriminate.
    + intros Hnone.
      destruct (List.find _ components) as [c |] eqn:Hfind; [| reflexivity].
      apply find_some in Hfind. destruct Hfind as [Hc Hinc].
      apply includes_spec in Hinc. destruct (Hnone c Hc Hinc).
  - intros r. reflexivity.
  - intros r. reflexivity.
  - intros ->. destruct components as [| c cs]; [reflexivity |].
    assert (Hinc : JS.includes (path c) EmptyString = true)
      by (destruct (path c); reflexivity).
    simpl. rewrite Hinc. reflexivity.
Qed.


(** ** What the complexity analyzer reports *)

Section ComplexityRun.

Context `{Host} (fs : FileSystem) (repoPath : string).

Lemma complexityOneByOne_mapM (components : list ComponentInfo) (c : Cache) :
  complexityOneByOne fs repoPath components c =
  (concat (fst (mapM (fun x => analyzeComponentComplexity fs x repoPath)
                  components c)),
   snd (mapM (fun x => analyzeComponentComplexity fs x repoPath) components c)).
Proof.
  revert c. induction components as [| x rest IH]; intros c; [reflexivity |].
  rewrite mapM_cons. cbn [complexityOneByOne].
  rewrite (bind_run (H := H)), (bind_run (H := H)), IH. reflexivity.
Qed.

Lemma fold_add_ge {A : Type} (f : A -> nat) (l : list A) (n : nat) :
  (n <= fold_left (fun acc x => (acc + f x)%nat) l n)%nat.
Proof.
  revert n. induction l as [| x l IH]; intros n; simpl; [lia |].
  specialize (IH (n + f x)%nat). lia.
Qed.

Lemma calculateCyclomaticComplexity_base (code : string) :
  (1 <= calculateCyclomaticComplexity code)%nat.
Proof.
  unfold calculateCyclomaticComplexity.
  apply (fold_add_ge (fun pattern => JS.countMatches pattern code)).
Qed.

(** What holds of every metric of one component. *)
Lemma analyzeComponentComplexity_metrics (x : ComponentInfo) (c : Cache) :
  Forall
    (fun m =>
       file m = path x
       /\ (1 <= cyclomaticComplexity m)%nat
       /\ fm_score m =
          complexityScoreOf (cyclomaticComplexity m) (cognitiveComplexity m))
    (fst (analyzeComponentComplexity fs x repoPath c)).
Proof.
  unfold analyzeComponentComplexity. rewrite (bind_run (H := H)).
  destruct (fst (getCachedFileContent fs (path_join repoPath (path x)) c))
    as [| a s]; [constructor |].
  set (c1 := snd (getCachedFileContent fs (path_join repoPath (path x)) c)).
  destruct (match astCache c1 !! path_join repoPath (path x) with
            | Some ast => Some ast
            | None => parse (String a s) (JS.endsWith (path x) "x")
            end) as [ast |]; [| constructor].
  destruct (extractFunctions ast (String a s)) as [[functions |] ast'];
    [| constructor].
  simpl. apply List.Forall_forall. intros m Hm.
  apply in_map_iff in Hm. destruct Hm as (func & <- & _).
  simpl. split; [reflexivity |].
  split; [apply calculateCyclomaticComplexity_base | reflexivity].
Qed.

End ComplexityRun.

(** X16. Processing the components in batches of 20 changes nothing:
    [calculateComplexity] returns the metrics, and leaves the cache, of the
    plain loop that analyzes the components one at a time in catalog
    order. *)
Theorem complexity_batching_transparent `{Host} (fs : FileSystem)
    (components : list ComponentInfo) (repoPath : string) (c : Cache) :
  calculateComplexity fs components repoPath c =
  complexityOneByOne fs repoPath components c.
Proof.
  rewrite calculateComplexity_sequential, complexityOneByOne_mapM.
  reflexivity.
Qed.

(** X17. Every metric [calculateComplexity] reports belongs to a component
    of the catalog, has a cyclomatic complexity of at least 1, and carries
    the label its two counts give: [very-complex] above 20 or 15, [complex]
    above 10 or 7, [moderate] above 5 or 3, [simple] otherwise. *)
Theorem complexity_metric_shape `{Host} (fs : FileSystem)
    (components : list ComponentInfo) (repoPath : string) (c : Cache) :
  Forall
    (fun m =>
       In (file m) (List.map path components)
       /\ (1 <= cyclomaticComplexity m)%nat
       /\ (fm_score m = veryComplex <->
           (20 < cyclomaticComplexity m)%nat \/ (15 < cognitiveComplexity m)%nat)
       /\ (fm_score m = complex <->
           ~ ((20 < cyclomaticComplexity m)%nat \/ (15 < cognitiveComplexity m)%nat)
           /\ ((10 < cyclomaticComplexity m)%nat \/ (7 < cognitiveComplexity m)%nat))
       /\ (fm_score m = moderateComplexity <->
           ~ ((10 < cyclomaticComplexity m)%nat \/ (7 < cognitiveComplexity m)%nat)
           /\ ((5 < cyclomaticComplexity m)%nat \/ (3 < cognitiveComplexity m)%nat))
       /\ (fm_score m = simple <->
           (cyclomaticComplexity m <= 5)%nat /\ (cognitiveComplexity m <= 3)%nat))
    (fst (calculateComplexity fs components repoPath c)).
Proof.
  rewrite calculateComplexity_sequential. cbn [fst].
  revert c. induction components as [| x rest IH]; intros c; [constructor |].
  rewrite mapM_cons. cbn [fst concat]. apply Forall_app. split.
  - pose proof (analyzeComponentComplexity_metrics fs repoPath x c) as Hx.
    rewrite List.Forall_forall in *. intros m Hm.
    destruct (Hx m Hm) as (Hfile & Hbase & Hscore).
    split; [left; symmetry; exact Hfile |].
    split; [exact Hbase |].
    rewrite Hscore. unfold complexityScoreOf.
    destruct (Nat.ltb_spec 20 (cyclomaticComplexity m));
      destruct (Nat.ltb_spec 15 (cognitiveComplexity m));
      destruct (Nat.ltb_spec 10 (cyclomaticComplexity m));
      destruct (Nat.ltb_spec 7 (cognitiveComplexity m));
      destruct (Nat.ltb_spec 5 (cyclomaticComplexity m));
      destruct (Nat.ltb_spec 3 (cognitiveComplexity m));
      simpl; repeat split; intros; try discriminate; try lia;
      try reflexivity.
  - specialize (IH (snd (analyzeComponentComplexity fs x repoPath c))).
    rewrite List.Forall_forall in *. intros m Hm.
    destruct (IH m Hm) as (Hfile & Hrest).
    split; [right; exact Hfile | exact Hrest].
Qed.


(** ** Naming utilities *)

Section Characters.

Lemma includes_char (s : string) (c : ascii) :
  JS.includes s (String c EmptyString) =
  existsb (Ascii.eqb c) (list_ascii_of_string s).
Proof.
  induction s as [| a s IH]; [reflexivity |].
  rewrite includes_cons, IH. simpl.
  destruct (ascii_dec c a) as [-> | Hne].
  - rewrite Ascii.eqb_refl. destruct s; reflexivity.
  - apply Ascii.eqb_neq in Hne. rewrite Hne. reflexivity.
Qed.

Lemma snake_char_plain (c : ascii) :
  isLowerChar c || isDigitChar c || Ascii.eqb c "_" = true ->
  Ascii.eqb "-" c = false /\ isAccentedChar c = false
  /\ JS.isSpaceChar c = false /\ isUpperChar c = false
  /\ toLowerChar c = c.
Proof.
  destruct c as [[] [] [] [] [] [] [] []]; vm_compute;
    intros; try discriminate; repeat split.
Qed.

Lemma toLowerChar_clean (c : ascii) :
  c <> "-"%char -> JS.isSpaceChar c = false ->
  toLowerChar c <> "-"%char
  /\ JS.isSpaceChar (toLowerChar c) = false
  /\ isUpperChar (toLowerChar c) = false.
Proof.
  destruct c as [[] [] [] [] [] [] [] []]; vm_compute;
    intros; try discriminate; try congruence; repeat split; congruence.
Qed.

Lemma underscore_clean :
  "_"%char <> "-"%char /\ JS.isSpaceChar "_" = false.
Proof. split; [discriminate | reflexivity]. Qed.

End Characters.

Section Stages.

Lemma replaceHyphens_chars (s : string) :
  Forall (fun c => c <> "-"%char) (list_ascii_of_string (replaceHyphens s)).
Proof.
  induction s as [| a s IH]; simpl; constructor; [| exact IH].
  destruct (Ascii.eqb_spec a "-"); [discriminate | assumption].
Qed.

Lemma replaceSpaceRuns_chars (inRun : bool) (s : string) :
  Forall (fun c => c <> "-"%char) (list_ascii_of_string s) ->
  Forall (fun c => c <> "-"%char /\ JS.isSpaceChar c = false)
    (list_ascii_of_string (replaceSpaceRuns inRun s)).
Proof.
  revert inRun. induction s as [| a s IH]; intros inRun Hs; simpl;
    [constructor |].
  inversion Hs as [| ? ? Ha Hs']; subst.
  destruct (JS.isSpaceChar a) eqn:Hsp.
  - destruct inRun; [apply IH, Hs' |].
    simpl. constructor; [exact underscore_clean | apply IH, Hs'].
  - simpl. constructor; [split; assumption | apply IH, Hs'].
Qed.

Lemma splitCamelCase_two (a b : ascii) (r : string) :
  splitCamelCase (String a (String b r)) =
  if isLowerChar a && isUpperChar b
  then String a (String "_" (String b (splitCamelCase r)))
  else String a (splitCamelCase (String b r)).
Proof. reflexivity. Qed.

Lemma splitCamelCase_chars (P : ascii -> Prop) (s : string) :
  P "_"%char ->
  Forall P (list_ascii_of_string s) ->
  Forall P (list_ascii_of_string (splitCamelCase s)).
Proof.
  intros Hu.
  assert (Hboth : forall s,
    (Forall P (list_ascii_of_string s) ->
     Forall P (list_ascii_of_string (splitCamelCase s)))
    /\ (forall a, Forall P (list_ascii_of_string (String a s)) ->
          Forall P (list_ascii_of_string (splitCamelCase (String a s))))).
  { clear s. induction s as [| b r [IH1 IH2]].
    - split; [trivial | intros a Ha; exact Ha].
    - split; [apply IH2 |].
      intros a Ha. rewrite splitCamelCase_two.
      inversion Ha as [| ? ? Pa Hbr]; subst.
      destruct (isLowerChar a && isUpperChar b).
      + inversion Hbr as [| ? ? Pb Hr]; subst.
        simpl. repeat constructor; try assumption. apply IH1, Hr.
      + simpl. constructor; [exact Pa | apply IH2, Hbr]. }
  apply Hboth.
Qed.

Lemma toLowerCase_chars (s : string) :
  Forall (fun c => c <> "-"%char /\ JS.isSpaceChar c = false)
    (list_ascii_of_string s) ->
  Forall
    (fun c => c <> "-"%char /\ JS.isSpaceChar c = false /\ isUpperChar c = false)
    (list_ascii_of_string (toLowerCase s)).
Proof.
  induction s as [| a s IH]; intros Hs; simpl; [constructor |].
  inversion Hs as [| ? ? [Ha1 Ha2] Hs']; subst.
  constructor; [apply toLowerChar_clean; assumption | apply IH, Hs'].
Qed.

(** The characters of a snake-case name. *)
Lemma isSnakeCase_chars (s : string) :
  isSnakeCase s = true ->
  s <> EmptyString
  /\ Forall (fun c => isLowerChar c || isDigitChar c || Ascii.eqb c "_" = true)
       (list_ascii_of_string s).
Proof.
  destruct s as [| c rest]; [discriminate |].
  unfold isSnakeCase. intros Hs. apply andb_prop in Hs as [Hc Hrest].
  split; [discriminate |]. simpl. constructor.
  - rewrite Hc. reflexivity.
  - apply List.Forall_forall. intros x Hx.
    rewrite forallb_forall in Hrest. apply Hrest, Hx.
Qed.

Lemma replaceHyphens_plain (s : string) :
  Forall (fun c => isLowerChar c || isDigitChar c || Ascii.eqb c "_" = true)
    (list_ascii_of_string s) ->
  replaceHyphens s = s.
Proof.
  induction s as [| a s IH]; intros Hs; [reflexivity |].
  inversion Hs as [| ? ? Ha Hs']; subst.
  destruct (snake_char_plain a Ha) as (Hh & _).
  simpl. rewrite IH by exact Hs'.
  rewrite Ascii.eqb_sym, Hh. reflexivity.
Qed.

Lemma replaceSpaceRuns_plain (s : string) :
  Forall (fun c => isLowerChar c || isDigitChar c || Ascii.eqb c "_" = true)
    (list_ascii_of_string s) ->
  replaceSpaceRuns false s = s.
Proof.
  induction s as [| a s IH]; intros Hs; [reflexivity |].
  inversion Hs as [| ? ? Ha Hs']; subst.
  destruct (snake_char_plain a Ha) as (_ & _ & Hsp & _).
  simpl. rewrite Hsp, IH by exact Hs'. reflexivity.
Qed.

Lemma splitCamelCase_plain (s : string) :
  Forall (fun c => isLowerChar c || isDigitChar c || Ascii.eqb c "_" = true)
    (list_ascii_of_string s) ->
  splitCamelCase s = s.
Proof.
  induction s as [| a s IH]; intros Hs; [reflexivity |].
  inversion Hs as [| ? ? Ha Hs']; subst.
  destruct s as [| b r]; [reflexivity |].
  inversion Hs' as [| ? ? Hb _]; subst.
  destruct (snake_char_plain b Hb) as (_ & _ & _ & Hup & _).
  rewrite splitCamelCase_two, Hup, andb_false_r, IH by exact Hs'.
  reflexivity.
Qed.

Lemma toLowerCase_plain (s : string) :
  Forall (fun c => isLowerChar c || isDigitChar c || Ascii.eqb c "_" = true)
    (list_ascii_of_string s) ->
  toLowerCase s = s.
Proof.
  induction s as [| a s IH]; intros Hs; [reflexivity |].
  inversion Hs as [| ? ? Ha Hs']; subst.
  destruct (snake_char_plain a Ha) as (_ & _ & _ & _ & Hlow).
  simpl. rewrite Hlow, IH by exact Hs'. reflexivity.
Qed.

End Stages.

(** X18. A name [isSnakeCase] accepts is not empty, holds no hyphen and no
    accented letter: whenever the linter's hyphen test ([id.includes("-")])
    or accent test ([hasAccents]) fires on a name, its snake-case test fires
    on it too. *)
Theorem snake_case_excludes (str : string) :
  isSnakeCase str = true ->
  str <> EmptyString
  /\ JS.includes str "-" = false
  /\ hasAccents str = false.
Proof.
  intros Hs. destruct (isSnakeCase_chars str Hs) as [Hne Hchars].
  split; [exact Hne |]. split.
  - rewrite includes_char. apply not_true_is_false. intros Hex.
    apply existsb_exists in Hex. destruct Hex as (c & Hc & Heq).
    rewrite List.Forall_forall in Hchars.
    destruct (snake_char_plain c (Hchars c Hc)) as (Hh & _). congruence.
  - unfold hasAccents. apply not_true_is_false. intros Hex.
    apply existsb_exists in Hex. destruct Hex as (c & Hc & Hacc).
    rewrite List.Forall_forall in Hchars.
    destruct (snake_char_plain c (Hchars c Hc)) as (_ & Ha & _). congruence.
Qed.

Lemma snake_case_excludes_witness :
  "code_postal" <> EmptyString
  /\ JS.includes "code_postal" "-" = false
  /\ hasAccents "code_postal" = false.
Proof. apply (snake_case_excludes "code_postal"). reflexivity. Defined.

(** X19. Whatever the name and whatever the host's normalisation gives, the
    text [toSnakeCase] returns holds no hyphen, no white space and no
    capital letter A-Z. *)
Theorem toSnakeCase_output `{Unicode} (str : string) :
  Forall
    (fun c => c <> "-"%char /\ JS.isSpaceChar c = false /\ isUpperChar c = false)
    (list_ascii_of_string (toSnakeCase str))
  /\ JS.includes (toSnakeCase str) "-" = false.
Proof.
  assert (Hchars :
    Forall
      (fun c => c <> "-"%char /\ JS.isSpaceChar c = false /\ isUpperChar c = false)
      (list_ascii_of_string (toSnakeCase str))).
  { unfold toSnakeCase. apply toLowerCase_chars.
    apply splitCamelCase_chars; [exact underscore_clean |].
    apply replaceSpaceRuns_chars, replaceHyphens_chars. }
  split; [exact Hchars |].
  rewrite includes_char. apply not_true_is_false. intros Hex.
  apply existsb_exists in Hex. destruct Hex as (c & Hc & Heq).
  rewrite List.Forall_forall in Hchars.
  destruct (Hchars c Hc) as (Hh & _).
  apply Ascii.eqb_eq in Heq. congruence.
Qed.

(** X20. A name that is already snake-case is its own suggestion:
    [toSnakeCase] returns it unchanged, as soon as the host's normalisation
    leaves it unchanged (it holds only the letters a-z, digits and
    underscores). *)
Theorem toSnakeCase_fixes_snake_case `{Unicode} (str : string) :
  isSnakeCase str = true ->
  withoutAccents str = str ->
  toSnakeCase str = str /\ isSnakeCase (toSnakeCase str) = true.
Proof.
  intros Hs Hnorm. destruct (isSnakeCase_chars str Hs) as [_ Hchars].
  assert (Heq : toSnakeCase str = str).
  { unfold toSnakeCase. rewrite Hnorm.
    rewrite (replaceHyphens_plain str Hchars).
    rewrite (replaceSpaceRuns_plain str Hchars).
    rewrite (splitCamelCase_plain str Hchars).
    apply (toLowerCase_plain str Hchars). }
  split; [exact Heq | rewrite Heq; exact Hs].
Qed.

Lemma toSnakeCase_fixes_snake_case_witness :
  @toSnakeCase plainUnicode "code_postal_2" = "code_postal_2"
  /\ isSnakeCase (@toSnakeCase plainUnicode "code_postal_2") = true.
Proof.
  apply (@toSnakeCase_fixes_snake_case plainUnicode "code_postal_2");
    reflexivity.
Defined.


(** ** Walks over parsed JSON *)

Section JsonInduction.

(** Induction on a JSON value, with the property available for every item of
    an array and every value of an object. *)
Lemma Json_nested_ind (P : Json -> Prop) :
  P JNull ->
  (forall b, P (JBool b)) ->
  (forall n, P (JNumber n)) ->
  (forall s, P (JString s)) ->
  (forall items, Forall P items -> P (JArray items)) ->
  (forall entries, Forall (fun e => P (snd e)) entries -> P (JObject entries)) ->
  forall j, P j.
Proof.
  intros Hnull Hbool Hnum Hstr Harr Hobj.
  exact (fix IH (j : Json) : P j :=
           match j with
           | JNull => Hnull
           | JBool b => Hbool b
           | JNumber n => Hnum n
           | JString s => Hstr s
           | JArray items =>
               Harr items
                 ((fix all (l : list Json) : Forall P l :=
                     match l with
                     | [] => @List.Forall_nil _ P
                     | x :: l' => @List.Forall_cons _ P x l' (IH x) (all l')
                     end) items)
           | JObject entries =>
               Hobj entries
                 ((fix all (l : list (string * Json))
                     : Forall (fun e => P (snd e)) l :=
                     match l with
                     | [] => @List.Forall_nil _ (fun e => P (snd e))
                     | e :: l' =>
                         @List.Forall_cons _ (fun e => P (snd e)) e l'
                           (IH (snd e)) (all l')
                     end) entries)
           end).
Qed.

End JsonInduction.

Section Loops.

Context {A B : Type}.

Lemma forEachIndexed_append (f : A -> nat -> list B -> list B)
    (g : A -> nat -> list B) (items : list A) :
  (forall v, In v items -> forall i acc, f v i acc = acc ++ g v i) ->
  forall i acc,
    forEachIndexed f items i acc = acc ++ yieldIndexed g items i.
Proof.
  induction items as [| v items IH]; intros Hf i acc; simpl.
  - rewrite app_nil_r. reflexivity.
  - rewrite IH by (intros w Hw; apply Hf; right; exact Hw).
    rewrite (Hf v (or_introl eq_refl)), <- app_assoc. reflexivity.
Qed.

Lemma fold_left_append {E : Type} (f : list B -> E -> list B)
    (g : E -> list B) (entries : list E) :
  (forall e, In e entries -> forall acc, f acc e = acc ++ g e) ->
  forall acc, fold_left f entries acc = acc ++ flat_map g entries.
Proof.
  induction entries as [| e entries IH]; intros Hf acc; simpl.
  - rewrite app_nil_r. reflexivity.
  - rewrite IH by (intros w Hw; apply Hf; right; exact Hw).
    rewrite (Hf e (or_introl eq_refl)), <- app_assoc. reflexivity.
Qed.

Lemma in_yieldIndexed (g : A -> nat -> list B) (items : list A) (i : nat)
    (x : B) :
  In x (yieldIndexed g items i) <->
  exists j v, items !! j = Some v /\ In x (g v (i + j)%nat).
Proof.
  revert i. induction items as [| v items IH]; intros i; simpl.
  - split; [intros [] | intros (j & w & Hj & _)]. discriminate.
  - rewrite in_app_iff, IH. split.
    + intros [Hx | (j & w & Hj & Hx)].
      * exists 0%nat, v. rewrite Nat.add_0_r. auto.
      * exists (S j), w. rewrite Nat.add_succ_r. auto.
    + intros ([| j] & w & Hj & Hx).
      * injection Hj as <-. rewrite Nat.add_0_r in Hx. auto.
      * right. exists j, w. rewrite Nat.add_succ_r in Hx. auto.
Qed.

End Loops.

Section FindByKey.

Context (targetKey : string).

(** What one call adds to the accumulator. *)
Lemma findByKey_append (obj : Json) :
  forall basePath acc,
    findByKey obj targetKey basePath acc =
    acc ++ findByKey obj targetKey basePath [].
Proof.
  induction obj as [| b | n | s | items IH | entries IH] using Json_nested_ind;
    intros basePath acc; try (simpl; rewrite app_nil_r; reflexivity).
  - cbn [findByKey].
    rewrite List.Forall_forall in IH.
    rewrite (forEachIndexed_append _
               (fun v i => findByKey v targetKey (indexPath basePath i) []))
      by (intros v Hv i acc'; apply IH, Hv).
    rewrite (forEachIndexed_append _
               (fun v i => findByKey v targetKey (indexPath basePath i) []) _
               (fun v Hv i acc' => IH v Hv (indexPath basePath i) acc') 0 []).
    reflexivity.
  - cbn [findByKey].
    rewrite List.Forall_forall in IH.
    assert (Hstep : forall e, In e entries -> forall acc',
      (let '(k, v) := e in
       findByKey v targetKey (keyPath basePath k)
         (if String.eqb k targetKey
          then acc' ++ [(keyPath basePath k, v)] else acc'))
      = acc' ++
        (let '(k, v) := e in
         (if String.eqb k targetKey then [(keyPath basePath k, v)] else [])
         ++ findByKey v targetKey (keyPath basePath k) [])).
    { intros [k v] He acc'. rewrite (IH (k, v) He).
      destruct (String.eqb k targetKey).
      - rewrite <- app_assoc. reflexivity.
      - reflexivity. }
    rewrite (fold_left_append
               (fun acc' e =>
                  let '(k, v) := e in
                  findByKey v targetKey (keyPath basePath k)
                    (if String.eqb k targetKey
                     then acc' ++ [(keyPath basePath k, v)] else acc'))
               (fun e =>
                  let '(k, v) := e in
                  (if String.eqb k targetKey then [(keyPath basePath k, v)] else [])
                  ++ findByKey v targetKey (keyPath basePath k) [])
               entries Hstep acc).
    rewrite (fold_left_append
               (fun acc' e =>
                  let '(k, v) := e in
                  findByKey v targetKey (keyPath basePath k)
                    (if String.eqb k targetKey
                     then acc' ++ [(keyPath basePath k, v)] else acc'))
               (fun e =>
                  let '(k, v) := e in
                  (if String.eqb k targetKey then [(keyPath basePath k, v)] else [])
                  ++ findByKey v targetKey (keyPath basePath k) [])
               entries Hstep []).
    reflexivity.
Qed.

Lemma findByKey_array (items : list Json) (basePath : string) :
  findByKey (JArray items) targetKey basePath [] =
  yieldIndexed (fun v i => findByKey v targetKey (indexPath basePath i) [])
    items 0.
Proof.
  cbn [findByKey].
  rewrite (forEachIndexed_append _
             (fun v i => findByKey v targetKey (indexPath basePath i) []))
    by (intros v _ i acc; apply findByKey_append).
  reflexivity.
Qed.

Lemma findByKey_object (entries : list (string * Json)) (basePath : string) :
  findByKey (JObject entries) targetKey basePath [] =
  flat_map
    (fun e =>
       let '(k, v) := e in
       (if String.eqb k targetKey then [(keyPath basePath k, v)] else [])
       ++ findByKey v targetKey (keyPath basePath k) [])
    entries.
Proof.
  cbn [findByKey].
  rewrite (fold_left_append _
             (fun e =>
                let '(k, v) := e in
                (if String.eqb k targetKey then [(keyPath basePath k, v)] else [])
                ++ findByKey v targetKey (keyPath basePath k) [])).
  - reflexivity.
  - intros [k v] _ acc. rewrite findByKey_append.
    destruct (String.eqb k targetKey).
    + rewrite <- app_assoc. reflexivity.
    + reflexivity.
Qed.

(** What is found is what is there. *)
Lemma findByKey_spec (obj : Json) :
  forall basePath p v,
    In (p, v) (findByKey obj targetKey basePath []) <->
    PropertyAt obj basePath p targetKey v.
Proof.
  induction obj as [| b | n | s | items IH | entries IH] using Json_nested_ind;
    intros basePath p v;
    try (simpl; split; [intros [] | intros Hp; inversion Hp]).
  - rewrite findByKey_array, in_yieldIndexed.
    rewrite List.Forall_forall in IH. split.
    + intros (j & x & Hj & Hin). simpl in Hin.
      apply (Property_item items basePath j x); [exact Hj |].
      apply IH; [| exact Hin].
      apply list_elem_of_In, (list_elem_of_lookup_2 _ _ _ Hj).
    + intros Hp. inversion Hp as [| | ? ? j x ? ? ? Hj Hx]; subst.
      exists j, x. split; [exact Hj |]. simpl.
      apply IH; [| exact Hx].
      apply list_elem_of_In, (list_elem_of_lookup_2 _ _ _ Hj).
  - rewrite findByKey_object, in_flat_map.
    rewrite List.Forall_forall in IH. split.
    + intros ([k x] & He & Hin). apply in_app_iff in Hin.
      destruct Hin as [Hin | Hin].
      * destruct (String.eqb_spec k targetKey) as [-> | Hne]; [| destruct Hin].
        destruct Hin as [[= <- <-] | []].
        apply Property_here. exact He.
      * apply (Property_below entries basePath k x); [exact He |].
        apply (IH (k, x) He). exact Hin.
    + intros Hp. inversion Hp as [? ? ? ? He | ? ? k x ? ? ? He Hx |]; subst.
      * exists (targetKey, v). split; [exact He |].
        rewrite String.eqb_refl. left. reflexivity.
      * exists (k, x). split; [exact He |].
        apply in_app_iff. right. apply (IH (k, x) He). exact Hx.
Qed.

End FindByKey.

Section WalkNumbers.

Lemma walkNumbers_spec (obj : Json) :
  forall basePath p n,
    In (p, n) (walkNumbers obj basePath) <->
    exists k, PropertyAt obj basePath p k (JNumber n).
Proof.
  induction obj as [| b | x | s | items IH | entries IH] using Json_nested_ind;
    intros basePath p n;
    try (simpl; split; [intros [] | intros [k Hp]; inversion Hp]).
  - cbn [walkNumbers]. rewrite in_yieldIndexed.
    rewrite List.Forall_forall in IH. split.
    + intros (j & v & Hj & Hin). simpl in Hin.
      apply IH in Hin;
        [| apply list_elem_of_In, (list_elem_of_lookup_2 _ _ _ Hj)].
      destruct Hin as [k Hk]. exists k.
      exact (Property_item items basePath j v p k (JNumber n) Hj Hk).
    + intros [k Hp]. inversion Hp as [| | ? ? j v ? ? ? Hj Hv]; subst.
      exists j, v. split; [exact Hj |]. simpl.
      apply IH; [apply list_elem_of_In, (list_elem_of_lookup_2 _ _ _ Hj) |].
      exists k. exact Hv.
  - cbn [walkNumbers]. rewrite in_flat_map.
    rewrite List.Forall_forall in IH. split.
    + intros ([k v] & He & Hin). apply in_app_iff in Hin.
      destruct Hin as [Hin | Hin].
      * destruct v; simpl in Hin; try contradiction.
        destruct Hin as [[= <- <-] | []].
        exists k. apply Property_here. exact He.
      * apply (IH (k, v) He) in Hin. destruct Hin as [k' Hk'].
        exists k'. exact (Property_below entries basePath k v p k' _ He Hk').
    + intros [k Hp].
      inversion Hp as [? ? ? ? He | ? ? k0 v ? ? ? He Hv |]; subst.
      * exists (k, JNumber n). split; [exact He |]. left. reflexivity.
      * exists (k0, v). split; [exact He |].
        apply in_app_iff. right. apply (IH (k0, v) He). exists k. exact Hv.
Qed.

Lemma walkNumbers_number_items (ns : list Q) (basePath : string) (i : nat) :
  yieldIndexed (fun v i => walkNumbers v (indexPath basePath i))
    (List.map JNumber ns) i = [].
Proof.
  revert i. induction ns as [| n ns IH]; intros i; [reflexivity |].
  simpl. apply IH.
Qed.

End WalkNumbers.

Section Paths.

Lemma string_app_assoc (a b c : string) : (a +:+ b) +:+ c = a +:+ b +:+ c.
Proof.
  induction a as [| x a IH]; [rewrite !append_nil; reflexivity |].
  rewrite !append_cons, IH. reflexivity.
Qed.

(** A path found starts with the base path and ends with the key. *)
Lemma PropertyAt_path (obj : Json) (basePath p k : string) (v : Json) :
  PropertyAt obj basePath p k v ->
  exists mid, p = basePath +:+ mid +:+ "." +:+ k.
Proof.
  induction 1 as [entries base k v He
                  | entries base k0 v0 p k v He Hp [mid ->]
                  | items base i v0 p k v Hi Hp [mid ->]].
  - exists EmptyString. rewrite append_nil. reflexivity.
  - exists ("." +:+ k0 +:+ mid). unfold keyPath.
    rewrite !string_app_assoc. reflexivity.
  - exists ("[" +:+ pretty.pretty i +:+ "]" +:+ mid). unfold indexPath.
    rewrite !string_app_assoc. reflexivity.
Qed.

End Paths.

(** X21. [findByKey] only appends to its accumulator, and what it appends
    are exactly the object properties named [targetKey], at any depth
    through arrays and objects, each with its value and the path that leads
    to it; every such path starts with the base path and ends with a dot
    and the key. *)
Theorem findByKey_finds_properties (obj : Json) (targetKey basePath : string) :
  (forall acc,
     findByKey obj targetKey basePath acc =
     acc ++ findByKey obj targetKey basePath [])
  /\ (forall p v,
        In (p, v) (findByKey obj targetKey basePath []) <->
        PropertyAt obj basePath p targetKey v)
  /\ (forall p v,
        In (p, v) (findByKey obj targetKey basePath []) ->
        exists mid, p = basePath +:+ mid +:+ "." +:+ targetKey).
Proof.
  split; [intros acc; apply findByKey_append |].
  split; [intros p v; apply findByKey_spec |].
  intros p v Hin. apply findByKey_spec in Hin.
  exact (PropertyAt_path _ _ _ _ _ Hin).
Qed.

(** X22. [walkNumbers] yields exactly the numbers that are values of object
    properties, at any depth, with their paths: each of them is also found
    by [findByKey] under its key. A number that is an item of an array, or
    the value walked itself, is not yielded. *)
Theorem walkNumbers_yields_properties (obj : Json) (basePath : string) :
  (forall p n,
     In (p, n) (walkNumbers obj basePath) <->
     exists k, PropertyAt obj basePath p k (JNumber n))
  /\ (forall p n,
        In (p, n) (walkNumbers obj basePath) <->
        exists k, In (p, JNumber n) (findByKey obj k basePath []))
  /\ (forall ns, walkNumbers (JArray (List.map JNumber ns)) basePath = [])
  /\ (forall n, walkNumbers (JNumber n) basePath = []).
Proof.
  split; [intros p n; apply walkNumbers_spec |].
  split.
  - intros p n. rewrite walkNumbers_spec. split; intros [k Hk]; exists k.
    + apply findByKey_spec, Hk.
    + apply findByKey_spec in Hk. exact Hk.
  - split; [| reflexivity].
    intros ns. apply walkNumbers_number_items.
Qed.


(** ** The optimised detector against the earlier one *)

Section BaselineScan.

Lemma baseline_comparePair_keeps (a b : Baseline.ContentEntry)
    (instances : list DuplicationInstance) (d : DuplicationInstance) :
  In d instances -> In d (Baseline.comparePair a b instances).
Proof.
  intros Hd. unfold Baseline.comparePair.
  destruct (_ || _); [exact Hd |].
  destruct (similarity _ _) as [sim |]; [| exact Hd].
  destruct (Qle_bool _ sim); [| exact Hd].
  apply in_or_app. left. exact Hd.
Qed.

Lemma baseline_compareWithRest_keeps (a : Baseline.ContentEntry)
    (rest : list Baseline.ContentEntry)
    (instances : list DuplicationInstance) (d : DuplicationInstance) :
  In d instances -> In d (Baseline.compareWithRest a rest instances).
Proof.
  revert instances. induction rest as [| b rest IH]; intros instances Hd;
    [exact Hd |].
  simpl. apply IH, baseline_comparePair_keeps, Hd.
Qed.

Lemma baseline_compareAll_keeps (entries : list Baseline.ContentEntry)
    (instances : list DuplicationInstance) (d : DuplicationInstance) :
  In d instances -> In d (Baseline.compareAll entries instances).
Proof.
  revert instances. induction entries as [| a rest IH]; intros instances Hd;
    [exact Hd |].
  simpl. apply IH, baseline_compareWithRest_keeps, Hd.
Qed.

Lemma baseline_compareWithRest_pair (a b : Baseline.ContentEntry)
    (rest : list Baseline.ContentEntry)
    (instances : list DuplicationInstance) (d : DuplicationInstance) :
  In b rest ->
  (forall inst, In d (Baseline.comparePair a b inst)) ->
  In d (Baseline.compareWithRest a rest instances).
Proof.
  intros Hb Hd. revert instances.
  induction rest as [| b' rest IH]; intros instances; [destruct Hb |].
  simpl. destruct Hb as [-> | Hb].
  - apply baseline_compareWithRest_keeps, Hd.
  - apply IH, Hb.
Qed.

Lemma baseline_compareAll_pair (entries : list Baseline.ContentEntry)
    (a b : Baseline.ContentEntry) (instances : list DuplicationInstance)
    (d : DuplicationInstance) :
  In (a, b) (allPairs entries) ->
  (forall inst, In d (Baseline.comparePair a b inst)) ->
  In d (Baseline.compareAll entries instances).
Proof.
  intros Hp Hd. revert instances.
  induction entries as [| x rest IH]; intros instances; [destruct Hp |].
  simpl in Hp. apply in_app_iff in Hp. simpl. destruct Hp as [Hp | Hp].
  - apply in_map_iff in Hp. destruct Hp as (y & [= -> ->] & Hy).
    apply baseline_compareAll_keeps.
    apply (baseline_compareWithRest_pair a b); assumption.
  - apply IH, Hp.
Qed.

Lemma allPairs_map {A B : Type} (f : A -> B) (l : list A) :
  allPairs (List.map f l) =
  List.map (fun p => (f (fst p), f (snd p))) (allPairs l).
Proof.
  induction l as [| x l IH]; [reflexivity |].
  simpl. rewrite map_app, IH, !map_map. reflexivity.
Qed.

Lemma allPairs_filter {A : Type} (q : A -> bool) (l : list A) (p : A * A) :
  In p (allPairs (List.filter q l)) -> In p (allPairs l).
Proof.
  intros Hp. destruct (in_allPairs_split _ _ Hp) as (x & y & z & Hsplit).
  destruct (filter_two_inv _ _ _ _ _ _ _ Hsplit)
    as (_ & _ & x' & y' & z' & ->).
  rewrite allPairs_split. apply in_or_app. right. left.
  destruct p; reflexivity.
Qed.

End BaselineScan.

Section AgainstBaseline.

Context `{Host} (fs : FileSystem) (repoPath : string).

(** An instance pushed for two entries read through a cache that agrees
    with the file system is pushed by the earlier loop body for the same
    two components. *)
Lemma pairInstances_baseline (a b : ComponentInfo) (d : DuplicationInstance)
    (inst : list DuplicationInstance) :
  In d (pairInstances (entryOf fs repoPath a) (entryOf fs repoPath b)) ->
  In d (Baseline.comparePair (Baseline.readEntry fs repoPath a)
          (Baseline.readEntry fs repoPath b) inst).
Proof.
  intros Hd.
  destruct (pairInstances_lines _ _ _ Hd) as [Hla Hlb].
  destruct (pairInstances_threshold _ _ _ Hd)
    as (Hsim & Hmin & Hlines & Hsnip & Hsug).
  pose proof (pairInstances_files _ _ _ Hd) as Hfiles.
  simpl in Hla, Hlb, Hsim, Hlines, Hsnip, Hfiles.
  assert (Hread : forall x,
    (minLines <= length (JS.split "010"
                           (contentOf fs (path_join repoPath (path x)))))%nat ->
    Baseline.readEntry fs repoPath x =
    {| Baseline.be_component := x;
       Baseline.be_content := contentOf fs (path_join repoPath (path x));
       Baseline.be_lines :=
         JS.split "010" (contentOf fs (path_join repoPath (path x))) |}).
  { intros x. unfold Baseline.readEntry, contentOf.
    destruct (fs (path_join repoPath (path x))); [reflexivity |].
    unfold minLines. simpl. lia. }
  rewrite (Hread a Hla), (Hread b Hlb).
  unfold Baseline.comparePair. cbn [Baseline.be_lines Baseline.be_content
                                     Baseline.be_component].
  destruct (Nat.ltb_spec (length (JS.split "010"
              (contentOf fs (path_join repoPath (path a))))) minLines);
    [lia |].
  destruct (Nat.ltb_spec (length (JS.split "010"
              (contentOf fs (path_join repoPath (path b))))) minLines);
    [lia |].
  cbn [orb]. rewrite Hsim.
  assert (Hold : Qle_bool Baseline.minSimilarity (similarityOf d) = true).
  { apply Qle_bool_iff. eapply Qle_trans; [| exact Hmin].
    unfold Baseline.minSimilarity, minSimilarity, Qle. simpl. lia. }
  rewrite Hold. apply in_or_app. right. left.
  destruct d as [f l s sn sg]. simpl in *. congruence.
Qed.

End AgainstBaseline.

(** X23. The optimisation only removes reports. From a cache that agrees
    with the file system, every instance the optimised [detectDuplication]
    reports is reported, with the same files, line count, similarity,
    snippet and suggestion, by the earlier detector without candidate
    filter, size and hash filters, cap and cache, whose threshold is 0.8. *)
Theorem optimised_reports_within_baseline `{Host} (fs : FileSystem)
    (components : list ComponentInfo) (repoPath : string) (c : Cache) :
  coherent fs c ->
  Forall (fun d => In d (Baseline.detectDuplication fs components repoPath))
    (fst (detectDuplication fs components repoPath c)).
Proof.
  intros Hc. apply List.Forall_forall. intros d Hd.
  destruct (detectDuplication_origin fs repoPath components c d Hd)
    as (ea & eb & _ & _ & _ & Hdp & Hin & _).
  destruct (detectDuplication_run_coherent fs repoPath components c Hc)
    as (_ & Hentries & _).
  rewrite Hentries, allPairs_map in Hin.
  apply in_map_iff in Hin. destruct Hin as ([a b] & [= <- <-] & Hab).
  apply allPairs_filter in Hab.
  unfold Baseline.detectDuplication.
  apply (baseline_compareAll_pair _ (Baseline.readEntry fs repoPath a)
           (Baseline.readEntry fs repoPath b)).
  - rewrite allPairs_map. apply in_map_iff. exists (a, b). auto.
  - intros inst. apply pairInstances_baseline, Hdp.
Qed.

Lemma optimised_reports_within_baseline_witness :
  Forall
    (fun d => In d (Baseline.detectDuplication (largeFs 1) (largeCatalog 1) "repo"))
    (fst (detectDuplication (largeFs 1) (largeCatalog 1) "repo" emptyCache)).
Proof.
  apply (optimised_reports_within_baseline (largeFs 1) (largeCatalog 1) "repo"
           emptyCache).
  apply emptyCache_coherent.
Defined.


Section ComplexityAgainstBaseline.

Context `{Host} (fs : FileSystem) (repoPath : string).

(** Nothing is cached yet for the components of [l]. *)
Lemma fresh_component (x : ComponentInfo) (c : Cache) :
  fileCache c !! path_join repoPath (path x) = None ->
  astCache c !! path_join repoPath (path x) = None ->
  fs (path_join repoPath (path x)) <> Some EmptyString ->
  fst (analyzeComponentComplexity fs x repoPath c)
  = Baseline.analyzeComponent fs repoPath x
  /\ forall q,
       q <> path_join repoPath (path x) ->
       fileCache (snd (analyzeComponentComplexity fs x repoPath c)) !! q
       = fileCache c !! q
       /\ astCache (snd (analyzeComponentComplexity fs x repoPath c)) !! q
          = astCache c !! q.
Proof.
  intros Hfile Hast Hnonempty.
  unfold analyzeComponentComplexity, Baseline.analyzeComponent.
  rewrite (bind_run (H := H)). unfold getCachedFileContent. rewrite Hfile.
  destruct (fs (path_join repoPath (path x))) as [[| a s] |] eqn:Hfs.
  - congruence.
  - cbn [fst snd astCache fileCache]. rewrite Hast.
    destruct (parse (String a s) (JS.endsWith (path x) "x")) as [ast |].
    + destruct (extractFunctions ast (String a s)) as [[functions |] ast'];
        cbn [fst snd]; (split; [reflexivity |]); intros q Hq;
        cbn [setAst fileCache astCache];
        rewrite !lookup_insert_ne by congruence; auto.
    + cbn [fst snd]. split; [reflexivity |]. intros q Hq.
      cbn [fileCache astCache]. rewrite lookup_insert_ne by congruence. auto.
  - cbn [fst snd]. split; [reflexivity |]. auto.
Qed.

Lemma fold_left_push {A B : Type} (f : A -> list B) (l : list A)
    (acc : list B) :
  fold_left (fun metrics c => metrics ++ f c) l acc = acc ++ flat_map f l.
Proof.
  revert acc. induction l as [| x l IH]; intros acc; simpl.
  - rewrite app_nil_r. reflexivity.
  - rewrite IH, <- app_assoc. reflexivity.
Qed.

Lemma fresh_run (components : list ComponentInfo) (c : Cache) :
  List.NoDup (List.map (fun x => path_join repoPath (path x)) components) ->
  (forall x, In x components ->
     fileCache c !! path_join repoPath (path x) = None
     /\ astCache c !! path_join repoPath (path x) = None
     /\ fs (path_join repoPath (path x)) <> Some EmptyString) ->
  concat (fst (mapM (fun x => analyzeComponentComplexity fs x repoPath)
                 components c))
  = flat_map (Baseline.analyzeComponent fs repoPath) components.
Proof.
  revert c. induction components as [| x rest IH]; intros c Hnodup Hfresh;
    [reflexivity |].
  rewrite mapM_cons. cbn [fst concat flat_map].
  inversion Hnodup as [| ? ? Hx Hrest]; subst.
  destruct (Hfresh x (or_introl eq_refl)) as (Hf & Ha & Hne).
  destruct (fresh_component x c Hf Ha Hne) as [Hsame Hother].
  rewrite Hsame. f_equal. apply IH; [exact Hrest |].
  intros y Hy.
  assert (Hyx : path_join repoPath (path y) <> path_join repoPath (path x)).
  { intros Heq. apply Hx. rewrite <- Heq.
    apply (in_map (fun x => path_join repoPath (path x))), Hy. }
  destruct (Hother _ Hyx) as [Hf' Ha'].
  destruct (Hfresh y (or_intror Hy)) as (Hfy & Hay & Hney).
  rewrite Hf', Ha'. auto.
Qed.

End ComplexityAgainstBaseline.

(** X24. On a fresh cache, for a catalog whose components have distinct
    files none of which is readable and empty, the optimised
    [calculateComplexity] (cache, batches of 20) reports exactly the metrics
    of the earlier version, which reads and parses every file in turn. *)
Theorem optimised_complexity_is_baseline `{Host} (fs : FileSystem)
    (components : list ComponentInfo) (repoPath : string) :
  List.NoDup (List.map (fun x => path_join repoPath (path x)) components) ->
  (forall x, In x components ->
     fs (path_join repoPath (path x)) <> Some EmptyString) ->
  fst (calculateComplexity fs components repoPath emptyCache)
  = Baseline.calculateComplexity fs components repoPath.
Proof.
  intros Hnodup Hnonempty.
  rewrite calculateComplexity_sequential. cbn [fst].
  unfold Baseline.calculateComplexity. rewrite fold_left_push. simpl.
  apply fresh_run; [exact Hnodup |].
  intros x Hx. simpl. rewrite !lookup_empty. auto.
Qed.

Lemma optimised_complexity_is_baseline_witness :
  fst (@calculateComplexity wholeFileHost (largeFs 0) pairCatalog "repo"
         (@emptyCache wholeFileHost))
  = @Baseline.calculateComplexity wholeFileHost (largeFs 0) pairCatalog "repo".
Proof.
  apply (@optimised_complexity_is_baseline wholeFileHost).
  - vm_compute. repeat constructor; simpl; intuition discriminate.
  - intros x [<- | [<- | []]]; vm_compute; discriminate.
Defined.


(** ** Decision points counted twice *)

Section ElseIf.

Lemma length_append (p q : string) :
  String.length (p +:+ q) = (String.length p + String.length q)%nat.
Proof.
  induction p as [| c p IH]; [rewrite append_nil; reflexivity |].
  rewrite append_cons. simpl. rewrite IH. reflexivity.
Qed.

Lemma skipSpaces_spec (s : string) :
  forall n r,
    JS.skipSpaces s = (n, r) ->
    exists sp,
      s = sp +:+ r /\ String.length sp = n
      /\ forall c, In c (list_ascii_of_string sp) -> JS.isSpaceChar c = true.
Proof.
  induction s as [| c s IH]; intros n r Hs.
  - injection Hs as <- <-. exists EmptyString.
    split; [reflexivity |]. split; [reflexivity | intros c []].
  - cbn [JS.skipSpaces] in Hs. destruct (JS.isSpaceChar c) eqn:Hc.
    + destruct (JS.skipSpaces s) as [n' r'] eqn:Hs'. injection Hs as <- <-.
      destruct (IH _ _ eq_refl) as (sp & -> & Hlen & Hall).
      exists (String c sp). rewrite append_cons.
      split; [reflexivity |]. split; [simpl; lia |].
      intros x [<- | Hx]; [exact Hc | apply Hall, Hx].
    + injection Hs as <- <-. exists EmptyString.
      split; [rewrite append_nil; reflexivity |].
      split; [reflexivity | intros x []].
Qed.

(** Where the [else if] pattern matches, the text reads [else], some white
    space, [if], and a word boundary. *)
Lemma elseIfMatcher_match (prev : option ascii) (s : string) (L : nat) :
  JS.elseIfMatcher prev s = Some L ->
  exists sp rest,
    s = "else" +:+ sp +:+ "if" +:+ rest
    /\ (0 < String.length sp)%nat
    /\ (forall c, In c (list_ascii_of_string sp) -> JS.isSpaceChar c = true)
    /\ JS.boundaryAfter rest = true
    /\ L = (4 + String.length sp + 2)%nat.
Proof.
  unfold JS.elseIfMatcher.
  destruct (JS.boundaryBefore prev); [| discriminate]. cbn [andb].
  destruct (String.prefix "else" s) eqn:Hp; [| discriminate].
  apply prefix_spec in Hp. destruct Hp as [r4 ->].
  change 4%nat with (String.length "else") at 1. rewrite dropString_append.
  destruct (JS.skipSpaces r4) as [n r] eqn:Hsp.
  destruct (Nat.ltb_spec 0 n) as [Hn |]; [| discriminate]. cbn [andb].
  destruct (String.prefix "if" r) eqn:Hif; [| discriminate].
  apply prefix_spec in Hif. destruct Hif as [rest ->].
  change 2%nat with (String.length "if") at 1. rewrite dropString_append.
  cbn [andb].
  destruct (JS.boundaryAfter rest) eqn:Hb; [| discriminate].
  intros [= <-].
  destruct (skipSpaces_spec _ _ _ Hsp) as (sp & -> & Hlen & Hall).
  exists sp, rest. rewrite Hlen. auto.
Qed.

Lemma elseIfMatcher_other (prev : option ascii) (c : ascii) (s : string) :
  c <> "e"%char -> JS.elseIfMatcher prev (String c s) = None.
Proof.
  intros Hc. destruct (JS.elseIfMatcher prev (String c s)) as [L |] eqn:Hm;
    [| reflexivity].
  destruct (elseIfMatcher_match _ _ _ Hm) as (sp & rest & Hs & _).
  rewrite (append_cons "e" "lse") in Hs. congruence.
Qed.

Lemma ifMatcher_other (prev : option ascii) (c : ascii) (s : string) :
  c <> "i"%char -> JS.wordMatcher "if" prev (String c s) = None.
Proof.
  intros Hc. destruct (JS.wordMatcher "if" prev (String c s)) as [L |] eqn:Hm;
    [| reflexivity].
  apply wordMatcher_spec in Hm. destruct Hm as (_ & _ & post & Hs & _).
  rewrite (append_cons "i" "f") in Hs. congruence.
Qed.

Lemma ifMatcher_here (prev : option ascii) (rest : string) :
  JS.boundaryBefore prev = true -> JS.boundaryAfter rest = true ->
  JS.wordMatcher "if" prev ("if" +:+ rest) = Some 2%nat.
Proof.
  intros Hb Ha. apply wordMatcher_spec.
  split; [reflexivity |]. split; [exact Hb |]. exists rest. auto.
Qed.

Section Scan.

Context (m : JS.Matcher).

Lemma countFrom_skip (pre rest : string) (prev : option ascii) :
  JS.countFrom m prev (String.length pre) (pre +:+ rest) =
  JS.countFrom m (lastOr prev pre) 0 rest.
Proof.
  revert prev. induction pre as [| c pre IH]; intros prev.
  - rewrite append_nil. reflexivity.
  - rewrite append_cons. simpl. apply IH.
Qed.

Lemma countFrom_match (prev : option ascii) (c : ascii) (pre rest : string) :
  m prev (String c (pre +:+ rest)) = Some (S (String.length pre)) ->
  JS.countFrom m prev 0 (String c (pre +:+ rest)) =
  S (JS.countFrom m (lastOr (Some c) pre) 0 rest).
Proof.
  intros Hm. cbn [JS.countFrom]. rewrite Hm, countFrom_skip. reflexivity.
Qed.

Lemma countFrom_no_match (prev : option ascii) (c : ascii) (s : string) :
  m prev (String c s) = None ->
  JS.countFrom m prev 0 (String c s) = JS.countFrom m (Some c) 0 s.
Proof. intros Hm. cbn [JS.countFrom]. rewrite Hm. reflexivity. Qed.

Lemma countFrom_pass (pre rest : string) (prev : option ascii) :
  (forall c s p, In c (list_ascii_of_string pre) -> m p (String c s) = None) ->
  JS.countFrom m prev 0 (pre +:+ rest) =
  JS.countFrom m (lastOr prev pre) 0 rest.
Proof.
  revert prev. induction pre as [| c pre IH]; intros prev Hpre.
  - rewrite append_nil. reflexivity.
  - rewrite append_cons, countFrom_no_match
      by (apply Hpre; left; reflexivity).
    simpl. apply IH. intros x s p Hx. apply Hpre. right. exact Hx.
Qed.

End Scan.

Lemma space_not_letter (c : ascii) :
  JS.isSpaceChar c = true ->
  c <> "i"%char /\ c <> "e"%char /\ JS.isWordChar c = false.
Proof.
  destruct c as [[] [] [] [] [] [] [] []]; vm_compute;
    intros; try discriminate; repeat split; discriminate.
Qed.

Lemma lastOr_space (prev : option ascii) (sp : string) :
  (0 < String.length sp)%nat ->
  (forall c, In c (list_ascii_of_string sp) -> JS.isSpaceChar c = true) ->
  JS.boundaryBefore (lastOr prev sp) = true.
Proof.
  intros Hlen Hall.
  destruct (string_snoc_cases sp) as [-> | (p & c & ->)];
    [simpl in Hlen; lia |].
  rewrite lastOr_append. simpl.
  assert (Hc : JS.isSpaceChar c = true).
  { apply Hall. clear. induction p as [| a p IH]; [left; reflexivity |].
    rewrite append_cons. right. exact IH. }
  destruct (space_not_letter c Hc) as (_ & _ & Hw). rewrite Hw. reflexivity.
Qed.

(** Every match of the [else if] pattern ends with a match of the [if]
    pattern. *)
Lemma elseIf_le_if (n : nat) :
  forall s prev,
    (String.length s <= n)%nat ->
    (JS.countFrom JS.elseIfMatcher prev 0 s
     <= JS.countFrom (JS.wordMatcher "if") prev 0 s)%nat.
Proof.
  induction n as [| n IH]; intros s prev Hlen.
  - destruct s; [simpl; lia | simpl in Hlen; lia].
  - destruct s as [| c s']; [simpl; lia |].
    destruct (JS.elseIfMatcher prev (String c s')) as [L |] eqn:HE.
    + destruct (elseIfMatcher_match _ _ _ HE)
        as (sp & rest & Hs & Hsp & Hall & Hafter & ->).
      rewrite (append_cons "e" "lse") in Hs. injection Hs as -> ->.
      assert (Hskip : JS.countFrom JS.elseIfMatcher prev 0
                        (String "e" ("lse" +:+ sp +:+ "if" +:+ rest))
                      = S (JS.countFrom JS.elseIfMatcher (Some "f"%char) 0 rest)).
      { rewrite <- (string_app_assoc sp "if" rest),
                <- (string_app_assoc "lse" (sp +:+ "if") rest).
        rewrite (countFrom_match JS.elseIfMatcher prev "e"
                   ("lse" +:+ sp +:+ "if") rest).
        - rewrite !lastOr_append. reflexivity.
        - rewrite (string_app_assoc "lse" (sp +:+ "if") rest),
                  (string_app_assoc sp "if" rest), HE.
          rewrite !length_append. simpl. f_equal; lia. }
      assert (Hif : JS.countFrom (JS.wordMatcher "if") prev 0
                      (String "e" ("lse" +:+ sp +:+ "if" +:+ rest))
                    = S (JS.countFrom (JS.wordMatcher "if") (Some "f"%char) 0 rest)).
      { change (String "e" ("lse" +:+ sp +:+ "if" +:+ rest))
          with ("else" +:+ sp +:+ "if" +:+ rest).
        rewrite <- (string_app_assoc "else" sp ("if" +:+ rest)).
        rewrite countFrom_pass.
        - change ("if" +:+ rest) with (String "i" ("f" +:+ rest)).
          rewrite (countFrom_match (JS.wordMatcher "if") _ "i" "f" rest).
          + reflexivity.
          + apply (ifMatcher_here _ rest); [| exact Hafter].
            rewrite lastOr_append. apply lastOr_space; assumption.
        - intros x s p Hx. apply ifMatcher_other.
          assert (Hx' : In x (list_ascii_of_string "else")
                        \/ In x (list_ascii_of_string sp)).
          { clear -Hx. simpl in Hx. simpl. tauto. }
          destruct Hx' as [Hx' | Hx'].
          + simpl in Hx'. intuition (subst; discriminate).
          + apply (space_not_letter x (Hall x Hx')). }
      rewrite Hskip, Hif.
      apply le_n_S, IH.
      cbn [String.length] in Hlen. rewrite !length_append in Hlen.
      simpl in Hlen. lia.
    + rewrite countFrom_no_match by exact HE.
      destruct (JS.wordMatcher "if" prev (String c s')) as [k |] eqn:HI.
      * apply wordMatcher_spec in HI.
        destruct HI as (-> & Hb & post & Hs & Ha).
        rewrite (append_cons "i" "f") in Hs. injection Hs as -> ->.
        change (String "i" ("f" +:+ post)) with ("if" +:+ post).
        change ("if" +:+ post) with (String "i" ("f" +:+ post)).
        rewrite (countFrom_match (JS.wordMatcher "if") prev "i" "f" post)
          by (apply (ifMatcher_here prev post); assumption).
        change ("f" +:+ post) with (String "f" post).
        rewrite countFrom_no_match
          by (apply elseIfMatcher_other; discriminate).
        simpl lastOr. apply Nat.le_le_succ_r, IH.
        simpl in Hlen. rewrite length_append in Hlen. simpl in Hlen. lia.
      * rewrite (countFrom_no_match (JS.wordMatcher "if")) by exact HI.
        apply IH. simpl in Hlen. lia.
Qed.

End ElseIf.

(** X25. Every [else if] is counted twice by [calculateCyclomaticComplexity]:
    each match of the [else if] pattern holds a match of the [if] pattern,
    so that the result is at least 1 plus twice the number of [else if]. *)
Theorem else_if_counted_twice (code : string) :
  (JS.countMatches JS.elseIfMatcher code
   <= JS.countMatches (JS.wordMatcher "if") code)%nat
  /\ (1 + 2 * JS.countMatches JS.elseIfMatcher code
      <= calculateCyclomaticComplexity code)%nat.
Proof.
  assert (Hle : (JS.countMatches JS.elseIfMatcher code
                 <= JS.countMatches (JS.wordMatcher "if") code)%nat)
    by (apply (elseIf_le_if (String.length code)); lia).
  split; [exact Hle |].
  unfold calculateCyclomaticComplexity, cyclomaticPatterns.
  cbn [fold_left]. lia.
Qed.


(** ** Order of the catalog, order of a pair *)

Section CatalogOrder.

Lemma filter_length_perm {A : Type} (p : A -> bool) (l l' : list A) :
  Permutation l l' -> length (List.filter p l) = length (List.filter p l').
Proof.
  induction 1 as [| x l l' _ IH | x y l | l1 l2 l3 _ IH1 _ IH2]; simpl.
  - reflexivity.
  - destruct (p x); simpl; rewrite IH; reflexivity.
  - destruct (p x), (p y); reflexivity.
  - rewrite IH1. exact IH2.
Qed.

Lemma couplingOf_perm (l l' : list ComponentInfo) (c : ComponentInfo) :
  Permutation l l' -> couplingOf l c = couplingOf l' c.
Proof.
  intros Hperm. unfold couplingOf.
  rewrite (filter_length_perm (dependsOnName (name c)) l l' Hperm).
  reflexivity.
Qed.

End CatalogOrder.

(** X26. The coupling metrics do not depend on the order of the catalog: for
    a catalog listed in another order, [calculateCoupling] reports the same
    metrics, in that other order. *)
Theorem coupling_order_independent (l l' : list ComponentInfo) :
  Permutation l l' ->
  calculateCoupling l' = List.map (couplingOf l) l'
  /\ Permutation (calculateCoupling l) (calculateCoupling l').
Proof.
  intros Hperm.
  assert (Heq : calculateCoupling l' = List.map (couplingOf l) l').
  { unfold calculateCoupling. apply map_ext. intros c.
    symmetry. apply couplingOf_perm, Hperm. }
  split; [exact Heq |].
  rewrite Heq. unfold calculateCoupling. apply Permutation_map, Hperm.
Qed.

Lemma coupling_order_independent_witness :
  Permutation (calculateCoupling smallCatalog)
    (calculateCoupling
       [ mkComponent "Q" "pages/Q.tsx" [] 12;
         mkComponent "P" "pages/P.tsx" ["./Q"; "./R"; "react"] 30;
         mkComponent "R" "pages/R.tsx" ["./Q"] 15 ]).
Proof.
  apply (coupling_order_independent smallCatalog).
  apply perm_swap.
Defined.

(** X27. Whether two files are reported as duplicates does not depend on
    which one comes first: the loop body pushes an instance for [(a, b)]
    exactly when it pushes one for [(b, a)], and the two instances have the
    same similarity and line count, their files in opposite orders. *)
Theorem duplicate_test_symmetric (a b : ContentEntry) :
  (pairInstances a b = [] <-> pairInstances b a = [])
  /\ forall d d',
       In d (pairInstances a b) -> In d' (pairInstances b a) ->
       similarityOf d = similarityOf d'
       /\ lines d = lines d'
       /\ files d' = rev (files d).
Proof.
  assert (Hshape : forall a b,
    pairInstances a b =
    if (length (ce_lines a) <? minLines)%nat || (length (ce_lines b) <? minLines)%nat
    then []
    else if negb (Qle_bool sizeTolerance
              (inject_Z (Z.of_nat (Nat.min (length (ce_lines a)) (length (ce_lines b))))
               / inject_Z (Z.of_nat (Nat.max (length (ce_lines a)) (length (ce_lines b))))))
    then []
    else if (100000 <? Z.abs (ce_hash a - ce_hash b))%Z then []
    else match similarity (ce_content a) (ce_content b) with
         | Some sim =>
             if Qle_bool minSimilarity sim
             then [{| files := [path (ce_component a); path (ce_component b)];
                      lines := Nat.min (length (ce_lines a)) (length (ce_lines b));
                      similarityOf := sim;
                      snippet := JS.join newline (take 5 (ce_lines a))
                                 +:+ newline +:+ "...";
                      suggestion := duplicationSuggestion |}]
             else []
         | None => []
         end).
  { intros x y. unfold pairInstances, comparePair.
    destruct (maxComparisons <=? 0 + 1)%Z eqn:Hcap; [discriminate Hcap |].
    destruct (_ || _); [reflexivity |].
    destruct (negb _); [reflexivity |].
    destruct (100000 <? _)%Z; [reflexivity |].
    destruct (similarity _ _) as [sim |]; [| reflexivity].
    destruct (Qle_bool minSimilarity sim); reflexivity. }
  rewrite (Hshape a b), (Hshape b a).
  rewrite (orb_comm (length (ce_lines b) <? minLines)%nat).
  rewrite (Nat.min_comm (length (ce_lines b))),
          (Nat.max_comm (length (ce_lines b))).
  replace (Z.abs (ce_hash b - ce_hash a)) with (Z.abs (ce_hash a - ce_hash b))
    by lia.
  rewrite (similarity_sym (ce_content b) (ce_content a)).
  destruct (_ || _); [split; [tauto | intros d d' []] |].
  destruct (negb _); [split; [tauto | intros d d' []] |].
  destruct (100000 <? _)%Z; [split; [tauto | intros d d' []] |].
  destruct (similarity _ _) as [sim |]; [| split; [tauto | intros d d' []]].
  destruct (Qle_bool minSimilarity sim); [| split; [tauto | intros d d' []]].
  split; [split; discriminate |].
  intros d d' [<- | []] [<- | []]. simpl. auto.
Qed.

(** ** Question marks *)

Section QuestionMarks.

Lemma literal_char_count (q : ascii) (s : string) (prev : option ascii) :
  JS.countFrom (JS.literalMatcher (String q EmptyString)) prev 0 s =
  countIf (Ascii.eqb q) (list_ascii_of_string s).
Proof.
  revert prev. induction s as [| c s IH]; intros prev; [reflexivity |].
  cbn [JS.countFrom list_ascii_of_string countIf].
  unfold JS.literalMatcher at 1.
  assert (Hp : String.prefix (String q EmptyString) (String c s)
               = Ascii.eqb q c).
  { destruct (Ascii.eqb_spec q c) as [-> | Hne].
    - apply prefix_spec. exists s. reflexivity.
    - apply not_true_is_false. intros Hp. apply prefix_spec in Hp.
      destruct Hp as [r Hr]. rewrite append_cons in Hr. congruence. }
  rewrite Hp. destruct (Ascii.eqb q c); simpl; rewrite IH; reflexivity.
Qed.

End QuestionMarks.

(** X28. [calculateCyclomaticComplexity] counts every question mark of the
    text as a decision point, whatever it stands for (a conditional
    expression, optional chaining, an optional member, a text literal): the
    result is at least 1 plus the number of question marks. *)
Theorem question_marks_all_counted (code : string) :
  JS.countMatches (JS.literalMatcher "?") code
  = countIf (Ascii.eqb "?") (list_ascii_of_string code)
  /\ (1 + countIf (Ascii.eqb "?") (list_ascii_of_string code)
      <= calculateCyclomaticComplexity code)%nat.
Proof.
  assert (Heq : JS.countMatches (JS.literalMatcher "?") code
                = countIf (Ascii.eqb "?") (list_ascii_of_string code))
    by apply literal_char_count.
  split; [exact Heq |]. rewrite <- Heq.
  unfold calculateCyclomaticComplexity, cyclomaticPatterns.
  cbn [fold_left]. lia.
Qed.
